(** * shopflow-pipeline: the idempotent CSV -> Postgres loader

    A shallow embedding of [src/etl/load_to_db.py] and the properties of
    its upsert, chunking, audit and commit behaviour.

    Python values are modelled by [pyval], dictionaries by stdpp's [gmap],
    the ordered dictionary [FILES] by an association list, exceptions and
    the mutable world (clock, connection, durable store) by a small
    state-and-exception monad [M].  The storage engine (PostgreSQL behind
    psycopg) is an external collaborator; the part of its behaviour the
    loader relies on is modelled in [Module Storage].

    The other scripts of the repository follow: the S3 uploader
    [src/cloud/s3_handler.py] in [Module S3Handler], and the checks of
    [src/data_validator.py] and the address generation of
    [src/data_generator.py] in [Module Validator] and [Module Generator],
    over the strings and regular expressions of [Module Py]. *)

From Stdlib Require Import ZArith Ascii String List Lia DecimalString.
From stdpp Require Import base option list gmap strings fin_maps.

Local Open Scope string_scope.
Local Open Scope list_scope.
Local Open Scope nat_scope.
Local Open Scope stdpp_scope.

(** ** Python values and exceptions *)

(** The values that flow from a CSV cell to a statement parameter:
    [None] (the [restval] of [csv.DictReader]), a [str], or a
    [datetime] (seconds on the UTC time line). *)
Inductive pyval :=
| PNone
| PStr (s : string)
| PTime (t : Z).

#[global] Instance pyval_eq_dec : EqDecision pyval.
Proof. solve_decision. Defined.

(** Errors raised by the storage engine. *)
Inductive dberror :=
| UndefinedTable (table : string)
| ProgrammingError (table : string)
| DataError (table col : string)
| NotNullViolation (table col : string)
| UniqueViolation (table : string)
| InFailedSqlTransaction.

(** Python exceptions seen by [main]. *)
Inductive exn :=
| FileNotFoundError (path : string)
| KeyError (key : string)
| DatabaseError (e : dberror)
| ReadError (msg : string).   (* raised while the file is opened or read:
                                 [OSError], [UnicodeDecodeError], [csv.Error] *)

#[global] Instance dberror_eq_dec : EqDecision dberror.
Proof. solve_decision. Defined.
#[global] Instance exn_eq_dec : EqDecision exn.
Proof. solve_decision. Defined.

Inductive outcome (A : Type) :=
| Ok (a : A)
| Raised (e : exn).
Arguments Ok {A} a.
Arguments Raised {A} e.

(** ** Records, rows and the audit ledger *)

(** A record as [csv.DictReader] yields it, and a row of a durable table:
    both map a column name to a value. *)
Abbreviation record := (gmap string pyval).

(** The value returned by [load_table]: [{"rows_submitted": n}]. *)
Record stats := { rows_submitted : nat }.

#[global] Instance stats_eq_dec : EqDecision stats.
Proof. solve_decision. Defined.

(** The [details] payload of an audit row: [Json(details)] on success
    (also the initial [Json({})]), [Json({"error": str(e)})] on failure. *)
Inductive json :=
| JStats (d : gmap string stats)
| JError (e : exn).

Record audit_row := {
  batch_id : N;
  load_date : Z;
  started_at_utc : Z;
  finished_at_utc : option Z;
  status : string;
  details : json
}.

Record database := {
  db_tables : gmap string (list (gmap string pyval));
  db_audit : list audit_row
}.

(** ** The statement built by [upsert_sql] *)

Record upsert_stmt := {
  u_table : string;
  u_col_list : list string;      (* INSERT INTO table (col_list) *)
  u_placeholders : nat;          (* VALUES (%s, ..., %s) *)
  u_conflict : string;           (* ON CONFLICT (pk) *)
  u_updates : list string        (* DO UPDATE SET c=EXCLUDED.c, ... *)
}.

Definition upsert_sql (table : string) (cols : list string) (pk : string) : upsert_stmt :=
  {| u_table := table;
     u_col_list := (cols ++ ["_ingested_at"])%list;
     u_placeholders := length cols + 1;
     u_conflict := pk;
     u_updates := (filter (λ c, c ≠ pk) cols ++ ["_ingested_at"])%list |}.

(** [dict(zip(keys, values))]: a later pair overrides an earlier one. *)
Definition py_dict (kvs : list (string * pyval)) : gmap string pyval :=
  foldl (λ d kv, <[kv.1 := kv.2]> d) ∅ kvs.

(** ** The storage engine

    PostgreSQL as the loader uses it.  A table is the list of its rows
    in insertion order, a row maps a column to its stored value, and a
    column a row was never given reads as absent.  The tables the
    loader targets are created outside the repository: their column
    types enter through [coerce], and the conflict column of the upsert
    is taken to be their primary key, so that a NULL key is rejected and
    the rows of a table have distinct keys (the statements below that
    need it assume it of the table they start from).  Other constraints
    a table might carry are not modelled. *)

Module Storage.

(** [SET c = EXCLUDED.c] for every [c] of [updates]. *)
Definition set_cols (updates : list string) (excluded r : gmap string pyval)
  : gmap string pyval :=
  foldl (λ r c, <[c := default PNone (excluded !! c)]> r) r updates.

(** [INSERT ... ON CONFLICT (conflict) DO UPDATE SET updates] of one
    proposed row: the first row with the same value in the conflict
    column is updated in place, otherwise the row is appended. *)
Fixpoint on_conflict_update (conflict : string) (updates : list string)
    (excluded : gmap string pyval) (rows : list (gmap string pyval))
  : list (gmap string pyval) :=
  match rows with
  | [] => [excluded]
  | r :: rs =>
      if decide (r !! conflict = excluded !! conflict)
      then set_cols updates excluded r :: rs
      else r :: on_conflict_update conflict updates excluded rs
  end.

(** Coercion of every parameter to the storage type of its column; the
    first column whose value is rejected is reported. *)
Fixpoint coerce_all (coerce : string → pyval → option pyval) (table : string)
    (cols : list string) (params : list pyval) : dberror + list pyval :=
  match cols, params with
  | c :: cols', p :: params' =>
      match coerce c p with
      | None => inl (DataError table c)
      | Some v =>
          match coerce_all coerce table cols' params' with
          | inl e => inl e
          | inr vs => inr (v :: vs)
          end
      end
  | _, _ => inr []
  end.

Section Engine.
(** The column types of the target tables are declared outside the
    repository: [coerce table col v] is the stored value of [v] in
    that column, or [None] when the engine rejects it. *)
Variable coerce : string → string → pyval → option pyval.

(** The row proposed for insertion (the [EXCLUDED] row): every
    parameter coerced to its column; the conflict column is the
    primary key and admits no NULL. *)
Definition proposed_row (sql : upsert_stmt) (params : list pyval)
  : dberror + gmap string pyval :=
  match coerce_all (coerce (u_table sql)) (u_table sql) (u_col_list sql) params with
  | inl e => inl e
  | inr vs =>
      let excluded := py_dict (zip (u_col_list sql) vs) in
      match excluded !! u_conflict sql with
      | None | Some PNone => inl (NotNullViolation (u_table sql) (u_conflict sql))
      | Some _ => inr excluded
      end
  end.

(** One execution of an upsert statement with one parameter row. *)
Definition exec_upsert (sql : upsert_stmt) (params : list pyval) (db : database)
  : dberror + database :=
  if negb (bool_decide (length (u_col_list sql) = u_placeholders sql
                        ∧ length params = u_placeholders sql))
  then inl (ProgrammingError (u_table sql))
  else
    match db_tables db !! u_table sql with
    | None => inl (UndefinedTable (u_table sql))
    | Some rows =>
        match proposed_row sql params with
        | inl e => inl e
        | inr excluded =>
            inr {| db_tables :=
                     <[u_table sql :=
                         on_conflict_update (u_conflict sql) (u_updates sql) excluded rows]>
                       (db_tables db);
                   db_audit := db_audit db |}
        end
    end.

(** [executemany] runs the statement once per parameter row, in order,
    and stops at the first one that fails; the store is returned as it
    was before the failing statement. *)
Fixpoint exec_seq (sql : upsert_stmt) (batch : list (list pyval)) (db : database)
  : option dberror * database :=
  match batch with
  | [] => (None, db)
  | params :: rest =>
      match exec_upsert sql params db with
      | inl e => (Some e, db)
      | inr db' => exec_seq sql rest db'
      end
  end.
End Engine.

(** The schema statements of [DDL]. *)
Inductive ddl_stmt :=
| CreateAuditTable                       (* CREATE TABLE IF NOT EXISTS public.load_audit *)
| AddIngestedAt (table : string).        (* ALTER TABLE t ADD COLUMN IF NOT EXISTS _ingested_at *)

(** A column that was never written reads as absent from the row, so
    adding the column only needs the table to exist; an absent ledger
    table is the empty ledger. *)
Definition exec_ddl (s : ddl_stmt) (db : database) : dberror + database :=
  match s with
  | CreateAuditTable => inr db
  | AddIngestedAt t =>
      match db_tables db !! t with
      | None => inl (UndefinedTable t)
      | Some _ => inr db
      end
  end.

(** [INSERT INTO public.load_audit]: [batch_id] is the primary key. *)
Definition insert_audit (r : audit_row) (db : database) : dberror + database :=
  if bool_decide (batch_id r ∈ batch_id <$> db_audit db)
  then inl (UniqueViolation "public.load_audit")
  else inr {| db_tables := db_tables db; db_audit := db_audit db ++ [r] |}.

(** [UPDATE public.load_audit SET finished_at_utc, status, details
    WHERE batch_id = b]: every row of that identifier is rewritten. *)
Definition mark_finished (finished : Z) (st : string) (d : json) (b : N) (db : database)
  : database :=
  {| db_tables := db_tables db;
     db_audit :=
       (λ r, if decide (batch_id r = b)
             then {| batch_id := batch_id r; load_date := load_date r;
                     started_at_utc := started_at_utc r;
                     finished_at_utc := Some finished; status := st; details := d |}
             else r) <$> db_audit db |}.

Definition update_audit (finished : Z) (st : string) (d : json) (b : N) (db : database)
  : dberror + database :=
  inr (mark_finished finished st d b db).

End Storage.

(** ** The world the loader runs in *)

(** The durable store as committed, the view of the open transaction,
    whether that transaction is in the failed state, the number of
    [executemany] round-trips issued, and the number of clock readings
    taken so far. *)
Record world := {
  w_clock : nat;
  w_durable : database;
  w_txn : database;
  w_aborted : bool;
  w_round_trips : nat
}.

Definition set_txn (db : database) (w : world) : world :=
  {| w_clock := w_clock w; w_durable := w_durable w; w_txn := db;
     w_aborted := w_aborted w; w_round_trips := w_round_trips w |}.

Definition set_aborted (b : bool) (w : world) : world :=
  {| w_clock := w_clock w; w_durable := w_durable w; w_txn := w_txn w;
     w_aborted := b; w_round_trips := w_round_trips w |}.

Definition tick (w : world) : world :=
  {| w_clock := S (w_clock w); w_durable := w_durable w; w_txn := w_txn w;
     w_aborted := w_aborted w; w_round_trips := w_round_trips w |}.

Definition count_round_trip (w : world) : world :=
  {| w_clock := w_clock w; w_durable := w_durable w; w_txn := w_txn w;
     w_aborted := w_aborted w; w_round_trips := S (w_round_trips w) |}.

(** A computation that may raise and that keeps its effects when it does. *)
Definition M (A : Type) : Type := world → outcome A * world.

Definition raise {A} (e : exn) : M A := λ w, (Raised e, w).

#[global] Instance M_ret : MRet M := λ A a w, (Ok a, w).
#[global] Instance M_bind : MBind M := λ A B k m w,
  match m w with
  | (Ok a, w') => k a w'
  | (Raised e, w') => (Raised e, w')
  end.

(** [try: body except Exception as e: handler e]. *)
Definition try_except {A} (body : M A) (handler : exn → M A) : M A :=
  λ w, match body w with
       | (Ok a, w') => (Ok a, w')
       | (Raised e, w') => handler e w'
       end.

(** [for x in xs: body x]. *)
Fixpoint for_each {A} (xs : list A) (body : A → M unit) : M unit :=
  match xs with
  | [] => mret tt
  | x :: xs' => body x;; for_each xs' body
  end.

(** ** psycopg *)

Module Psycopg.

(** [cur.execute]: refused in a failed transaction; a statement the
    engine rejects leaves the store as it was and puts the transaction
    in the failed state. *)
Definition execute (op : database → dberror + database) : M unit :=
  λ w, if w_aborted w then (Raised (DatabaseError InFailedSqlTransaction), w)
       else match op (w_txn w) with
            | inr db => (Ok tt, set_txn db w)
            | inl e => (Raised (DatabaseError e), set_aborted true w)
            end.

(** [conn.commit()]: makes the transaction's view durable; a failed
    transaction is ended without effect.  A new transaction starts. *)
Definition commit : M unit :=
  λ w, let db := if w_aborted w then w_durable w else w_txn w in
       (Ok tt, {| w_clock := w_clock w; w_durable := db; w_txn := db;
                  w_aborted := false; w_round_trips := w_round_trips w |}).

Definition rollback : M unit :=
  λ w, (Ok tt, {| w_clock := w_clock w; w_durable := w_durable w; w_txn := w_durable w;
                  w_aborted := false; w_round_trips := w_round_trips w |}).

(** [with psycopg.connect(dsn, autocommit=False) as conn: body]: the
    block's transaction starts from the durable store; leaving the
    block commits, leaving it by an exception rolls back. *)
Definition connect {A} (body : M A) : M A :=
  λ w, match body (set_aborted false (set_txn (w_durable w) w)) with
       | (Ok a, w') => (Ok a, snd (commit w'))
       | (Raised e, w') => (Raised e, snd (rollback w'))
       end.

Section Cursor.
Variable coerce : string → string → pyval → option pyval.

(** [cur.executemany(sql, batch)]: one round-trip, the statement run
    once per parameter row. *)
Definition executemany (sql : upsert_stmt) (batch : list (list pyval)) : M unit :=
  λ w, if w_aborted w
       then (Raised (DatabaseError InFailedSqlTransaction), count_round_trip w)
       else match Storage.exec_seq coerce sql batch (w_txn w) with
            | (None, db) => (Ok tt, count_round_trip (set_txn db w))
            | (Some e, db) =>
                (Raised (DatabaseError e), count_round_trip (set_aborted true (set_txn db w)))
            end.
End Cursor.

End Psycopg.

(** ** The csv module *)

(** A CSV file as the loader reads it: the lines [csv.reader] tokenises,
    each the list of its fields, up to the end of the file or to the
    point where opening or reading it raises, and the error raised
    there, if any.  The file is opened in text mode and decoded while
    the rows are iterated, so an error of the decoder or of the csv
    module comes after the lines before it have been read. *)
Record csv_file := {
  csv_lines :> list (list string);
  csv_error : option string
}.

(** A file that is read to its end. *)
Definition readable (lines : list (list string)) : csv_file :=
  {| csv_lines := lines; csv_error := None |}.

(** One record of [csv.DictReader]: the fields zipped with the header;
    header columns beyond the end of a short line get [restval = None].
    (Surplus fields go under the key [restkey = None], which no column
    name can address.) *)
Definition dict_row (fieldnames row : list string) : gmap string pyval :=
  foldl (λ d key, <[key := PNone]> d)
        (py_dict (zip fieldnames (PStr <$> row)))
        (drop (length row) fieldnames).

(** [csv.DictReader(f)]: the first line is the header, empty lines are
    skipped. *)
Definition DictReader (f : list (list string)) : list (gmap string pyval) :=
  match f with
  | [] => []
  | fieldnames :: lines => dict_row fieldnames <$> filter (λ l, l ≠ []) lines
  end.

(** [[row[c] for c in cols]]: the first column the record lacks raises
    [KeyError]. *)
Fixpoint getitems (row : gmap string pyval) (cols : list string) : outcome (list pyval) :=
  match cols with
  | [] => Ok []
  | c :: cols' =>
      match row !! c with
      | None => Raised (KeyError c)
      | Some v =>
          match getitems row cols' with
          | Ok vs => Ok (v :: vs)
          | Raised e => Raised e
          end
      end
  end.

Definition lift {A} (o : outcome A) : M A := λ w, (o, w).

(** [os.path.join(dir, name)] for a relative [name]. *)
Definition os_path_join (dir name : string) : string :=
  match String.length dir with
  | O => name
  | S n => match String.get n dir with
           | Some "/"%char => String.append dir name
           | _ => String.append dir (String.append "/" name)
           end
  end.

(** ** load_to_db.py *)

(** target files & schemas (table -> (filename, columns, pk)), in the
    order of the dictionary literal. *)
Definition FILES : list (string * (string * list string * string)) :=
  [ ("public.customers",
      ("customers.csv", ["id"; "name"; "email"; "registration_date"; "country"], "id"));
    ("public.products",
      ("products.csv", ["id"; "name"; "category"; "price"; "supplier"], "id"));
    ("public.transactions",
      ("transactions.csv",
       ["id"; "customer_id"; "product_id"; "quantity"; "timestamp"; "payment_method"], "id")) ].

Definition DDL : list Storage.ddl_stmt :=
  [ Storage.CreateAuditTable;
    Storage.AddIngestedAt "public.customers";
    Storage.AddIngestedAt "public.products";
    Storage.AddIngestedAt "public.transactions" ].

(** The chunk size written in [load_table]. *)
Definition CHUNK_SIZE : nat := 1000.

Section Loader.
(** The environment of one run: the readings of the wall clock in the
    order they are taken, the storage types of the columns, the files
    under [DATA_DIR], the configuration read from the process
    environment, and the identifier [uuid.uuid4()] draws. *)
Variable now : nat → Z.
Variable coerce : string → string → pyval → option pyval.
Variable fs : string → option csv_file.
Variable DATA_DIR : string.
Variable LOAD_DATE : Z.
Variable uuid4 : N.

(** [dt.datetime.utcnow()]. *)
Definition utcnow : M Z := λ w, (Ok (now (w_clock w)), tick w).

(** The [for row in reader] loop and the final [if batch:] of
    [load_table], with the chunk size as a parameter.  [reader] holds
    the records the reader yields and [err] the error it raises after
    them, if any: that error leaves the loop before the final
    [if batch:]. *)
Fixpoint load_rows (chunk : nat) (sql : upsert_stmt) (cols : list string)
    (err : option string)
    (reader : list (gmap string pyval)) (batch : list (list pyval)) (submitted : nat)
  : M nat :=
  match reader with
  | [] =>
      match err with
      | Some msg => raise (ReadError msg)
      | None =>
          match batch with
          | [] => mret submitted
          | _ => Psycopg.executemany coerce sql batch;; mret (submitted + length batch)
          end
      end
  | row :: reader' =>
      vals ← lift (getitems row cols);
      t ← utcnow;
      let batch' := (batch ++ [(vals ++ [PTime t])%list])%list in
      if bool_decide (chunk ≤ length batch')
      then Psycopg.executemany coerce sql batch';;
           load_rows chunk sql cols err reader' [] (submitted + length batch')
      else load_rows chunk sql cols err reader' batch' submitted
  end.

Definition load_table_with (chunk : nat) (table csv_path : string)
    (cols : list string) (pk : string) : M stats :=
  let sql := upsert_sql table cols pk in
  match fs csv_path with
  | None => raise (FileNotFoundError csv_path)
  | Some f =>
      submitted ← load_rows chunk sql cols (csv_error f) (DictReader f) [] 0;
      mret {| rows_submitted := submitted |}
  end.

Definition load_table : string → string → list string → string → M stats :=
  load_table_with CHUNK_SIZE.

(** Ensure files exist before opening a transaction. *)
Definition check_files (files : list (string * (string * list string * string))) : M unit :=
  for_each files (λ '(table, (filename, _, _)),
    let path := os_path_join DATA_DIR filename in
    match fs path with
    | None => raise (FileNotFoundError path)
    | Some _ => mret tt
    end).

(** The loop over [FILES.items()] filling [details]. *)
Fixpoint load_all (chunk : nat) (files : list (string * (string * list string * string)))
    (details : gmap string stats) : M (gmap string stats) :=
  match files with
  | [] => mret details
  | (table, (filename, cols, pk)) :: files' =>
      let csv_path := os_path_join DATA_DIR filename in
      st ← load_table_with chunk table csv_path cols pk;
      load_all chunk files' (<[table := st]> details)
  end.

Definition main_with (chunk : nat) : M unit :=
  let batch_id := uuid4 in
  started ← utcnow;
  check_files FILES;;
  Psycopg.connect (
    for_each DDL (λ stmt, Psycopg.execute (Storage.exec_ddl stmt));;
    Psycopg.execute (Storage.insert_audit
      {| batch_id := batch_id; load_date := LOAD_DATE; started_at_utc := started;
         finished_at_utc := None; status := "running"; details := JStats ∅ |});;
    try_except
      (details ← load_all chunk FILES ∅;
       finished ← utcnow;
       Psycopg.execute (Storage.update_audit finished "succeeded" (JStats details) batch_id);;
       Psycopg.commit)
      (λ e,
       finished ← utcnow;
       Psycopg.execute (Storage.update_audit finished "failed" (JError e) batch_id);;
       Psycopg.commit;;
       raise e)).

Definition main : M unit := main_with CHUNK_SIZE.
End Loader.

(** ** Notions used in the statements *)

(** The primary-key values of a table, row by row. *)
Definition keys (pk : string) (rows : list (gmap string pyval)) : list (option pyval) :=
  (λ r : gmap string pyval, r !! pk) <$> rows.

(** The first row whose primary key is [k]. *)
Fixpoint row_for (pk : string) (k : option pyval) (rows : list (gmap string pyval))
  : option (gmap string pyval) :=
  match rows with
  | [] => None
  | r :: rs => if decide (r !! pk = k) then Some r else row_for pk k rs
  end.

(** The invariant of a Dataset Descriptor: the primary key is one of the
    columns, no column is listed twice, and the metadata column is not
    a data column. *)
Definition wf_descriptor (cols : list string) (pk : string) : Prop :=
  pk ∈ cols ∧ NoDup cols ∧ "_ingested_at" ∉ cols.

#[global] Instance wf_descriptor_dec cols pk : Decision (wf_descriptor cols pk).
Proof. unfold wf_descriptor. apply _. Defined.

(** The effect of one upsert on the row found for its key. *)
Definition merge_row (updates : list string) (excluded : gmap string pyval)
    (o : option (gmap string pyval)) : gmap string pyval :=
  match o with
  | Some r => Storage.set_cols updates excluded r
  | None => excluded
  end.

(** [[row[c] for c in cols]] for a record that has every column. *)
Definition values (row : gmap string pyval) (cols : list string) : list pyval :=
  (λ c, default PNone (row !! c)) <$> cols.

(** The parameter rows of the records of [reader], in order, when the
    clock has been read [n] times before the first of them. *)
Fixpoint params_of (now : nat → Z) (cols : list string) (n : nat)
    (reader : list (gmap string pyval)) : list (list pyval) :=
  match reader with
  | [] => []
  | row :: reader' => (values row cols ++ [PTime (now n)]) :: params_of now cols (S n) reader'
  end.

(** One round-trip per full chunk plus one for a final partial chunk. *)
Definition round_trips_for (chunk n : nat) : nat :=
  n / chunk + (if n mod chunk =? 0 then 0 else 1).

(** The rows of a table after the proposed rows [exs] have been upserted
    in order by the statement [sql]. *)
Definition apply_rows (sql : upsert_stmt) (exs rows : list (gmap string pyval))
  : list (gmap string pyval) :=
  foldl (λ T ex, Storage.on_conflict_update (u_conflict sql) (u_updates sql) ex T) rows exs.

(** The primary-key value under which a record is stored. *)
Definition stored_key (coerce : string → string → pyval → option pyval)
    (table pk : string) (row : gmap string pyval) : option pyval :=
  row !! pk ≫= coerce table pk.

(** A record the target table accepts when it is read at time [t]: every
    declared column is present and coercible, the timestamp is storable
    and the primary key is not NULL. *)
Definition acceptable (coerce : string → string → pyval → option pyval)
    (table : string) (cols : list string) (pk : string)
    (row : gmap string pyval) (t : Z) : Prop :=
  Forall (λ c, is_Some (row !! c ≫= coerce table c)) cols
  ∧ is_Some (coerce table "_ingested_at" (PTime t))
  ∧ stored_key coerce table pk row ≠ Some PNone.

(** A malformed record: a declared column is missing, or holds a value
    that cannot be coerced to the storage type of the column. *)
Definition malformed (coerce : string → string → pyval → option pyval)
    (table : string) (cols : list string) (row : gmap string pyval) : Prop :=
  ∃ c, c ∈ cols ∧ (row !! c = None ∨ ∃ v, row !! c = Some v ∧ coerce table c v = None).

(** The audit rows of one batch identifier. *)
Definition audit_rows_of (b : N) (db : database) : list audit_row :=
  filter (λ r, batch_id r = b) (db_audit db).

Section Stages.
Variable now : nat → Z.
Variable coerce : string → string → pyval → option pyval.
Variable fs : string → option csv_file.
Variable DATA_DIR : string.
Variable LOAD_DATE : Z.
Variable uuid4 : N.

(** The audit row written at the start of a run that began at [started]. *)
Definition running_row (started : Z) : audit_row :=
  {| batch_id := uuid4; load_date := LOAD_DATE; started_at_utc := started;
     finished_at_utc := None; status := "running"; details := JStats ∅ |}.

(** The world in which the [try] statement of [main] starts, when the
    files are there, the schema statements pass and the identifier is
    new: the clock has been read once and the transaction holds the
    [running] row. *)
Definition begin_world (w : world) : world :=
  {| w_clock := S (w_clock w);
     w_durable := w_durable w;
     w_txn := {| db_tables := db_tables (w_durable w);
                 db_audit := db_audit (w_durable w) ++ [running_row (now (w_clock w))] |};
     w_aborted := false;
     w_round_trips := w_round_trips w |}.

(** The conditions under which [main] reaches its [try] statement. *)
Definition reaches_try (w : world) : Prop :=
  Forall (λ entry : string * (string * list string * string),
            is_Some (fs (os_path_join DATA_DIR entry.2.1.1))
            ∧ is_Some (db_tables (w_durable w) !! entry.1)) FILES
  ∧ uuid4 ∉ batch_id <$> db_audit (w_durable w).


(** Every configured file that is there is read to its end. *)
Definition files_readable : Prop :=
  Forall (λ entry : string * (string * list string * string),
            ∀ f, fs (os_path_join DATA_DIR entry.2.1.1) = Some f → csv_error f = None) FILES.

#[global] Instance reaches_try_dec w : Decision (reaches_try w).
Proof. unfold reaches_try. apply _. Defined.

(** The audit failure trace as the specification words it: a run that
    fails after the [running] row is written leaves exactly one ledger
    row for its identifier, [failed] and finished, and no change in any
    durable table. *)
Definition failure_discards_rows (w : world) : Prop :=
  ∀ e w',
    reaches_try w →
    main now coerce fs DATA_DIR LOAD_DATE uuid4 w = (Raised e, w') →
    (∃ r, audit_rows_of uuid4 (w_durable w') = [r]
          ∧ status r = "failed" ∧ is_Some (finished_at_utc r))
    ∧ db_tables (w_durable w') = db_tables (w_durable w).


(** The order of the two timestamps of a successful run as the
    specification words it: the ledger row of the run is [succeeded]
    and finished, not before it started. *)
Definition finish_not_before_start (w : world) : Prop :=
  (main now coerce fs DATA_DIR LOAD_DATE uuid4 w).1 = Ok tt →
  ∃ r finished,
    audit_rows_of uuid4 (w_durable (main now coerce fs DATA_DIR LOAD_DATE uuid4 w).2) = [r]
    ∧ status r = "succeeded"
    ∧ finished_at_utc r = Some finished
    ∧ (started_at_utc r ≤ finished)%Z.

(** The order of the ingestion timestamps of one load as the
    specification words it: of two records whose rows are left in the
    table, the one read later does not carry the earlier timestamp. *)
Definition later_never_earlier (table path : string) (cols : list string) (pk : string)
    (w : world) : Prop :=
  ∀ f rows' i j row_i row_j r_i r_j t_i t_j,
    fs path = Some f →
    db_tables (w_txn (load_table now coerce fs table path cols pk w).2) !! table = Some rows' →
    i ≤ j →
    DictReader f !! i = Some row_i → DictReader f !! j = Some row_j →
    Forall (λ row', stored_key coerce table pk row' ≠ stored_key coerce table pk row_i)
           (drop (S i) (DictReader f)) →
    Forall (λ row', stored_key coerce table pk row' ≠ stored_key coerce table pk row_j)
           (drop (S j) (DictReader f)) →
    row_for pk (stored_key coerce table pk row_i) rows' = Some r_i →
    row_for pk (stored_key coerce table pk row_j) rows' = Some r_j →
    r_i !! "_ingested_at" = Some (PTime t_i) →
    r_j !! "_ingested_at" = Some (PTime t_j) →
    (t_i ≤ t_j)%Z.

(** The suite of the [try] statement of [main]. *)
Definition try_suite (chunk : nat) : M unit :=
  details ← load_all now coerce fs DATA_DIR chunk FILES ∅;
  finished ← utcnow now;
  Psycopg.execute (Storage.update_audit finished "succeeded" (JStats details) uuid4);;
  Psycopg.commit.

(** The suite of its [except Exception as e] clause. *)
Definition except_suite (e : exn) : M unit :=
  finished ← utcnow now;
  Psycopg.execute (Storage.update_audit finished "failed" (JError e) uuid4);;
  Psycopg.commit;;
  raise e.

(** Leaving the [with psycopg.connect(...)] block. *)
Definition leave_connection {A} (r : outcome A * world) : outcome A * world :=
  match r with
  | (Ok a, w') => (Ok a, (Psycopg.commit w').2)
  | (Raised e, w') => (Raised e, (Psycopg.rollback w').2)
  end.
End Stages.

(** A proposed row of full shape for a statement: it holds the key and
    every updated column, and nothing else. *)
Definition shaped (sql : upsert_stmt) (ex : gmap string pyval) : Prop :=
  is_Some (ex !! u_conflict sql)
  ∧ (∀ c, c ∈ u_updates sql → is_Some (ex !! c))
  ∧ (∀ c, c ∉ u_updates sql → c ≠ u_conflict sql → ex !! c = None).

(** The keys of a table after one more key is upserted. *)
Definition add_key (K : list (option pyval)) (k : option pyval) : list (option pyval) :=
  if decide (k ∈ K) then K else K ++ [k].

(** The row found for key [k] after one more proposed row is upserted. *)
Definition step_row (sql : upsert_stmt) (k : option pyval)
    (o : option (gmap string pyval)) (ex : gmap string pyval)
  : option (gmap string pyval) :=
  if decide (ex !! u_conflict sql = k) then Some (merge_row (u_updates sql) ex o) else o.

(** Two states of the row of key [k] that every later upsert of that key
    takes to the same row: they agree outside the updated columns, or
    the second is absent and the first is absent or has the shape of a
    freshly inserted row. *)
Definition same_after_update (sql : upsert_stmt) (k : option pyval)
    (o' o : option (gmap string pyval)) : Prop :=
  match o, o' with
  | Some r, Some r' => ∀ c, c ∉ u_updates sql → r' !! c = r !! c
  | None, None => True
  | None, Some r' =>
      r' !! u_conflict sql = k
      ∧ ∀ c, c ∉ u_updates sql → c ≠ u_conflict sql → r' !! c = None
  | Some _, None => False
  end.

#[global] Instance acceptable_dec coerce table cols pk row t :
  Decision (acceptable coerce table cols pk row t).
Proof. unfold acceptable. apply _. Defined.

(** Every record of [reader] is acceptable at the time it is read, the
    clock having been read [n] times before the first of them. *)
Fixpoint acceptable_from (coerce : string → string → pyval → option pyval)
    (now : nat → Z) (table : string) (cols : list string) (pk : string)
    (n : nat) (reader : list (gmap string pyval)) : Prop :=
  match reader with
  | [] => True
  | row :: reader' =>
      acceptable coerce table cols pk row (now n)
      ∧ acceptable_from coerce now table cols pk (S n) reader'
  end.

#[global] Instance acceptable_from_dec coerce now table cols pk n reader :
  Decision (acceptable_from coerce now table cols pk n reader).
Proof. revert n. induction reader as [|row reader IH]; intros n; simpl; apply _. Defined.

(** ** A concrete scenario

    Three small files, a store with the three empty tables, a clock that
    advances by one second per reading, and column types in the style of
    the tables the loader targets: integer identifiers and quantities,
    a timestamp for the metadata column, text elsewhere.  The customers
    file has an empty line, which the reader skips, and holds the key
    [1] twice. *)

Module Scenario.

Definition is_digit (a : ascii) : bool :=
  (48 <=? nat_of_ascii a) && (nat_of_ascii a <=? 57).

Definition is_integer (s : string) : bool :=
  negb (String.eqb s "") && forallb is_digit (list_ascii_of_string s).

Definition coerce (table col : string) (v : pyval) : option pyval :=
  if String.eqb col "_ingested_at"
  then match v with PStr _ => None | _ => Some v end
  else if String.eqb col "id" || String.eqb col "quantity"
  then match v with
       | PStr s => if is_integer s then Some v else None
       | PNone => Some PNone
       | PTime _ => None
       end
  else match v with PTime _ => None | _ => Some v end.

Definition now (n : nat) : Z := 1000 + Z.of_nat n.

(** A wall clock that is set back by one second between any two
    readings. *)
Definition now_back (n : nat) : Z := 1000 - Z.of_nat n.

Definition customers_csv : csv_file :=
  readable
    [ ["id"; "name"; "email"; "registration_date"; "country"];
      ["1"; "Ann"; "ann@example.org"; "2020-01-01"; "PT"];
      [];
      ["2"; "Bob"; "bob@example.org"; "2021-03-04"; "BR"];
      ["1"; "Ann B"; "annb@example.org"; "2020-01-02"; "ES"] ].

Definition products_csv : csv_file :=
  readable
    [ ["id"; "name"; "category"; "price"; "supplier"];
      ["1"; "Mat"; "Sports"; "19.99"; "Acme"] ].

(** The products file of a later delivery: the same key, new values. *)
Definition products_pro_csv : csv_file :=
  readable
    [ ["id"; "name"; "category"; "price"; "supplier"];
      ["1"; "Mat Pro"; "Sports"; "24.99"; "Acme"] ].

(** A products file whose header lacks the [supplier] column. *)
Definition products_no_supplier_csv : csv_file :=
  readable
    [ ["id"; "name"; "category"; "price"];
      ["1"; "Mat"; "Sports"; "19.99"] ].

Definition transactions_csv : csv_file :=
  readable
    [ ["id"; "customer_id"; "product_id"; "quantity"; "timestamp"; "payment_method"];
      ["7"; "1"; "1"; "3"; "2024-05-01T10:00:00"; "card"] ].

(** A transactions file with a quantity that is not an integer. *)
Definition transactions_bad_quantity_csv : csv_file :=
  readable
    [ ["id"; "customer_id"; "product_id"; "quantity"; "timestamp"; "payment_method"];
      ["7"; "1"; "1"; "three"; "2024-05-01T10:00:00"; "card"] ].

(** A products file of which two records are read before a byte that
    cannot be decoded. *)
Definition products_undecodable_csv : csv_file :=
  {| csv_lines :=
       [ ["id"; "name"; "category"; "price"; "supplier"];
         ["1"; "Mat"; "Sports"; "19.99"; "Acme"];
         ["2"; "Rope"; "Sports"; "5.00"; "Acme"] ];
     csv_error := Some "'utf-8' codec can't decode byte" |}.

Definition files (c p t : option csv_file) (path : string) : option csv_file :=
  if String.eqb path "data/raw/customers.csv" then c
  else if String.eqb path "data/raw/products.csv" then p
  else if String.eqb path "data/raw/transactions.csv" then t
  else None.

Definition fs_good := files (Some customers_csv) (Some products_csv) (Some transactions_csv).
Definition fs_no_supplier :=
  files (Some customers_csv) (Some products_no_supplier_csv) (Some transactions_csv).
Definition fs_bad_quantity :=
  files (Some customers_csv) (Some products_csv) (Some transactions_bad_quantity_csv).
Definition fs_pro :=
  files (Some customers_csv) (Some products_pro_csv) (Some transactions_csv).
Definition fs_no_products := files (Some customers_csv) None (Some transactions_csv).
Definition fs_undecodable :=
  files (Some customers_csv) (Some products_undecodable_csv) (Some transactions_csv).

Definition db0 : database :=
  {| db_tables := list_to_map [ ("public.customers", []); ("public.products", []);
                                ("public.transactions", []) ];
     db_audit := [] |}.

Definition w0 : world :=
  {| w_clock := 0; w_durable := db0; w_txn := db0; w_aborted := false; w_round_trips := 0 |}.

(** One product already stored, as in the spec's reload scenario. *)
Definition mat : gmap string pyval :=
  list_to_map [ ("id", PStr "1"); ("name", PStr "Mat"); ("category", PStr "Sports");
                ("price", PStr "19.99"); ("supplier", PStr "Acme");
                ("_ingested_at", PTime 900) ].

Definition mat_pro : gmap string pyval :=
  list_to_map [ ("id", PStr "1"); ("name", PStr "Mat Pro"); ("category", PStr "Sports");
                ("price", PStr "24.99"); ("supplier", PStr "Acme") ].

Definition db_mat : database :=
  {| db_tables := list_to_map [ ("public.products", [mat]) ]; db_audit := [] |}.

(** What the checks of the scenario read off a table and off the ledger. *)
Definition key_and_time (rows : list (gmap string pyval))
  : list (option pyval * option pyval) :=
  (λ r : gmap string pyval, (r !! "id", r !! "_ingested_at")) <$> rows.

Definition name_and_price (rows : list (gmap string pyval))
  : list (option pyval * option pyval * option pyval) :=
  (λ r : gmap string pyval, (r !! "id", r !! "name", r !! "price")) <$> rows.

Definition id_and_status (audit : list audit_row) : list (N * string) :=
  (λ r, (batch_id r, status r)) <$> audit.

Definition w_mat : world :=
  {| w_clock := 1; w_durable := db_mat; w_txn := db_mat; w_aborted := false;
     w_round_trips := 0 |}.

(** A later moment: the clock has been read fifty times. *)
Definition w_later : world :=
  {| w_clock := 50; w_durable := db0; w_txn := db0; w_aborted := false;
     w_round_trips := 0 |}.

Definition mat_pro_record : gmap string pyval :=
  dict_row ["id"; "name"; "category"; "price"; "supplier"]
           ["1"; "Mat Pro"; "Sports"; "24.99"; "Acme"].




Definition products_cols : list string := ["id"; "name"; "category"; "price"; "supplier"].
Definition customers_cols : list string :=
  ["id"; "name"; "email"; "registration_date"; "country"].

End Scenario.

(** ** Further notions and cases

    What the statements about the rest of the loader's behaviour use. *)

(** Every table of a store has at most one row per value of [pk]. *)
Definition keys_distinct (pk : string) (db : database) : Prop :=
  map_Forall (λ _ rows, NoDup (keys pk rows)) (db_tables db).

#[global] Instance keys_distinct_dec pk db : Decision (keys_distinct pk db).
Proof. unfold keys_distinct. apply _. Defined.

(** [rows'] is the table [rows] after the records of [reader], the first
    of them read at the [n]-th reading of the clock, have all been
    accepted and upserted in order. *)
Definition loaded_from (now : nat → Z) (coerce : string → string → pyval → option pyval)
    (table : string) (cols : list string) (pk : string)
    (reader : list (gmap string pyval)) (n : nat)
    (rows rows' : list (gmap string pyval)) : Prop :=
  ∃ exs,
    Forall2 (λ p ex, Storage.proposed_row coerce (upsert_sql table cols pk) p = inr ex)
            (params_of now cols n reader) exs
    ∧ (∀ i row, reader !! i = Some row → acceptable coerce table cols pk row (now (n + i)))
    ∧ rows' = apply_rows (upsert_sql table cols pk) exs rows.

Module Cases.

(** A products file of a header and an empty line only; the header lacks
    the [supplier] column. *)
Definition products_header_only_csv : csv_file :=
  readable [ ["id"; "name"; "category"; "price"]; []].

Definition fs_header_only :=
  Scenario.files (Some Scenario.customers_csv) (Some products_header_only_csv)
                 (Some Scenario.transactions_csv).

(** A store that lacks the products table. *)
Definition db_no_products : database :=
  {| db_tables := list_to_map [ ("public.customers", []); ("public.transactions", []) ];
     db_audit := [] |}.

Definition w_no_products : world :=
  {| w_clock := 0; w_durable := db_no_products; w_txn := db_no_products;
     w_aborted := false; w_round_trips := 0 |}.

(** A store whose ledger already holds a finished run with identifier 42,
    and a customer that no file of the scenario mentions. *)
Definition earlier_run : audit_row :=
  {| batch_id := 42; load_date := 19999; started_at_utc := 10;
     finished_at_utc := Some 20%Z; status := "succeeded"; details := JStats ∅ |}.

Definition zoe : gmap string pyval :=
  list_to_map [ ("id", PStr "9"); ("name", PStr "Zoe"); ("email", PStr "zoe@example.org");
                ("registration_date", PStr "2019-09-09"); ("country", PStr "FR");
                ("_ingested_at", PTime 5) ].

Definition db_earlier : database :=
  {| db_tables := list_to_map [ ("public.customers", [zoe]); ("public.products", []);
                                ("public.transactions", []) ];
     db_audit := [earlier_run] |}.

Definition w_earlier : world :=
  {| w_clock := 0; w_durable := db_earlier; w_txn := db_earlier;
     w_aborted := false; w_round_trips := 0 |}.

End Cases.

(** ** cloud/s3_handler.py

    The uploader, in a world of its own: the calls of the S3 client and
    the pauses of [time.sleep].  What the program prints is left out,
    and so are [parse_args] and [parse_date]: [main] takes the parsed
    arguments and the partition date they produce. *)

Module S3Handler.

(** [base_path / name]: a local path, kept as its two operands. *)
Record local_path := { lp_base : string; lp_rel : string }.

#[global] Instance local_path_eq_dec : EqDecision local_path.
Proof. solve_decision. Defined.

Inductive error :=
| FileNotFoundError (candidate : local_path)
| S3Error (msg : string).                 (* what a call of the client raises *)

#[global] Instance error_eq_dec : EqDecision error.
Proof. solve_decision. Defined.

(** The last case is a loop that has not finished within the steps it
    was given. *)
Inductive result (A : Type) :=
| Done (a : A)
| Failed (e : error)
| OutOfFuel.
Arguments Done {A} a.
Arguments Failed {A} e.
Arguments OutOfFuel {A}.

Record s3_object := {
  o_bucket : string;
  o_key : string;
  o_source : local_path;
  o_sse : string
}.

#[global] Instance s3_object_eq_dec : EqDecision s3_object.
Proof. solve_decision. Defined.

(** The calls of the client made so far, the uploads that succeeded, in
    order, the versioning [Status] of each bucket that has one, and the
    durations passed to [time.sleep], in order. *)
Record cloud := {
  c_calls : nat;
  c_objects : list s3_object;
  c_versioning : gmap string string;
  c_slept : list Z
}.

Definition S (A : Type) : Type := cloud → result A * cloud.

Definition raise {A} (e : error) : S A := λ c, (Failed e, c).

#[global] Instance S_ret : MRet S := λ A a c, (Done a, c).
#[global] Instance S_bind : MBind S := λ A B k m c,
  match m c with
  | (Done a, c') => k a c'
  | (Failed e, c') => (Failed e, c')
  | (OutOfFuel, c') => (OutOfFuel, c')
  end.

(** [for x in xs: body x]. *)
Fixpoint for_each {A} (xs : list A) (body : A → S unit) : S unit :=
  match xs with
  | [] => mret tt
  | x :: xs' => body x;; for_each xs' body
  end.

(** A [dict] with string keys, in insertion order: assigning to a key
    that is there keeps its place. *)
Fixpoint dict_set {V} (d : list (string * V)) (k : string) (v : V) : list (string * V) :=
  match d with
  | [] => [(k, v)]
  | (k', v') :: d' =>
      if decide (k' = k) then (k', v) :: d' else (k', v') :: dict_set d' k v
  end.

(** [s.rstrip(c)] for a single character [c]. *)
Fixpoint rstrip (c : ascii) (s : string) : string :=
  match s with
  | EmptyString => EmptyString
  | String a s' =>
      match rstrip c s' with
      | EmptyString => if decide (a = c) then EmptyString else String a EmptyString
      | r => String a r
      end
  end.

(** The final component of a relative name that does not end in a
    separator: what follows its last ["/"]. *)
Fixpoint last_component (acc s : string) : string :=
  match s with
  | EmptyString => acc
  | String a s' =>
      if decide (a = "/"%char) then last_component EmptyString s'
      else last_component (String.append acc (String a EmptyString)) s'
  end.

(** [path.name]. *)
Definition path_name (path : local_path) : string := last_component "" (lp_rel path).

(** A date, as far as [build_key] looks at it: its fields as
    [strftime] formats them. *)
Record date := { strftime_Y : string; strftime_m : string; strftime_d : string }.

Definition build_key (prefix : string) (when : date) (dataset filename : string) : string :=
  String.append prefix (String.append "/year=" (String.append (strftime_Y when)
    (String.append "/month=" (String.append (strftime_m when)
      (String.append "/day=" (String.append (strftime_d when)
        (String.append "/" (String.append dataset (String.append "/" filename))))))))).

(** The parsed command line. *)
Record args := {
  a_bucket : string;
  a_prefix : string;
  a_base_path : string;
  a_datasets : list string;
  a_enable_versioning : bool
}.

Section Client.
(** The error the [n]-th call of the client raises, if it raises one,
    and the local files that exist. *)
Variable fails : nat → option string.
Variable path_exists : local_path → bool.

(** One call of the client. *)
Definition call {A} (op : cloud → A * cloud) : S A :=
  λ c, let c1 := {| c_calls := Datatypes.S (c_calls c); c_objects := c_objects c;
                    c_versioning := c_versioning c; c_slept := c_slept c |} in
       match fails (c_calls c) with
       | Some msg => (Failed (S3Error msg), c1)
       | None => (Done (op c1).1, (op c1).2)
       end.

(** [s3_client.get_bucket_versioning(Bucket=bucket).get("Status")]. *)
Definition get_bucket_versioning (bucket : string) : S (option string) :=
  call (λ c, (c_versioning c !! bucket, c)).

Definition put_bucket_versioning (bucket status : string) : S unit :=
  call (λ c, (tt, {| c_calls := c_calls c; c_objects := c_objects c;
                     c_versioning := <[bucket := status]> (c_versioning c);
                     c_slept := c_slept c |})).

Definition upload_file (filename : local_path) (bucket key sse : string) : S unit :=
  call (λ c, (tt, {| c_calls := c_calls c;
                     c_objects := c_objects c ++ [ {| o_bucket := bucket; o_key := key;
                                                      o_source := filename; o_sse := sse |} ];
                     c_versioning := c_versioning c; c_slept := c_slept c |})).

(** [time.sleep(secs)]. *)
Definition sleep (secs : Z) : S unit :=
  λ c, (Done tt, {| c_calls := c_calls c; c_objects := c_objects c;
                    c_versioning := c_versioning c; c_slept := c_slept c ++ [secs] |}).

Definition ensure_versioning (bucket : string) : S unit :=
  status ← get_bucket_versioning bucket;
  if decide (status ≠ Some "Enabled")
  then put_bucket_versioning bucket "Enabled"
  else mret tt.

(** The [while True] loop of [backoff_upload], entered with [attempt]
    attempts made; [fuel] bounds the number of its iterations. *)
Fixpoint backoff_loop (fuel : nat) (bucket : string) (src : local_path) (key : string)
    (max_retries attempt : Z) : S unit :=
  match fuel with
  | O => λ c, (OutOfFuel, c)
  | Datatypes.S fuel' =>
      let attempt := (attempt + 1)%Z in
      λ c, match upload_file src bucket key "AES256" c with
           | (Done _, c') => (Done tt, c')
           | (Failed e, c') =>
               if bool_decide (max_retries ≤ attempt)%Z
               then (Failed e, c')
               else (sleep (Z.min (2 ^ attempt) 30);;
                     backoff_loop fuel' bucket src key max_retries attempt) c'
           | (OutOfFuel, c') => (OutOfFuel, c')
           end
  end.

Definition backoff_upload (fuel : nat) (bucket : string) (src : local_path) (key : string)
    (max_retries : Z) : S unit :=
  backoff_loop fuel bucket src key max_retries 0.

(** The loop of [find_local_files] over the datasets not yet seen. *)
Fixpoint find_local_files_from (base_path : string) (datasets : list string)
    (files : list (string * local_path)) : S (list (string * local_path)) :=
  match datasets with
  | [] => mret files
  | ds :: datasets' =>
      let candidate := {| lp_base := base_path; lp_rel := String.append ds ".csv" |} in
      if path_exists candidate
      then find_local_files_from base_path datasets' (dict_set files ds candidate)
      else raise (FileNotFoundError candidate)
  end.

Definition find_local_files (base_path : string) (datasets : list string)
  : S (list (string * local_path)) :=
  find_local_files_from base_path datasets [].

(** The default of [max_retries], which [main] uses. *)
Definition MAX_RETRIES : Z := 5.

Definition main (fuel : nat) (a : args) (when : date) : S unit :=
  let bucket := a_bucket a in
  let prefix := rstrip "/" (a_prefix a) in
  files ← find_local_files (a_base_path a) (a_datasets a);
  (if a_enable_versioning a then ensure_versioning bucket else mret tt);;
  for_each files (λ '(ds, local_path),
    let key := build_key prefix when ds (path_name local_path) in
    backoff_upload fuel bucket local_path key MAX_RETRIES).
End Client.

(** *** Notions used in the statements about the uploader *)

(** The pauses after the first [k] failed attempts. *)
Definition pauses (k : nat) : list Z :=
  (λ j, Z.min (2 ^ Z.of_nat j) 30) <$> seq 1 k.

(** The object [main] uploads for a dataset. *)
Definition object_of (a : args) (when : date) (ds : string) : s3_object :=
  {| o_bucket := a_bucket a;
     o_key := build_key (rstrip "/" (a_prefix a)) when ds
                (last_component "" (String.append ds ".csv"));
     o_source := {| lp_base := a_base_path a; lp_rel := String.append ds ".csv" |};
     o_sse := "AES256" |}.

(** The entry of [files] for a dataset. *)
Definition file_entry (base_path ds : string) : string * local_path :=
  (ds, {| lp_base := base_path; lp_rel := String.append ds ".csv" |}).

(** A name without a separator. *)
Fixpoint slash_free (s : string) : Prop :=
  match s with
  | EmptyString => True
  | String a s' => a ≠ "/"%char ∧ slash_free s'
  end.

(** The datasets in the order of their first occurrence. *)
Fixpoint first_occurrences (seen datasets : list string) : list string :=
  match datasets with
  | [] => []
  | ds :: datasets' =>
      if decide (ds ∈ seen) then first_occurrences seen datasets'
      else ds :: first_occurrences (ds :: seen) datasets'
  end.

(** A run of the scenario: the first two calls of the client fail. *)
Definition two_failures (n : nat) : option string :=
  if decide (n < 2) then Some "SlowDown" else None.

Definition always_fails (n : nat) : option string := Some "AccessDenied".
Definition never_fails (n : nat) : option string := None.

Definition c0 : cloud :=
  {| c_calls := 0; c_objects := []; c_versioning := ∅; c_slept := [] |}.

Definition customers_path : local_path :=
  {| lp_base := "data/raw"; lp_rel := "customers.csv" |}.


Definition all_exist (path : local_path) : bool := true.

Definition default_args : args :=
  {| a_bucket := "shopflow"; a_prefix := "raw/"; a_base_path := "data/raw";
     a_datasets := ["customers"; "products"; "customers"; "transactions"];
     a_enable_versioning := true |}.

(** Arguments without versioning, each dataset named once. *)
Definition plain_args : args :=
  {| a_bucket := "shopflow"; a_prefix := "raw"; a_base_path := "data/raw";
     a_datasets := ["customers"; "products"; "transactions"];
     a_enable_versioning := false |}.

(** The first call of the client succeeds and every later one fails. *)
Definition fails_after_first (n : nat) : option string :=
  if decide (n = 0) then None else Some "SlowDown".

Definition partition_day : date :=
  {| strftime_Y := "2025"; strftime_m := "01"; strftime_d := "15" |}.

End S3Handler.

(** ** Python strings and regular expressions, as far as the scripts use them *)

Module Py.

(** [str(n)] for an [int]. *)
Definition str_int (n : Z) : string := NilZero.string_of_int (Z.to_int n).

Definition in_range (lo hi a : ascii) : bool :=
  (nat_of_ascii lo <=? nat_of_ascii a) && (nat_of_ascii a <=? nat_of_ascii hi).

Definition is_upper (a : ascii) : bool := in_range "A" "Z" a.
Definition is_lower (a : ascii) : bool := in_range "a" "z" a.
Definition is_digit (a : ascii) : bool := in_range "0" "9" a.

Fixpoint string_map (f : ascii → ascii) (s : string) : string :=
  match s with
  | EmptyString => EmptyString
  | String a s' => String (f a) (string_map f s')
  end.

Fixpoint string_filter (p : ascii → bool) (s : string) : string :=
  match s with
  | EmptyString => EmptyString
  | String a s' => if p a then String a (string_filter p s') else string_filter p s'
  end.

Fixpoint all_chars (p : ascii → bool) (s : string) : bool :=
  match s with
  | EmptyString => true
  | String a s' => p a && all_chars p s'
  end.

(** [s.lower()] for a string of ASCII characters. *)
Definition lower (s : string) : string :=
  string_map (λ a, if is_upper a then ascii_of_nat (nat_of_ascii a + 32) else a) s.

(** [s.replace(a, b)] for single characters. *)
Definition replace (a b : ascii) (s : string) : string :=
  string_map (λ x, if Ascii.eqb x a then b else x) s.

(** [s.lstrip(c)] for a single character [c]. *)
Fixpoint lstrip (c : ascii) (s : string) : string :=
  match s with
  | EmptyString => EmptyString
  | String a s' => if Ascii.eqb a c then lstrip c s' else s
  end.

(** [s.strip(c)]. *)
Definition strip (c : ascii) (s : string) : string := S3Handler.rstrip c (lstrip c s).

(** [re.sub(c{2,}, c, s)] for a single character [c]: of every run of
    [c] only the last one is kept. *)
Fixpoint collapse (c : ascii) (s : string) : string :=
  match s with
  | EmptyString => EmptyString
  | String a s' =>
      match s' with
      | EmptyString => String a EmptyString
      | String b _ =>
          if Ascii.eqb a c && Ascii.eqb b c then collapse c s'
          else String a (collapse c s')
      end
  end.

(** Regular expressions over single characters, matched by
    derivatives. *)
Inductive regex :=
| Never
| Eps
| Class (p : ascii → bool)
| Seq (r1 r2 : regex)
| Alt (r1 r2 : regex)
| Star (r : regex).

(** [r+], [r?] and [r{2,}]. *)
Definition Plus (r : regex) : regex := Seq r (Star r).
Definition Opt (r : regex) : regex := Alt Eps r.
Definition AtLeast2 (r : regex) : regex := Seq r (Seq r (Star r)).

Fixpoint nullable (r : regex) : bool :=
  match r with
  | Never => false
  | Eps => true
  | Class _ => false
  | Seq r1 r2 => nullable r1 && nullable r2
  | Alt r1 r2 => nullable r1 || nullable r2
  | Star _ => true
  end.

Fixpoint deriv (a : ascii) (r : regex) : regex :=
  match r with
  | Never => Never
  | Eps => Never
  | Class p => if p a then Eps else Never
  | Seq r1 r2 =>
      if nullable r1 then Alt (Seq (deriv a r1) r2) (deriv a r2)
      else Seq (deriv a r1) r2
  | Alt r1 r2 => Alt (deriv a r1) (deriv a r2)
  | Star r => Seq (deriv a r) (Star r)
  end.

(** The whole of [s] is in the language of [r]. *)
Fixpoint matches (r : regex) (s : string) : bool :=
  match s with
  | EmptyString => nullable r
  | String a s' => matches (deriv a r) s'
  end.

(** [re.compile("^" r "$").match(s)]: without [re.MULTILINE] the [$]
    holds at the end of the string and just before a newline that ends
    the string. *)
Definition match_anchored (r : regex) (s : string) : bool :=
  matches (Seq r (Opt (Class (Ascii.eqb "010")))) s.

End Py.

(** ** data_validator.py *)

Module Validator.

(** [A-Za-z0-9._%+-], [A-Za-z0-9.-] and [A-Za-z]. *)
Definition local_char (a : ascii) : bool :=
  Py.is_upper a || Py.is_lower a || Py.is_digit a
  || Ascii.eqb a "." || Ascii.eqb a "_" || Ascii.eqb a "%" || Ascii.eqb a "+"
  || Ascii.eqb a "-".

Definition domain_char (a : ascii) : bool :=
  Py.is_upper a || Py.is_lower a || Py.is_digit a || Ascii.eqb a "." || Ascii.eqb a "-".

Definition alpha (a : ascii) : bool := Py.is_upper a || Py.is_lower a.

(** [EMAIL_RE], between its anchors. *)
Definition EMAIL_RE : Py.regex :=
  Py.Seq (Py.Plus (Py.Class local_char))
    (Py.Seq (Py.Class (Ascii.eqb "@"))
      (Py.Seq (Py.Plus (Py.Class domain_char))
        (Py.Seq (Py.Class (Ascii.eqb "."))
          (Py.AtLeast2 (Py.Class alpha))))).

(** [v in ("", None)]. *)
Definition is_null (v : pyval) : bool :=
  match v with
  | PNone => true
  | PStr s => bool_decide (s = "")
  | PTime _ => false
  end.

Definition check_nulls (row : gmap string pyval) (rownum : Z) (required_cols : list string)
    (file_label : string) : list string :=
  foldl (λ errors c,
           if is_null (default (PStr "") (row !! c))
           then errors ++ [file_label +:+ ": row " +:+ Py.str_int rownum
                             +:+ " null in '" +:+ c +:+ "'"]
           else errors)
        [] required_cols.

(** [validate_email]: the address is a [str] or [None]. *)
Definition validate_email (email : option string) (rownum : Z) : list string :=
  if negb (Py.match_anchored EMAIL_RE (default "" email))
  then ["customers.csv: row " +:+ Py.str_int rownum +:+ " invalid email '"
          +:+ default "None" email +:+ "'"]
  else [].

(** The three calls of [check_nulls] in [main]: the file label and the
    required columns of each file. *)
Definition REQUIRED : list (string * list string) :=
  [ ("customers.csv", ["id"; "name"; "email"; "registration_date"; "country"]);
    ("products.csv", ["id"; "name"; "category"; "price"; "supplier"]);
    ("transactions.csv",
      ["id"; "customer_id"; "product_id"; "quantity"; "timestamp"; "payment_method"]) ].

End Validator.

(** ** data_generator.py *)

Module Generator.

(** The domains [random_email] chooses from. *)
Definition DOMAINS : list string :=
  ["gmail.com"; "outlook.com"; "yahoo.com"; "example.com"; "proton.me"].

(** [a-z0-9.] *)
Definition slug_char (a : ascii) : bool :=
  Py.is_lower a || Py.is_digit a || Ascii.eqb a ".".

Section Slug.
(** [unicodedata.normalize("NFKD", s).encode("ascii", "ignore").decode("ascii")]:
    the tables of Unicode are not part of the program. *)
Variable nfkd_ascii : string → string.

Definition slug_ascii (s : string) : string :=
  let s := nfkd_ascii s in
  let s := Py.replace " " "." (Py.lower s) in
  let s := Py.string_filter slug_char s in
  Py.strip "." (Py.collapse "." s).

(** [random_email], with the index [random.choice] draws. *)
Definition random_email (pick : nat) (name : string) (idx : Z) : string :=
  let base := slug_ascii name in
  let domain := default "" (DOMAINS !! pick) in
  base +:+ "." +:+ Py.str_int idx +:+ "@" +:+ domain.
End Slug.

(** No two [c] in a row. *)
Fixpoint no_double (c : ascii) (s : string) : bool :=
  match s with
  | EmptyString => true
  | String a s' =>
      match s' with
      | EmptyString => true
      | String b _ => negb (Ascii.eqb a c && Ascii.eqb b c) && no_double c s'
      end
  end.

(** A normalisation for the examples: accented letters are not used. *)
Definition ascii_only (s : string) : string := s.

End Generator.

(** Closing a decidable goal about the scenario by evaluation. *)
Ltac scenario_decide := apply (bool_decide_unpack _); vm_compute; reflexivity.

(** Closing a goal about every column of a scenario descriptor. *)
Ltac scenario_cols :=
  let c := fresh "c" in let Hc := fresh "Hc" in
  intros c Hc;
  repeat (apply elem_of_cons in Hc as [->|Hc]; [vm_compute; by eexists|]);
  by apply elem_of_nil in Hc.

(** ** Facts about the storage engine *)

Section StorageFacts.
Import Storage.

Lemma set_cols_lookup updates excluded r c :
    set_cols updates excluded r !! c =
      if decide (c ∈ updates) then Some (default PNone (excluded !! c)) else r !! c.
Proof.
    unfold set_cols. revert r.
    induction updates as [|u us IH]; intros r; simpl.
    - try (case_decide as H; [by apply elem_of_nil in H|]); done.
    - rewrite IH.
      destruct (decide (c ∈ us)) as [Hin|Hnin], (decide (c ∈ u :: us)) as [Hin'|Hnin'];
        try done.
      + exfalso. apply Hnin'. by right.
      + apply elem_of_cons in Hin' as [->|?]; [|done]. by rewrite lookup_insert_eq.
      + rewrite lookup_insert_ne; [done|]. intros ->. apply Hnin'. by left.
Qed.

Lemma set_cols_key pk updates excluded r :
    is_Some (excluded !! pk) → r !! pk = excluded !! pk →
    set_cols updates excluded r !! pk = excluded !! pk.
Proof.
    intros [v Hv] Hr. rewrite set_cols_lookup. case_decide; [|done].
    by rewrite Hv.
Qed.

Lemma keys_on_conflict_update pk updates excluded rows :
    is_Some (excluded !! pk) →
    keys pk (on_conflict_update pk updates excluded rows) =
      if decide (excluded !! pk ∈ keys pk rows) then keys pk rows
      else keys pk rows ++ [excluded !! pk].
Proof.
    intros Hk. induction rows as [|r rs IH]; simpl.
    - try (case_decide as H; [by apply elem_of_nil in H|]); done.
    - destruct (decide (r !! pk = excluded !! pk)) as [Heq|Hne]; simpl.
      + rewrite set_cols_key by done.
        rewrite decide_True; [by rewrite Heq|]. rewrite Heq. by left.
      + fold (keys pk (on_conflict_update pk updates excluded rs)). rewrite IH.
        fold (keys pk rs).
        destruct (decide (excluded !! pk ∈ keys pk rs)) as [Hin|Hnin].
        * rewrite decide_True; [done|]. by right.
        * rewrite decide_False; [done|].
          intros [?|?]%elem_of_cons; [congruence|done].
Qed.

Lemma row_for_on_conflict_update pk updates excluded rows :
    is_Some (excluded !! pk) →
    row_for pk (excluded !! pk) (on_conflict_update pk updates excluded rows) =
      Some (merge_row updates excluded (row_for pk (excluded !! pk) rows)).
Proof.
    intros Hk. induction rows as [|r rs IH]; simpl.
    - by rewrite decide_True.
    - destruct (decide (r !! pk = excluded !! pk)) as [Heq|Hne]; simpl.
      + by rewrite decide_True by (by apply set_cols_key).
      + by rewrite decide_False.
Qed.

Lemma row_for_on_conflict_update_ne pk updates excluded rows k :
    is_Some (excluded !! pk) → k ≠ excluded !! pk →
    row_for pk k (on_conflict_update pk updates excluded rows) = row_for pk k rows.
Proof.
    intros Hk Hne. induction rows as [|r rs IH]; simpl.
    - by rewrite decide_False.
    - destruct (decide (r !! pk = excluded !! pk)) as [Heq|Hne']; simpl.
      + rewrite set_cols_key by done.
        rewrite !decide_False; [done|congruence..].
      + rewrite IH. done.
Qed.

Lemma row_for_None pk k rows : row_for pk k rows = None ↔ k ∉ keys pk rows.
Proof.
    induction rows as [|r rs IH]; simpl.
    - split; [intros _; apply not_elem_of_nil | done].
    - case_decide as H.
      + split; [done|]. intros Hn. exfalso. apply Hn. rewrite H. by left.
      + rewrite IH. fold (keys pk rs). split.
        * intros Hn [?|?]%elem_of_cons; [congruence|done].
        * intros Hn Hin. apply Hn. by right.
Qed.

Lemma row_for_Some pk k rows r :
    row_for pk k rows = Some r → r ∈ rows ∧ r !! pk = k.
Proof.
    induction rows as [|r' rs IH]; simpl; [done|].
    case_decide as H.
    - intros [= ->]. split; [by left|done].
    - intros [??]%IH. split; [by right|done].
Qed.

Lemma on_conflict_update_fresh pk updates excluded rows :
    excluded !! pk ∉ keys pk rows →
    on_conflict_update pk updates excluded rows = rows ++ [excluded].
Proof.
    induction rows as [|r rs IH]; simpl; [done|]. fold (keys pk rs).
    intros Hn. rewrite decide_False.
    - rewrite IH; [done|]. intros ?. apply Hn. by right.
    - intros Heq. apply Hn. rewrite <- Heq. by left.
Qed.

Lemma length_on_conflict_update pk updates excluded rows :
    excluded !! pk ∈ keys pk rows →
    length (on_conflict_update pk updates excluded rows) = length rows.
Proof.
    induction rows as [|r rs IH]; simpl.
    - by intros ?%elem_of_nil.
    - fold (keys pk rs). case_decide as H; simpl; [done|].
      intros [?|?]%elem_of_cons; [congruence|]. by rewrite IH.
Qed.

Lemma NoDup_on_conflict_update pk updates excluded rows :
    is_Some (excluded !! pk) →
    NoDup (keys pk rows) → NoDup (keys pk (on_conflict_update pk updates excluded rows)).
Proof.
    intros Hk Hnd. rewrite keys_on_conflict_update by done.
    case_decide as H; [done|].
    apply NoDup_app. split_and!; [done| |apply NoDup_singleton].
    intros x Hx ->%list_elem_of_singleton. done.
Qed.

  (** A table with distinct keys is determined by the order of its keys
      and the row found for each key. *)
Lemma table_ext pk rows1 rows2 :
    NoDup (keys pk rows1) →
    keys pk rows1 = keys pk rows2 →
    (∀ k, row_for pk k rows1 = row_for pk k rows2) →
    rows1 = rows2.
Proof.
    revert rows2. induction rows1 as [|r1 rs1 IH]; intros [|r2 rs2]; simpl; try done.
    intros Hnd [= Hk Hks] Hrow. apply NoDup_cons in Hnd as [Hnin Hnd].
    pose proof (Hrow (r1 !! pk)) as H1. rewrite decide_True in H1 by done.
    rewrite decide_True in H1 by done. injection H1 as ->.
    f_equal. apply IH; [done..|].
    intros k. specialize (Hrow k).
    destruct (decide (r2 !! pk = k)) as [<-|Hne]; [|done].
    transitivity (@None (gmap string pyval)).
    - by apply row_for_None.
    - symmetry. apply row_for_None. fold (keys pk rs1) in Hks. by rewrite <- Hks.
Qed.

Variable coerce : string → string → pyval → option pyval.

Lemma exec_upsert_inr sql params db db' :
  exec_upsert coerce sql params db = inr db' →
  ∃ rows ex,
    db_tables db !! u_table sql = Some rows
    ∧ proposed_row coerce sql params = inr ex
    ∧ db' = {| db_tables :=
                 <[u_table sql := on_conflict_update (u_conflict sql) (u_updates sql) ex rows]>
                   (db_tables db);
               db_audit := db_audit db |}.
Proof.
  unfold exec_upsert. case_bool_decide; simpl; [|done].
  destruct (db_tables db !! u_table sql) as [rows|]; [|done].
  destruct (proposed_row coerce sql params) as [e|ex]; [done|].
  intros [= <-]. by exists rows, ex.
Qed.

Lemma exec_upsert_total sql params db rows ex :
  length (u_col_list sql) = u_placeholders sql →
  length params = u_placeholders sql →
  db_tables db !! u_table sql = Some rows →
  proposed_row coerce sql params = inr ex →
  exec_upsert coerce sql params db =
    inr {| db_tables :=
             <[u_table sql := on_conflict_update (u_conflict sql) (u_updates sql) ex rows]>
               (db_tables db);
           db_audit := db_audit db |}.
Proof.
  intros H1 H2 Ht Hp. unfold exec_upsert.
  rewrite bool_decide_true by done. simpl. by rewrite Ht, Hp.
Qed.

Lemma proposed_row_key sql params ex :
  proposed_row coerce sql params = inr ex →
  ∃ k, ex !! u_conflict sql = Some k ∧ k ≠ PNone.
Proof.
  unfold proposed_row.
  destruct (coerce_all _ _ _ _) as [e|vs]; [done|]. simpl.
  destruct (py_dict _ !! u_conflict sql) as [[]|] eqn:Hk; try done;
    intros [= <-]; eexists; split; done.
Qed.

(** A run of statements that all succeed upserts their proposed rows in
    order into the one table of the statement. *)
Lemma exec_seq_None sql batch : ∀ db db' rows,
  db_tables db !! u_table sql = Some rows →
  exec_seq coerce sql batch db = (None, db') →
  ∃ exs,
    Forall2 (λ p ex, proposed_row coerce sql p = inr ex) batch exs
    ∧ db_tables db' = <[u_table sql := apply_rows sql exs rows]> (db_tables db)
    ∧ db_audit db' = db_audit db.
Proof.
  induction batch as [|p batch IH]; intros db db' rows Ht; simpl.
  - intros [= <-]. exists []. split_and!; [constructor| |done].
    simpl. by rewrite insert_id.
  - destruct (exec_upsert coerce sql p db) as [e|db1] eqn:He; [done|].
    apply exec_upsert_inr in He as (rows0 & ex & Ht0 & Hp & ->).
    rewrite Ht in Ht0. injection Ht0 as <-.
    intros Hs. eapply IH in Hs as (exs & Hall & Htab & Haud).
    2:{ simpl. apply lookup_insert_eq. }
    exists (ex :: exs). split_and!; [by constructor| |done].
    rewrite Htab. simpl. by rewrite insert_insert_eq.
Qed.

Lemma exec_seq_total sql batch : ∀ db rows exs,
  length (u_col_list sql) = u_placeholders sql →
  Forall (λ p, length p = u_placeholders sql) batch →
  db_tables db !! u_table sql = Some rows →
  Forall2 (λ p ex, proposed_row coerce sql p = inr ex) batch exs →
  (exec_seq coerce sql batch db).1 = None.
Proof.
  induction batch as [|p batch IH]; intros db rows exs Hl Hlen Ht Hall; simpl; [done|].
  apply Forall_cons in Hlen as [Hp Hlen].
  apply Forall2_cons_inv_l in Hall as (ex & exs' & Hex & Hall & ->).
  erewrite exec_upsert_total by done.
  eapply IH; [done|done| |done]. simpl. apply lookup_insert_eq.
Qed.

Lemma exec_seq_audit sql batch : ∀ db,
  db_audit (exec_seq coerce sql batch db).2 = db_audit db.
Proof.
  induction batch as [|p batch IH]; intros db; simpl; [done|].
  destruct (exec_upsert coerce sql p db) as [e|db1] eqn:He; [done|].
  rewrite IH. by apply exec_upsert_inr in He as (rows & ex & _ & _ & ->).
Qed.

Lemma exec_seq_None_proposed sql batch : ∀ db,
  (exec_seq coerce sql batch db).1 = None →
  Forall (λ p, ∃ ex, proposed_row coerce sql p = inr ex) batch.
Proof.
  induction batch as [|p batch IH]; intros db; simpl; [constructor|].
  destruct (exec_upsert coerce sql p db) as [e|db1] eqn:He; [done|].
  intros Hs. constructor; [|by eapply IH].
  apply exec_upsert_inr in He as (rows & ex & _ & Hp & _). by exists ex.
Qed.

Lemma keys_apply_rows_NoDup sql exs : ∀ rows,
  Forall (λ ex : gmap string pyval, is_Some (ex !! u_conflict sql)) exs →
  NoDup (keys (u_conflict sql) rows) →
  NoDup (keys (u_conflict sql) (apply_rows sql exs rows)).
Proof.
  unfold apply_rows.
  induction exs as [|ex exs IH]; intros rows Hk Hnd; simpl; [done|].
  apply Forall_cons in Hk as [Hex Hk].
  apply IH; [done|]. by apply NoDup_on_conflict_update.
Qed.

Lemma row_for_apply_rows_ne sql exs k : ∀ rows,
  Forall (λ ex : gmap string pyval, is_Some (ex !! u_conflict sql)) exs →
  Forall (λ ex : gmap string pyval, ex !! u_conflict sql ≠ k) exs →
  row_for (u_conflict sql) k (apply_rows sql exs rows) = row_for (u_conflict sql) k rows.
Proof.
  unfold apply_rows.
  induction exs as [|ex exs IH]; intros rows Hk Hne; simpl; [done|].
  apply Forall_cons in Hk as [Hex Hk]. apply Forall_cons in Hne as [Hex' Hne].
  rewrite IH by done. by apply row_for_on_conflict_update_ne.
Qed.

(** The row found for a key after a run of upserts is the merge of the
    last proposed row with that key. *)
Lemma row_for_apply_rows_last sql pre ex post rows :
  Forall (λ ex : gmap string pyval, is_Some (ex !! u_conflict sql)) (pre ++ ex :: post) →
  Forall (λ ex' : gmap string pyval, ex' !! u_conflict sql ≠ ex !! u_conflict sql) post →
  row_for (u_conflict sql) (ex !! u_conflict sql) (apply_rows sql (pre ++ ex :: post) rows) =
    Some (merge_row (u_updates sql) ex
            (row_for (u_conflict sql) (ex !! u_conflict sql) (apply_rows sql pre rows))).
Proof.
  intros Hk Hpost. apply Forall_app in Hk as [Hpre Hk].
  apply Forall_cons in Hk as [Hex Hk].
  unfold apply_rows. rewrite foldl_app. simpl.
  fold (apply_rows sql pre rows).
  fold (apply_rows sql post (on_conflict_update (u_conflict sql) (u_updates sql) ex
                               (apply_rows sql pre rows))).
  rewrite row_for_apply_rows_ne by done.
  by apply row_for_on_conflict_update.
Qed.

Lemma keys_apply_rows sql exs : ∀ rows,
  Forall (λ ex : gmap string pyval, is_Some (ex !! u_conflict sql)) exs →
  keys (u_conflict sql) (apply_rows sql exs rows) =
    foldl add_key (keys (u_conflict sql) rows)
          ((λ ex : gmap string pyval, ex !! u_conflict sql) <$> exs).
Proof.
  unfold apply_rows.
  induction exs as [|ex exs IH]; intros rows Hk; simpl; [done|].
  apply Forall_cons in Hk as [Hex Hk]. rewrite IH by done.
  by rewrite keys_on_conflict_update.
Qed.

Lemma elem_of_foldl_add_key ks : ∀ K k,
  k ∈ foldl add_key K ks ↔ k ∈ K ∨ k ∈ ks.
Proof.
  induction ks as [|k0 ks IH]; intros K k; simpl.
  - split; [by left|]. intros [?|?%elem_of_nil]; done.
  - rewrite IH. unfold add_key. rewrite elem_of_cons. case_decide as Hin.
    + split; [intros [?|?]; auto|]. intros [?|[->|?]]; auto.
    + rewrite elem_of_app, list_elem_of_singleton. tauto.
Qed.

Lemma foldl_add_key_absorb ks : ∀ K,
  (∀ k, k ∈ ks → k ∈ K) → foldl add_key K ks = K.
Proof.
  induction ks as [|k0 ks IH]; intros K Hin; simpl; [done|].
  unfold add_key at 2. rewrite decide_True by (apply Hin; by left).
  apply IH. intros k Hk. apply Hin. by right.
Qed.

Lemma row_for_apply_rows sql exs k : ∀ rows,
  Forall (λ ex : gmap string pyval, is_Some (ex !! u_conflict sql)) exs →
  row_for (u_conflict sql) k (apply_rows sql exs rows) =
    foldl (step_row sql k) (row_for (u_conflict sql) k rows) exs.
Proof.
  unfold apply_rows.
  induction exs as [|ex exs IH]; intros rows Hk; simpl; [done|].
  apply Forall_cons in Hk as [Hex Hk]. rewrite IH by done. f_equal.
  unfold step_row. case_decide as Heq.
  - subst k. by apply row_for_on_conflict_update.
  - by apply row_for_on_conflict_update_ne.
Qed.

Lemma same_after_update_refl sql k o : same_after_update sql k o o.
Proof. by destruct o. Qed.

Lemma same_after_update_step sql k o' o ex :
  shaped sql ex → same_after_update sql k o' o →
  same_after_update sql k (step_row sql k o' ex) o.
Proof.
  intros (Hkey & Hupd & Hnone) Hs. unfold step_row. case_decide as Heq; [|done].
  destruct o as [r|], o' as [r'|]; simpl in *; try done.
  - intros c Hc. rewrite set_cols_lookup, decide_False by done. by apply Hs.
  - destruct Hs as [Hk Hs]. split.
    + rewrite set_cols_key; [done|done|congruence].
    + intros c Hc Hne. rewrite set_cols_lookup, decide_False by done. by apply Hs.
Qed.

Lemma same_after_update_merge sql k o' o ex :
  shaped sql ex → ex !! u_conflict sql = k → same_after_update sql k o' o →
  merge_row (u_updates sql) ex o' = merge_row (u_updates sql) ex o.
Proof.
  intros (Hkey & Hupd & Hnone) Hk Hs.
  destruct o as [r|], o' as [r'|]; simpl in *; try done.
  - apply map_eq. intros c. rewrite !set_cols_lookup. case_decide; [done|]. by apply Hs.
  - destruct Hs as [Hk' Hs]. apply map_eq. intros c. rewrite set_cols_lookup.
    case_decide as Hc.
    + by destruct (Hupd c Hc) as [v ->].
    + destruct (decide (c = u_conflict sql)) as [->|Hne]; [congruence|].
      by rewrite Hs, Hnone.
Qed.

Lemma foldl_step_row_no_key sql k exs : ∀ o,
  k ∉ (λ ex : gmap string pyval, ex !! u_conflict sql) <$> exs →
  foldl (step_row sql k) o exs = o.
Proof.
  induction exs as [|ex exs IH]; intros o Hn; simpl; [done|].
  rewrite fmap_cons, not_elem_of_cons in Hn. destruct Hn as [Hne Hn].
  unfold step_row at 2. rewrite decide_False by done. by apply IH.
Qed.

Lemma foldl_step_row_same sql k exs : ∀ o' o,
  Forall (shaped sql) exs →
  same_after_update sql k o' o →
  o' = o ∨ k ∈ (λ ex : gmap string pyval, ex !! u_conflict sql) <$> exs →
  foldl (step_row sql k) o' exs = foldl (step_row sql k) o exs.
Proof.
  induction exs as [|ex exs IH]; intros o' o Hsh Hs Hor; simpl.
  - destruct Hor as [?|?%elem_of_nil]; done.
  - apply Forall_cons in Hsh as [Hex Hsh].
    unfold step_row at 2 4. case_decide as Heq.
    + by rewrite (same_after_update_merge sql k o' o ex).
    + apply IH; [done|done|]. destruct Hor as [?|Hin]; [by left|right].
      rewrite fmap_cons in Hin. by apply elem_of_cons in Hin as [?|?].
Qed.

(** Upserting again, in the same order, rows of the same keys and shape
    leaves the table as if only the second run had been made. *)
Lemma apply_rows_absorb sql exs1 exs2 rows :
  Forall (shaped sql) exs1 → Forall (shaped sql) exs2 →
  (λ ex : gmap string pyval, ex !! u_conflict sql) <$> exs1
    = (λ ex : gmap string pyval, ex !! u_conflict sql) <$> exs2 →
  NoDup (keys (u_conflict sql) rows) →
  apply_rows sql exs2 (apply_rows sql exs1 rows) = apply_rows sql exs2 rows.
Proof.
  intros Hsh1 Hsh2 Hkeys Hnd.
  assert (Hk1 : Forall (λ ex : gmap string pyval, is_Some (ex !! u_conflict sql)) exs1).
  { eapply Forall_impl; [exact Hsh1|]. by intros ? [? _]. }
  assert (Hk2 : Forall (λ ex : gmap string pyval, is_Some (ex !! u_conflict sql)) exs2).
  { eapply Forall_impl; [exact Hsh2|]. by intros ? [? _]. }
  apply (table_ext (u_conflict sql)).
  - apply keys_apply_rows_NoDup; [done|]. by apply keys_apply_rows_NoDup.
  - rewrite !keys_apply_rows by done. rewrite <- Hkeys.
    apply foldl_add_key_absorb. intros k Hk. apply elem_of_foldl_add_key. by right.
  - intros k. rewrite !row_for_apply_rows by done.
    apply foldl_step_row_same; [done| |].
    + generalize (row_for (u_conflict sql) k rows). clear Hkeys Hk1.
      induction exs1 as [|ex exs1 IH] using rev_ind; intros o; simpl.
      * apply same_after_update_refl.
      * apply Forall_app in Hsh1 as [Hsh1 Hex]. apply Forall_cons in Hex as [Hex _].
        rewrite foldl_app. simpl. apply same_after_update_step; [done|]. by apply IH.
    + rewrite <- Hkeys.
      destruct (decide (k ∈ (λ ex : gmap string pyval, ex !! u_conflict sql) <$> exs1));
        [by right|left]. by apply foldl_step_row_no_key.
Qed.

(** Two runs of upserts that differ only in one column leave tables that
    differ only in that column. *)
Lemma on_conflict_update_modulo pk updates ts a b : ∀ rows1 rows2,
  ts ≠ pk → delete ts a = delete ts b →
  delete ts <$> rows1 = delete ts <$> rows2 →
  delete ts <$> on_conflict_update pk updates a rows1
    = delete ts <$> on_conflict_update pk updates b rows2.
Proof.
  intros rows1 rows2 Hne Hab.
  assert (Hlook : ∀ (x y : gmap string pyval) c,
            delete ts x = delete ts y → c ≠ ts → x !! c = y !! c).
  { intros x y c Hxy Hc. rewrite <- (lookup_delete_ne x ts c) by done.
    rewrite Hxy. by apply lookup_delete_ne. }
  revert rows2. induction rows1 as [|r1 rows1 IH]; intros [|r2 rows2]; simpl; try done.
  - intros _. by rewrite Hab.
  - intros [= Hr Hrows].
    rewrite (Hlook r1 r2 pk Hr) by done. rewrite (Hlook a b pk Hab) by done.
    case_decide; simpl.
    + f_equal; [|done]. apply map_eq. intros c.
      destruct (decide (c = ts)) as [->|Hc]; [by rewrite !lookup_delete_eq|].
      rewrite !lookup_delete_ne by done. rewrite !set_cols_lookup.
      rewrite (Hlook a b c Hab) by done. rewrite (Hlook r1 r2 c Hr) by done. done.
    + f_equal; [done|]. by apply IH.
Qed.

Lemma apply_rows_modulo sql ts exs1 : ∀ exs2 rows1 rows2,
  ts ≠ u_conflict sql →
  Forall2 (λ a b : gmap string pyval, delete ts a = delete ts b) exs1 exs2 →
  delete ts <$> rows1 = delete ts <$> rows2 →
  delete ts <$> apply_rows sql exs1 rows1 = delete ts <$> apply_rows sql exs2 rows2.
Proof.
  unfold apply_rows.
  induction exs1 as [|a exs1 IH]; intros exs2 rows1 rows2 Hne Hall Hrows.
  - apply Forall2_nil_inv_l in Hall as ->. done.
  - apply Forall2_cons_inv_l in Hall as (b & exs2' & Hab & Hall & ->). simpl.
    apply IH; [done|done|]. by apply on_conflict_update_modulo.
Qed.
End StorageFacts.

(** ** Facts about dictionaries and [csv.DictReader] *)

Section DictFacts.
Lemma foldl_insert_lookup (kvs : list (string * pyval)) (d : gmap string pyval) c :
    c ∉ kvs.*1 → foldl (λ d kv, <[kv.1 := kv.2]> d) d kvs !! c = d !! c.
Proof.
    revert d. induction kvs as [|[k v] kvs IH]; intros d Hc; simpl; [done|].
    rewrite IH.
    - rewrite lookup_insert_ne; [done|]. intros ->. apply Hc. by left.
    - intros ?. apply Hc. by right.
Qed.

Lemma foldl_insert_is_Some (kvs : list (string * pyval)) (d : gmap string pyval) c :
    is_Some (foldl (λ d kv, <[kv.1 := kv.2]> d) d kvs !! c) ↔ c ∈ kvs.*1 ∨ is_Some (d !! c).
Proof.
    revert d. induction kvs as [|[k v] kvs IH]; intros d; simpl.
    - split; [by right|]. intros [?%elem_of_nil|?]; done.
    - rewrite IH. rewrite lookup_insert. case_decide as Hk; simpl.
      + subst. split; [intros _; left; by left|]. intros _. by right.
      + rewrite elem_of_cons. split.
        * intros [?|?]; [left; by right|by right].
        * intros [[?|?]|?]; [done|by left|by right].
Qed.

Lemma py_dict_list_to_map (kvs : list (string * pyval)) :
    NoDup kvs.*1 → py_dict kvs = list_to_map kvs.
Proof.
    unfold py_dict. intros Hnd.
    enough (∀ d : gmap string pyval,
      foldl (λ d kv, <[kv.1 := kv.2]> d) d kvs = list_to_map kvs ∪ d) as H.
    { rewrite H. apply (right_id_L ∅ (∪)). }
    induction kvs as [|[k v] kvs IH]; intros d; simpl.
    - by rewrite (left_id_L ∅ (∪)).
    - apply NoDup_cons in Hnd as [Hk Hnd]. rewrite IH by done.
      rewrite <- insert_union_l. rewrite insert_union_r; [done|].
      by apply not_elem_of_list_to_map.
Qed.

Lemma fst_zip_take {A B} (l : list A) (k : list B) :
    (zip l k).*1 = take (length k) l.
Proof.
    revert k. induction l as [|x l IH]; intros [|y k]; simpl; try done.
    by rewrite IH.
Qed.

Lemma foldl_insert_none_lookup (ks : list string) (d : gmap string pyval) c :
    foldl (λ d key, <[key := PNone]> d) d ks !! c =
      if decide (c ∈ ks) then Some PNone else d !! c.
Proof.
    revert d. induction ks as [|k ks IH]; intros d; simpl.
    - try (case_decide as H; [by apply elem_of_nil in H|]); done.
    - rewrite IH.
      destruct (decide (c ∈ ks)) as [Hin|Hnin], (decide (c ∈ k :: ks)) as [Hin'|Hnin'];
        try done.
      + exfalso. apply Hnin'. by right.
      + apply elem_of_cons in Hin' as [->|?]; [|done]. by rewrite lookup_insert_eq.
      + rewrite lookup_insert_ne; [done|]. intros ->. apply Hnin'. by left.
Qed.

  (** A record has exactly the header's columns as keys. *)
Lemma dict_row_is_Some fieldnames line c :
    is_Some (dict_row fieldnames line !! c) ↔ c ∈ fieldnames.
Proof.
    unfold dict_row, py_dict. rewrite foldl_insert_none_lookup.
    rewrite <- (take_drop (length line) fieldnames) at 3. rewrite elem_of_app.
    case_decide as H.
    - split; [by right | by eexists].
    - rewrite foldl_insert_is_Some, fst_zip_take, length_fmap, lookup_empty.
      split; [intros [?|[? [=]]]; by left|]. intros [?|?]; [by left|done].
Qed.

  (** A header column beyond the end of a short line reads as [None]. *)
Lemma dict_row_short fieldnames line c :
    c ∈ fieldnames → c ∉ take (length line) fieldnames →
    dict_row fieldnames line !! c = Some PNone.
Proof.
    intros Hin Hnot. unfold dict_row. rewrite foldl_insert_none_lookup.
    rewrite decide_True; [done|].
    rewrite <- (take_drop (length line) fieldnames) in Hin.
    apply elem_of_app in Hin as [?|?]; done.
Qed.

Lemma DictReader_header fieldnames lines row :
    row ∈ DictReader (fieldnames :: lines) →
    ∀ c, is_Some (row !! c) ↔ c ∈ fieldnames.
Proof.
    simpl. intros (l & -> & _)%list_elem_of_fmap c. apply dict_row_is_Some.
Qed.

Lemma getitems_Ok row cols :
    (∀ c, c ∈ cols → is_Some (row !! c)) →
    getitems row cols = Ok ((λ c, default PNone (row !! c)) <$> cols).
Proof.
    induction cols as [|c cols IH]; intros H; simpl; [done|].
    destruct (H c) as [v Hv]; [by left|]. rewrite Hv, IH; [done|].
    intros c' ?. apply H. by right.
Qed.

Lemma getitems_Ok_inv row cols vals :
    getitems row cols = Ok vals →
    vals = (λ c, default PNone (row !! c)) <$> cols ∧ ∀ c, c ∈ cols → is_Some (row !! c).
Proof.
    revert vals. induction cols as [|c cols IH]; intros vals; simpl.
    - intros [= <-]. split; [done|]. by intros c ?%elem_of_nil.
    - destruct (row !! c) as [v|] eqn:Hv; [|done].
      destruct (getitems row cols) as [vs|] eqn:Hg; [|done].
      intros [= <-]. destruct (IH vs eq_refl) as [-> Hall]. split; [done|].
      intros c' [->|?]%elem_of_cons; [by eexists|by apply Hall].
Qed.

Lemma getitems_Raised row cols e :
    getitems row cols = Raised e → ∃ c, e = KeyError c ∧ c ∈ cols ∧ row !! c = None.
Proof.
    induction cols as [|c cols IH]; simpl; [done|].
    destruct (row !! c) as [v|] eqn:Hv.
    - destruct (getitems row cols) as [vs|e'] eqn:Hg; [done|].
      intros [= <-]. destruct (IH eq_refl) as (c' & -> & ? & ?).
      exists c'. split_and!; [done|by right|done].
    - intros [= <-]. exists c. split_and!; [done|by left|done].
Qed.
End DictFacts.

(** ** The row proposed for a record *)

Section ProposedFacts.
Variable coerce : string → string → pyval → option pyval.

Lemma coerce_all_inr_lookup (f : string → pyval → option pyval) t cols : ∀ ps vs,
  NoDup cols → length cols = length ps →
  Storage.coerce_all f t cols ps = inr vs →
  length vs = length cols
  ∧ ∀ i c p, cols !! i = Some c → ps !! i = Some p →
      (list_to_map (zip cols vs) : gmap string pyval) !! c = f c p ∧ is_Some (f c p).
Proof.
  induction cols as [|c0 cols IH]; intros [|p0 ps] vs Hnd Hlen; simpl; try done.
  - intros [= <-]. split; [done|]. intros i c p Hc. by rewrite lookup_nil in Hc.
  - destruct (f c0 p0) as [v0|] eqn:Hf; [|done].
    destruct (Storage.coerce_all f t cols ps) as [e|vs'] eqn:Hca; [done|].
    intros [= <-]. apply NoDup_cons in Hnd as [Hc0 Hnd].
    destruct (IH ps vs' Hnd ltac:(simpl in Hlen; lia) Hca) as [Hl Hlook].
    split; [simpl; by rewrite Hl|].
    intros [|i] c p; simpl.
    + intros [= <-] [= <-]. rewrite lookup_insert_eq. by rewrite Hf.
    + intros Hc Hp. rewrite lookup_insert_ne.
      * by apply (Hlook i).
      * intros <-. apply Hc0. by eapply list_elem_of_lookup_2.
Qed.

Lemma coerce_all_total (f : string → pyval → option pyval) t cols : ∀ ps,
  length cols = length ps →
  (∀ i c p, cols !! i = Some c → ps !! i = Some p → is_Some (f c p)) →
  ∃ vs, Storage.coerce_all f t cols ps = inr vs.
Proof.
  induction cols as [|c0 cols IH]; intros [|p0 ps] Hlen Hall; simpl; try done.
  - by exists [].
  - destruct (Hall 0 c0 p0 eq_refl eq_refl) as [v0 ->].
    destruct (IH ps) as [vs ->]; [simpl in Hlen; lia| |by eexists].
    intros i c p. apply (Hall (S i)).
Qed.

Lemma wf_descriptor_NoDup cols pk :
  wf_descriptor cols pk → NoDup (cols ++ ["_ingested_at"]).
Proof.
  intros (_ & Hnd & Hts). apply NoDup_app. split_and!; [done| |apply NoDup_singleton].
  intros c Hc ->%list_elem_of_singleton. done.
Qed.

Lemma values_lookup row cols i c :
  cols !! i = Some c → values row cols !! i = Some (default PNone (row !! c)).
Proof. intros H. unfold values. by rewrite list_lookup_fmap, H. Qed.

Lemma length_values row cols : length (values row cols) = length cols.
Proof. unfold values. by rewrite length_fmap. Qed.

(** What the proposed row of a record holds: every declared column
    coerced to its storage type, and the coerced ingestion timestamp. *)
Lemma proposed_row_upsert_sql table cols pk row t ex :
  wf_descriptor cols pk →
  Storage.proposed_row coerce (upsert_sql table cols pk) (values row cols ++ [PTime t]) = inr ex →
  (∀ c, c ∈ cols → ex !! c = coerce table c (default PNone (row !! c)) ∧ is_Some (ex !! c))
  ∧ ex !! "_ingested_at" = coerce table "_ingested_at" (PTime t)
  ∧ (∀ c, c ∉ cols → c ≠ "_ingested_at" → ex !! c = None).
Proof.
  intros Hwf. pose proof (wf_descriptor_NoDup _ _ Hwf) as Hnd.
  unfold Storage.proposed_row. simpl.
  destruct (Storage.coerce_all _ _ _ _) as [e|vs] eqn:Hca; [done|].
  apply coerce_all_inr_lookup in Hca as [Hl Hlook]; [|done|].
  2:{ rewrite !length_app, length_values. done. }
  assert ((zip (cols ++ ["_ingested_at"]) vs).*1 = cols ++ ["_ingested_at"]) as Hfst.
  { rewrite fst_zip_take, Hl. apply firstn_all. }
  rewrite py_dict_list_to_map by (by rewrite Hfst).
  destruct (list_to_map _ !! pk) as [[]|]; try done; intros [= <-].
  all: split_and!.
  all: try (intros c [i Hi]%list_elem_of_lookup;
            destruct (Hlook i c (default PNone (row !! c))) as [-> ?];
            [by apply lookup_app_l_Some
            |apply lookup_app_l_Some; by apply values_lookup
            |done]).
  all: try (destruct (Hlook (length cols) "_ingested_at" (PTime t)) as [-> ?];
            [by apply list_lookup_middle
            |apply list_lookup_middle; by rewrite length_values
            |done]).
  all: intros c Hc Hts; apply not_elem_of_list_to_map; rewrite Hfst;
       intros [?|?%list_elem_of_singleton]%elem_of_app; done.
Qed.

Lemma proposed_row_upsert_sql_total table cols pk row t :
  wf_descriptor cols pk →
  (∀ c, c ∈ cols → is_Some (coerce table c (default PNone (row !! c)))) →
  is_Some (coerce table "_ingested_at" (PTime t)) →
  coerce table pk (default PNone (row !! pk)) ≠ Some PNone →
  ∃ ex, Storage.proposed_row coerce (upsert_sql table cols pk)
          (values row cols ++ [PTime t]) = inr ex.
Proof.
  intros Hwf Hcols Hts Hpk. pose proof (wf_descriptor_NoDup _ _ Hwf) as Hnd.
  unfold Storage.proposed_row. simpl.
  destruct (coerce_all_total (coerce table) table (cols ++ ["_ingested_at"])
              (values row cols ++ [PTime t])) as [vs Hca].
  { rewrite !length_app, length_values. done. }
  { intros i c p Hc Hp. destruct (decide (i < length cols)) as [Hi|Hi].
    - rewrite lookup_app_l in Hc by done.
      rewrite lookup_app_l in Hp by (by rewrite length_values).
      erewrite values_lookup in Hp by done. injection Hp as <-.
      apply Hcols. by eapply list_elem_of_lookup_2.
    - assert (i = length cols) as ->.
      { apply lookup_lt_Some in Hc. rewrite length_app in Hc. simpl in Hc. lia. }
      rewrite list_lookup_middle in Hc by done.
      rewrite list_lookup_middle in Hp by (by rewrite length_values).
      by injection Hc as <-; injection Hp as <-. }
  rewrite Hca.
  pose proof Hca as Hca'.
  apply coerce_all_inr_lookup in Hca' as [Hl Hlook]; [|done|].
  2:{ rewrite !length_app, length_values. done. }
  assert ((zip (cols ++ ["_ingested_at"]) vs).*1 = cols ++ ["_ingested_at"]) as Hfst.
  { rewrite fst_zip_take, Hl. apply firstn_all. }
  rewrite py_dict_list_to_map by (by rewrite Hfst).
  destruct Hwf as (Hin & _ & _).
  apply list_elem_of_lookup in Hin as [i Hi].
  destruct (Hlook i pk (default PNone (row !! pk))) as [Hv [v Hv']].
  { by apply lookup_app_l_Some. }
  { apply lookup_app_l_Some. by apply values_lookup. }
  rewrite Hv, Hv'. destruct v as [|s|t'].
  - by rewrite Hv' in Hpk.
  - by exists (list_to_map (zip (cols ++ ["_ingested_at"]) vs)).
  - by exists (list_to_map (zip (cols ++ ["_ingested_at"]) vs)).
Qed.
End ProposedFacts.

(** ** The loop of [load_table], step by step *)

Section LoadFacts.
Variable now : nat → Z.
Variable coerce : string → string → pyval → option pyval.

Lemma exec_seq_app sql (a b : list (list pyval)) db :
  Storage.exec_seq coerce sql (a ++ b) db =
    match Storage.exec_seq coerce sql a db with
    | (None, db') => Storage.exec_seq coerce sql b db'
    | (Some e, db') => (Some e, db')
    end.
Proof.
  revert db. induction a as [|p a IH]; intros db; simpl; [done|].
  destruct (Storage.exec_upsert coerce sql p db); [done|]. apply IH.
Qed.

Lemma load_rows_nil chunk sql cols batch submitted w :
  load_rows now coerce chunk sql cols None [] batch submitted w =
    match batch with
    | [] => (Ok submitted, w)
    | _ => match Psycopg.executemany coerce sql batch w with
           | (Ok _, w') => (Ok (submitted + length batch), w')
           | (Raised e, w') => (Raised e, w')
           end
    end.
Proof. by destruct batch. Qed.

Lemma load_rows_nil_error chunk sql cols msg batch submitted w :
  load_rows now coerce chunk sql cols (Some msg) [] batch submitted w
  = (Raised (ReadError msg), w).
Proof. done. Qed.

Lemma load_rows_cons chunk sql cols err row reader batch submitted w :
  load_rows now coerce chunk sql cols err (row :: reader) batch submitted w =
    match getitems row cols with
    | Raised e => (Raised e, w)
    | Ok vals =>
        let batch' := batch ++ [vals ++ [PTime (now (w_clock w))]] in
        if bool_decide (chunk ≤ length batch')
        then match Psycopg.executemany coerce sql batch' (tick w) with
             | (Ok _, w') =>
                 load_rows now coerce chunk sql cols err reader [] (submitted + length batch') w'
             | (Raised e, w') => (Raised e, w')
             end
        else load_rows now coerce chunk sql cols err reader batch' submitted (tick w)
    end.
Proof.
  simpl. unfold mbind, M_bind, lift, utcnow.
  destruct (getitems row cols); [|done]. simpl.
  by case_bool_decide.
Qed.

Lemma round_trips_flush chunk n :
  0 < chunk → round_trips_for chunk (chunk + n) = S (round_trips_for chunk n).
Proof.
  intros Hc. unfold round_trips_for.
  replace (chunk + n) with (n + 1 * chunk) by lia.
  rewrite Nat.div_add by lia. rewrite Nat.Div0.mod_add. lia.
Qed.

Lemma round_trips_partial chunk n :
  0 < n → n < chunk → round_trips_for chunk n = 1.
Proof.
  intros Hn Hc. unfold round_trips_for.
  rewrite Nat.div_small by done. rewrite Nat.mod_small by done.
  destruct n; [lia|done].
Qed.

(** The chunked loop submits the parameter rows of its records in
    order: its outcome and the transaction's view are those of running
    the statement once per record. *)
Lemma load_rows_spec chunk sql cols reader : ∀ batch submitted w,
  w_aborted w = false →
  (∀ row, row ∈ reader → ∀ c, c ∈ cols → is_Some (row !! c)) →
  ∃ w',
    load_rows now coerce chunk sql cols None reader batch submitted w =
      (match (Storage.exec_seq coerce sql
                (batch ++ params_of now cols (w_clock w) reader) (w_txn w)).1 with
       | None => Ok (submitted + length batch + length reader)
       | Some e => Raised (DatabaseError e)
       end, w')
    ∧ w_txn w' =
        (Storage.exec_seq coerce sql
           (batch ++ params_of now cols (w_clock w) reader) (w_txn w)).2
    ∧ w_durable w' = w_durable w
    ∧ w_aborted w' =
        bool_decide (is_Some (Storage.exec_seq coerce sql
           (batch ++ params_of now cols (w_clock w) reader) (w_txn w)).1)
    ∧ ((Storage.exec_seq coerce sql
           (batch ++ params_of now cols (w_clock w) reader) (w_txn w)).1 = None →
       w_clock w' = w_clock w + length reader
       ∧ (length batch < chunk →
          w_round_trips w' =
            w_round_trips w + round_trips_for chunk (length batch + length reader))).
Proof.
  induction reader as [|row reader IH]; intros batch submitted w Hab Hcols.
  - rewrite load_rows_nil. simpl. rewrite app_nil_r.
    destruct batch as [|p ps].
    + exists w. simpl. split_and!; try done.
      * do 2 f_equal. lia.
      * intros _. split; [lia|]. intros _. unfold round_trips_for.
        rewrite Nat.Div0.div_0_l, Nat.Div0.mod_0_l. simpl. lia.
    + unfold Psycopg.executemany. rewrite Hab.
      destruct (Storage.exec_seq coerce sql (p :: ps) (w_txn w)) as [[e|] db] eqn:He.
      * exists (count_round_trip (set_aborted true (set_txn db w))).
        simpl. split_and!; done.
      * exists (count_round_trip (set_txn db w)). simpl. split_and!; try done.
        { do 2 f_equal. lia. }
        intros _. split; [lia|]. intros Hlt.
        rewrite Nat.add_0_r. rewrite round_trips_partial; simpl; lia.
  - rewrite load_rows_cons.
    rewrite (getitems_Ok row cols) by (intros c Hc; apply (Hcols row); [by left|done]).
    fold (values row cols). cbv zeta.
    assert (Hcols' : ∀ r, r ∈ reader → ∀ c, c ∈ cols → is_Some (r !! c)).
    { intros r Hr. apply Hcols. by right. }
    assert (Happ : batch ++ params_of now cols (w_clock w) (row :: reader) =
                   (batch ++ [values row cols ++ [PTime (now (w_clock w))]])
                     ++ params_of now cols (S (w_clock w)) reader).
    { simpl. by rewrite <- app_assoc. }
    rewrite Happ. clear Happ.
    set (b' := batch ++ [values row cols ++ [PTime (now (w_clock w))]]).
    assert (length b' = length batch + 1) as Hlen.
    { unfold b'. by rewrite length_app. }
    rewrite (exec_seq_app sql b'). case_bool_decide as Hflush.
    + unfold Psycopg.executemany. simpl w_aborted. rewrite Hab. simpl w_txn.
      destruct (Storage.exec_seq coerce sql b' (w_txn w)) as [[e|] db] eqn:He.
      * exists (count_round_trip (set_aborted true (set_txn db (tick w)))).
        simpl. split_and!; done.
      * edestruct (IH [] (submitted + length b')
                     (count_round_trip (set_txn db (tick w)))) as (w' & -> & Ht & Hd & Ha & Hc);
          [done|done|].
        simpl in Ht, Hd, Ha, Hc. exists w'. simpl.
        split_and!; try done.
        { destruct (Storage.exec_seq coerce sql _ db).1; [done|]. do 2 f_equal. lia. }
        intros Hok. destruct (Hc Hok) as [Hck Hrt]. split; [lia|].
        intros Hlt. assert (length batch + 1 = chunk) as Hch by lia.
        rewrite Hrt by lia.
        replace (length batch + S (length reader)) with (chunk + length reader) by lia.
        rewrite round_trips_flush by lia. lia.
    + edestruct (IH b' submitted (tick w)) as (w' & Hl & Ht & Hd & Ha & Hc); [done|done|].
      simpl in Hl, Ht, Hd, Ha, Hc. rewrite (exec_seq_app sql b') in Hl, Ht, Ha, Hc.
      exists w'. rewrite Hl. clear Hl.
      destruct (Storage.exec_seq coerce sql b' (w_txn w)) as [[e|] db] eqn:He.
      * simpl in *. split_and!; done.
      * simpl. split_and!; try done.
        { destruct (Storage.exec_seq coerce sql _ db).1; [done|]. do 2 f_equal. lia. }
        intros Hok. destruct (Hc Hok) as [Hck Hrt]. split; [lia|].
        intros Hlt. rewrite Hrt by lia. do 2 f_equal. lia.
Qed.

(** When the reader raises after its records, the loop ends in that
    error with the transaction open, unless a chunk submitted before it
    was refused by the storage engine; nothing is committed and the
    ledger is not written. *)
Lemma load_rows_read_error chunk sql cols msg reader : ∀ batch submitted w,
  w_aborted w = false →
  (∀ row, row ∈ reader → ∀ c, c ∈ cols → is_Some (row !! c)) →
  ((load_rows now coerce chunk sql cols (Some msg) reader batch submitted w).1
     = Raised (ReadError msg)
   ∧ w_aborted (load_rows now coerce chunk sql cols (Some msg) reader batch submitted w).2
     = false
   ∨ (∃ e, (load_rows now coerce chunk sql cols (Some msg) reader batch submitted w).1
             = Raised (DatabaseError e))
     ∧ w_aborted (load_rows now coerce chunk sql cols (Some msg) reader batch submitted w).2
       = true)
  ∧ w_durable (load_rows now coerce chunk sql cols (Some msg) reader batch submitted w).2
    = w_durable w
  ∧ db_audit (w_txn (load_rows now coerce chunk sql cols (Some msg) reader batch submitted w).2)
    = db_audit (w_txn w).
Proof.
  induction reader as [|row reader IH]; intros batch submitted w Hab Hcols.
  - rewrite load_rows_nil_error. simpl. split; [by left|done].
  - rewrite load_rows_cons.
    rewrite (getitems_Ok row cols) by (intros c Hc; apply (Hcols row); [by left|done]).
    cbv zeta.
    assert (Hcols' : ∀ r, r ∈ reader → ∀ c, c ∈ cols → is_Some (r !! c)).
    { intros r Hr. apply Hcols. by right. }
    case_bool_decide as Hflush.
    + unfold Psycopg.executemany. simpl w_aborted. rewrite Hab. simpl w_txn.
      pose proof (exec_seq_audit coerce sql
                    (batch ++ [((λ c, default PNone (row !! c)) <$> cols)
                                 ++ [PTime (now (w_clock w))]]) (w_txn w)) as Haud.
      destruct (Storage.exec_seq coerce sql _ (w_txn w)) as [[e|] db] eqn:He.
      * simpl. split; [right; split; [by eexists|done]|done].
      * destruct (IH [] (submitted + length (batch ++ [((λ c, default PNone (row !! c))
                        <$> cols) ++ [PTime (now (w_clock w))]]))
                    (count_round_trip (set_txn db (tick w)))) as (Ho & Hd & Ha); [done|done|].
        simpl in Haud, Hd, Ha. split_and!; [done|done|]. by rewrite Ha.
    + by apply (IH _ submitted (tick w)).
Qed.
End LoadFacts.

(** ** The Reconciliation Engine: one record *)

Lemma elem_of_updates table cols pk c :
  c ∈ u_updates (upsert_sql table cols pk) ↔ (c ∈ cols ∧ c ≠ pk) ∨ c = "_ingested_at".
Proof.
  simpl. rewrite elem_of_app, list_elem_of_filter, list_elem_of_singleton.
  split; intros [[??]|?]; auto.
Qed.

(** After an update the row holds the proposed value of every declared
    column and of the metadata column, and keeps every other column. *)
Lemma merge_row_upsert_lookup table cols pk ex old c :
  wf_descriptor cols pk →
  (∀ c, c ∈ cols → is_Some (ex !! c)) → is_Some (ex !! "_ingested_at") →
  old !! pk = ex !! pk →
  merge_row (u_updates (upsert_sql table cols pk)) ex (Some old) !! c =
    if decide (c ∈ cols ∨ c = "_ingested_at") then ex !! c else old !! c.
Proof.
  intros (Hpk & Hnd & Hts) Hcols Hex Hkey. unfold merge_row.
  rewrite set_cols_lookup.
  destruct (decide (c ∈ u_updates (upsert_sql table cols pk))) as [Hin|Hnin].
  - apply elem_of_updates in Hin as Hin'. rewrite decide_True by tauto.
    destruct Hin' as [[Hc _]| ->].
    + by destruct (Hcols c Hc) as [v ->].
    + by destruct Hex as [v ->].
  - rewrite elem_of_updates in Hnin.
    destruct (decide (c ∈ cols ∨ c = "_ingested_at")) as [[Hc|Hc]|Hn]; [| |done].
    + destruct (decide (c = pk)) as [->|Hne]; [done|]. exfalso. apply Hnin. by left.
    + exfalso. apply Hnin. by right.
Qed.

Section Reconciliation.
Variable coerce : string → string → pyval → option pyval.

(** C4: a record submitted through the Reconciliation Engine is inserted
    (as the record's coerced values plus its ingestion timestamp) when no
    row holds its primary key, and otherwise overwrites every declared
    column and the ingestion timestamp of the row that holds it; either
    way the table keeps at most one row per primary-key value and no
    other row changes. *)
Theorem upsert_inserts_or_overwrites table cols pk row vals t db rows :
  wf_descriptor cols pk →
  db_tables db !! table = Some rows →
  NoDup (keys pk rows) →
  getitems row cols = Ok vals →
  (∀ c, c ∈ cols → is_Some (coerce table c (default PNone (row !! c)))) →
  is_Some (coerce table "_ingested_at" (PTime t)) →
  coerce table pk (default PNone (row !! pk)) ≠ Some PNone →
  ∃ rows' new,
    Storage.exec_upsert coerce (upsert_sql table cols pk) (vals ++ [PTime t]) db =
      inr {| db_tables := <[table := rows']> (db_tables db); db_audit := db_audit db |}
    ∧ NoDup (keys pk rows')
    ∧ row_for pk (new !! pk) rows' = Some new
    ∧ (∀ c, c ∈ cols → new !! c = coerce table c (default PNone (row !! c)))
    ∧ new !! "_ingested_at" = coerce table "_ingested_at" (PTime t)
    ∧ (∀ k, k ≠ new !! pk → row_for pk k rows' = row_for pk k rows)
    ∧ match row_for pk (new !! pk) rows with
      | None =>
          rows' = rows ++ [new]
          ∧ ∀ c, c ∉ cols → c ≠ "_ingested_at" → new !! c = None
      | Some old =>
          length rows' = length rows
          ∧ ∀ c, c ∉ cols → c ≠ "_ingested_at" → new !! c = old !! c
      end.
Proof.
  intros Hwf Ht Hnd Hget Hcols Hts Hpk.
  apply getitems_Ok_inv in Hget as [-> Hrow]. fold (values row cols).
  destruct (proposed_row_upsert_sql_total coerce table cols pk row t) as [ex Hex]; try done.
  pose proof (proposed_row_upsert_sql _ _ _ _ _ _ _ Hwf Hex) as (Hexc & Hext & Hexo).
  pose proof (proposed_row_key _ _ _ _ Hex) as (k & Hk & Hknn). simpl in Hk.
  assert (is_Some (ex !! pk)) as Hsome by (by eexists).
  assert (Hnew : merge_row (u_updates (upsert_sql table cols pk)) ex (row_for pk (ex !! pk) rows) !! pk = ex !! pk).
  { destruct (row_for pk (ex !! pk) rows) as [old|] eqn:Hold; simpl; [|done].
    apply row_for_Some in Hold as [_ Hold]. by apply set_cols_key. }
  exists (Storage.on_conflict_update pk (u_updates (upsert_sql table cols pk)) ex rows),
         (merge_row (u_updates (upsert_sql table cols pk)) ex (row_for pk (ex !! pk) rows)).
  rewrite Hnew. split_and!.
  - rewrite (exec_upsert_total coerce (upsert_sql table cols pk) _ db rows ex); try done.
    simpl. rewrite length_app. simpl. done.
    simpl. rewrite length_app, length_values. done.
  - by apply NoDup_on_conflict_update.
  - by apply row_for_on_conflict_update.
  - intros c Hc. destruct (Hexc c Hc) as [<- Hs].
    destruct (row_for pk (ex !! pk) rows) as [old|] eqn:Hold; [|done].
    apply row_for_Some in Hold as [_ Hold].
    rewrite (merge_row_upsert_lookup table cols pk ex old c); try done.
    + rewrite decide_True; [done|by left].
    + intros c' Hc'. by apply Hexc.
    + rewrite Hext. done.
  - rewrite <- Hext.
    destruct (row_for pk (ex !! pk) rows) as [old|] eqn:Hold; [|done].
    apply row_for_Some in Hold as [_ Hold].
    rewrite (merge_row_upsert_lookup table cols pk ex old); try done.
    + rewrite decide_True; [done|by right].
    + intros c' Hc'. by apply Hexc.
    + rewrite Hext. done.
  - intros k' Hk'. by apply row_for_on_conflict_update_ne.
  - destruct (row_for pk (ex !! pk) rows) as [old|] eqn:Hold.
    + pose proof Hold as Hold'. apply row_for_Some in Hold' as [Hin Hold'].
      split.
      * apply length_on_conflict_update. rewrite <- Hold'.
        by apply (list_elem_of_fmap_2 (λ r : gmap string pyval, r !! pk)).
      * intros c Hc Hc'.
        rewrite (merge_row_upsert_lookup table cols pk ex old); try done.
        -- rewrite decide_False; [done|]. intros [?|?]; done.
        -- intros c' Hc''. by apply Hexc.
        -- rewrite Hext. done.
    + split; [|done]. apply on_conflict_update_fresh. by apply row_for_None.
Qed.
End Reconciliation.

(** ** The Batch Submitter: one dataset *)

Section BatchSubmitter.
Variable now : nat → Z.
Variable coerce : string → string → pyval → option pyval.
Variable fs : string → option csv_file.

Lemma params_of_lookup cols reader : ∀ n i,
  params_of now cols n reader !! i =
    (λ row, values row cols ++ [PTime (now (n + i))]) <$> reader !! i.
Proof.
  induction reader as [|row reader IH]; intros n [|i]; simpl; try done.
  - by rewrite Nat.add_0_r.
  - rewrite IH. by replace (S n + i) with (n + S i) by lia.
Qed.

Lemma length_params_of cols reader n :
  length (params_of now cols n reader) = length reader.
Proof. revert n. induction reader as [|row reader IH]; intros n; simpl; [done|]. by rewrite IH. Qed.

Lemma acceptable_from_lookup table cols pk reader : ∀ n,
  acceptable_from coerce now table cols pk n reader →
  ∀ i row, reader !! i = Some row → acceptable coerce table cols pk row (now (n + i)).
Proof.
  induction reader as [|row0 reader IH]; intros n Hall i row Hi; [done|].
  destruct Hall as [H0 Hall]. destruct i as [|i]; simpl in Hi.
  - injection Hi as <-. by rewrite Nat.add_0_r.
  - replace (n + S i) with (S n + i) by lia. by apply (IH (S n)).
Qed.

(** Every record of one file has the same columns, so either every
    record yields a parameter row or already the first one raises. *)
Lemma DictReader_uniform f cols :
  (∀ row, row ∈ DictReader f → ∀ c, c ∈ cols → is_Some (row !! c))
  ∨ (∃ row rest c, DictReader f = row :: rest ∧ getitems row cols = Raised (KeyError c)
                   ∧ c ∈ cols ∧ row !! c = None).
Proof.
  destruct (DictReader f) as [|row rest] eqn:Hr.
  - left. by intros row ?%elem_of_nil.
  - destruct (getitems row cols) as [vals|e] eqn:Hg.
    + left. apply getitems_Ok_inv in Hg as [_ Hrow].
      destruct f as [|fieldnames lines]; [done|].
      intros row' Hin c Hc. rewrite <- Hr in Hin.
      apply (DictReader_header fieldnames lines row' Hin).
      apply (DictReader_header fieldnames lines row); [rewrite Hr; by left|].
      by apply Hrow.
    + right. pose proof Hg as Hg'.
      apply getitems_Raised in Hg' as (c & He & Hc & Hn). subst e.
      by exists row, rest, c.
Qed.

(** The outcome of loading one file, whatever the chunk size. *)
Lemma load_table_cases table path cols pk f w :
  fs path = Some f → w_aborted w = false →
  (∃ row rest c,
      DictReader f = row :: rest ∧ c ∈ cols ∧ row !! c = None
      ∧ ∀ chunk, load_table_with now coerce fs chunk table path cols pk w
                 = (Raised (KeyError c), w))
  ∨ ((∀ row, row ∈ DictReader f → ∀ c, c ∈ cols → is_Some (row !! c))
     ∧ (csv_error f = None →
        ∀ chunk, ∃ w',
         load_table_with now coerce fs chunk table path cols pk w =
           (match (Storage.exec_seq coerce (upsert_sql table cols pk)
                     (params_of now cols (w_clock w) (DictReader f)) (w_txn w)).1 with
            | None => Ok {| rows_submitted := length (DictReader f) |}
            | Some e => Raised (DatabaseError e)
            end, w')
         ∧ w_txn w' =
             (Storage.exec_seq coerce (upsert_sql table cols pk)
                (params_of now cols (w_clock w) (DictReader f)) (w_txn w)).2
         ∧ w_durable w' = w_durable w
         ∧ w_aborted w' =
             bool_decide (is_Some (Storage.exec_seq coerce (upsert_sql table cols pk)
                (params_of now cols (w_clock w) (DictReader f)) (w_txn w)).1)
         ∧ ((Storage.exec_seq coerce (upsert_sql table cols pk)
                (params_of now cols (w_clock w) (DictReader f)) (w_txn w)).1 = None →
            w_clock w' = w_clock w + length (DictReader f)
            ∧ (0 < chunk →
               w_round_trips w' =
                 w_round_trips w + round_trips_for chunk (length (DictReader f)))))).
Proof.
  intros Hfs Hab. unfold load_table_with. rewrite Hfs.
  destruct (DictReader_uniform f cols) as [Hall|(row & rest & c & Hr & Hg & Hc & Hn)].
  - right. split; [done|]. intros -> chunk. unfold mbind, M_bind.
    destruct (load_rows_spec now coerce chunk (upsert_sql table cols pk) cols
                (DictReader f) [] 0 w Hab Hall) as (w' & Hl & Ht & Hd & Ha & Hc).
    simpl in Hl, Ht, Ha, Hc. rewrite Hl. exists w'.
    split_and!; try done.
    by destruct (Storage.exec_seq coerce _ _ (w_txn w)).1.
  - left. exists row, rest, c. split_and!; try done.
    intros chunk. unfold mbind, M_bind. rewrite Hr, load_rows_cons, Hg. done.
Qed.

(** When a file of complete records cannot be read to its end, loading
    it ends in the read error with the transaction open, unless a chunk
    submitted before the error was refused by the storage engine. *)
Lemma load_table_read_error chunk table path cols pk f msg w :
  fs path = Some f → csv_error f = Some msg → w_aborted w = false →
  (∀ row, row ∈ DictReader f → ∀ c, c ∈ cols → is_Some (row !! c)) →
  ((load_table_with now coerce fs chunk table path cols pk w).1 = Raised (ReadError msg)
   ∧ w_aborted (load_table_with now coerce fs chunk table path cols pk w).2 = false
   ∨ (∃ e, (load_table_with now coerce fs chunk table path cols pk w).1
             = Raised (DatabaseError e))
     ∧ w_aborted (load_table_with now coerce fs chunk table path cols pk w).2 = true)
  ∧ w_durable (load_table_with now coerce fs chunk table path cols pk w).2 = w_durable w
  ∧ db_audit (w_txn (load_table_with now coerce fs chunk table path cols pk w).2)
    = db_audit (w_txn w).
Proof.
  intros Hfs Herr Hab Hall. unfold load_table_with. rewrite Hfs, Herr.
  unfold mbind, M_bind.
  pose proof (load_rows_read_error now coerce chunk (upsert_sql table cols pk) cols msg
                (DictReader f) [] 0 w Hab Hall) as (Ho & Hd & Ha).
  destruct (load_rows now coerce chunk _ cols (Some msg) (DictReader f) [] 0 w)
    as [[n|e] w'] eqn:Hl; simpl in *.
  - destruct Ho as [[? _]|[[? ?] _]]; done.
  - split_and!; [|done|done].
    destruct Ho as [[[= ->] ?]|[[e0 [= ->]] ?]]; [by left|right].
    split; [by eexists|done].
Qed.

(** For a file that is read to its end, the outcome of loading it and
    the rows it leaves in the transaction are the same for any two
    chunk sizes, also from two worlds that differ only in the number of
    round-trips made so far. *)
Lemma load_table_chunk_indep chunk1 chunk2 table path cols pk w1 w2 :
  (∀ f, fs path = Some f → csv_error f = None) →
  w_aborted w1 = false → w_aborted w2 = false →
  w_clock w1 = w_clock w2 → w_txn w1 = w_txn w2 → w_durable w1 = w_durable w2 →
  (load_table_with now coerce fs chunk1 table path cols pk w1).1
    = (load_table_with now coerce fs chunk2 table path cols pk w2).1
  ∧ w_txn (load_table_with now coerce fs chunk1 table path cols pk w1).2
    = w_txn (load_table_with now coerce fs chunk2 table path cols pk w2).2
  ∧ w_durable (load_table_with now coerce fs chunk1 table path cols pk w1).2
    = w_durable (load_table_with now coerce fs chunk2 table path cols pk w2).2
  ∧ w_aborted (load_table_with now coerce fs chunk1 table path cols pk w1).2
    = w_aborted (load_table_with now coerce fs chunk2 table path cols pk w2).2
  ∧ (w_aborted (load_table_with now coerce fs chunk1 table path cols pk w1).2 = false →
     w_clock (load_table_with now coerce fs chunk1 table path cols pk w1).2
       = w_clock (load_table_with now coerce fs chunk2 table path cols pk w2).2).
Proof.
  intros Hno Hab1 Hab2 Hck Htx Hdu. unfold load_table_with.
  destruct (fs path) as [f|] eqn:Hfs; [|simpl; split_and!; congruence].
  rewrite (Hno f eq_refl). unfold mbind, M_bind.
  destruct (DictReader_uniform f cols) as [Hall|(row & rest & c & Hr & Hg & _)].
  - destruct (load_rows_spec now coerce chunk1 (upsert_sql table cols pk) cols
                (DictReader f) [] 0 w1 Hab1 Hall) as (w1' & Hl1 & Ht1 & Hd1 & Ha1 & Hc1).
    destruct (load_rows_spec now coerce chunk2 (upsert_sql table cols pk) cols
                (DictReader f) [] 0 w2 Hab2 Hall) as (w2' & Hl2 & Ht2 & Hd2 & Ha2 & Hc2).
    rewrite Hl1, Hl2. simpl in *. rewrite <- Hck, <- Htx in *.
    destruct (Storage.exec_seq coerce (upsert_sql table cols pk)
                (params_of now cols (w_clock w1) (DictReader f)) (w_txn w1)) as [[e|] db];
      simpl in *.
    + split_and!; congruence.
    + split_and!; try congruence. intros _.
      destruct (Hc1 eq_refl) as [-> _]. destruct (Hc2 eq_refl) as [-> _]. by rewrite Hck.
  - rewrite Hr, !load_rows_cons, Hg. simpl. split_and!; congruence.
Qed.

Lemma acceptable_cols table cols pk row t c :
  acceptable coerce table cols pk row t → c ∈ cols →
  is_Some (row !! c)
  ∧ row !! c ≫= coerce table c = coerce table c (default PNone (row !! c))
  ∧ is_Some (coerce table c (default PNone (row !! c))).
Proof.
  intros (Hall & _ & _) Hc. rewrite Forall_forall in Hall. specialize (Hall c Hc).
  destruct (row !! c) as [v|]; simpl in *; [|by destruct Hall].
  split_and!; [by eexists|done|done].
Qed.

(** The proposed rows of the records of a file, all of them acceptable. *)
Lemma proposed_rows_exist table cols pk reader : ∀ n,
  wf_descriptor cols pk →
  (∀ i row, reader !! i = Some row → acceptable coerce table cols pk row (now (n + i))) →
  ∃ exs, Forall2 (λ p ex, Storage.proposed_row coerce (upsert_sql table cols pk) p = inr ex)
                 (params_of now cols n reader) exs.
Proof.
  intros n Hwf. revert n. induction reader as [|row reader IH]; intros n Hacc; simpl.
  - exists []. constructor.
  - destruct (IH (S n)) as [exs Hexs].
    { intros i row' Hi. replace (S n + i) with (n + S i) by lia. by apply (Hacc (S i)). }
    pose proof (Hacc 0 row eq_refl) as Hrow. rewrite Nat.add_0_r in Hrow.
    destruct (proposed_row_upsert_sql_total coerce table cols pk row (now n)) as [ex Hex].
    + done.
    + intros c Hc. by eapply acceptable_cols.
    + apply Hrow.
    + destruct Hwf as (Hpk & _).
      destruct (acceptable_cols _ _ _ _ _ pk Hrow Hpk) as (_ & <- & _). apply Hrow.
    + exists (ex :: exs). by constructor.
Qed.

(** What the proposed row of the [i]-th record holds. *)
Lemma proposed_rows_lookup table cols pk reader n exs i row :
  wf_descriptor cols pk →
  Forall2 (λ p ex, Storage.proposed_row coerce (upsert_sql table cols pk) p = inr ex)
          (params_of now cols n reader) exs →
  reader !! i = Some row →
  ∃ ex, exs !! i = Some ex
    ∧ (∀ c, c ∈ cols → ex !! c = coerce table c (default PNone (row !! c))
                        ∧ is_Some (ex !! c))
    ∧ ex !! "_ingested_at" = coerce table "_ingested_at" (PTime (now (n + i)))
    ∧ is_Some (ex !! "_ingested_at")
    ∧ (∀ c, c ∉ cols → c ≠ "_ingested_at" → ex !! c = None)
    ∧ Storage.proposed_row coerce (upsert_sql table cols pk)
        (values row cols ++ [PTime (now (n + i))]) = inr ex.
Proof.
  intros Hwf Hall Hi.
  assert (params_of now cols n reader !! i = Some (values row cols ++ [PTime (now (n + i))]))
    as Hp by (by rewrite params_of_lookup, Hi).
  destruct (Forall2_lookup_l _ _ _ _ _ Hall Hp) as (ex & Hex & Hprop).
  exists ex. split; [done|].
  destruct (proposed_row_upsert_sql coerce table cols pk row _ ex Hwf Hprop)
    as (Hc & Hts & Ho).
  split_and!; try done.
  unfold Storage.proposed_row in Hprop. simpl in Hprop.
  destruct (Storage.coerce_all _ _ _ _) as [e|vs] eqn:Hca; [done|].
  apply coerce_all_inr_lookup in Hca as [_ Hlook].
  - destruct (Hlook (length cols) "_ingested_at" (PTime (now (n + i)))) as [_ Hs].
    + by apply list_lookup_middle.
    + apply list_lookup_middle. by rewrite length_values.
    + by rewrite Hts.
  - by eapply wf_descriptor_NoDup.
  - rewrite !length_app, length_values. done.
Qed.

Lemma Forall2_functional {A B} (P : A → B → Prop) l : ∀ k1 k2,
  (∀ x y1 y2, P x y1 → P x y2 → y1 = y2) →
  Forall2 P l k1 → Forall2 P l k2 → k1 = k2.
Proof.
  induction l as [|x l IH]; intros k1 k2 Hf H1 H2.
  - apply Forall2_nil_inv_l in H1, H2. by subst.
  - apply Forall2_cons_inv_l in H1 as (y1 & k1' & Hy1 & H1 & ->).
    apply Forall2_cons_inv_l in H2 as (y2 & k2' & Hy2 & H2 & ->).
    f_equal; [by eapply Hf|by apply IH].
Qed.

(** Loading a file whose records are all acceptable succeeds, whatever
    the chunk size, and upserts the proposed rows of its records in file
    order. *)
Lemma load_table_ok table path cols pk f w rows :
  wf_descriptor cols pk → fs path = Some (readable f) → w_aborted w = false →
  db_tables (w_txn w) !! table = Some rows →
  (∀ i row, DictReader f !! i = Some row →
            acceptable coerce table cols pk row (now (w_clock w + i))) →
  ∃ exs,
    Forall2 (λ p ex, Storage.proposed_row coerce (upsert_sql table cols pk) p = inr ex)
            (params_of now cols (w_clock w) (DictReader f)) exs
    ∧ ∀ chunk, ∃ w',
        load_table_with now coerce fs chunk table path cols pk w =
          (Ok {| rows_submitted := length (DictReader f) |}, w')
        ∧ db_tables (w_txn w') =
            <[table := apply_rows (upsert_sql table cols pk) exs rows]> (db_tables (w_txn w))
        ∧ db_audit (w_txn w') = db_audit (w_txn w)
        ∧ w_durable w' = w_durable w
        ∧ w_aborted w' = false
        ∧ w_clock w' = w_clock w + length (DictReader f).
Proof.
  intros Hwf Hfs Hab Ht Hacc.
  destruct (proposed_rows_exist table cols pk (DictReader f) (w_clock w) Hwf Hacc)
    as [exs Hexs].
  exists exs. split; [done|]. intros chunk.
  assert (Hnone : (Storage.exec_seq coerce (upsert_sql table cols pk)
            (params_of now cols (w_clock w) (DictReader f)) (w_txn w)).1 = None).
  { eapply (exec_seq_total coerce); [| |exact Ht|exact Hexs].
    - simpl. by rewrite length_app.
    - apply Forall_lookup. intros i p Hp. rewrite params_of_lookup in Hp.
      destruct (DictReader f !! i) as [row|]; [|done]. injection Hp as <-.
      simpl. by rewrite length_app, length_values. }
  destruct (load_table_cases table path cols pk (readable f) w Hfs Hab)
    as [(row & rest & c & Hr & Hc & Hn & _)|[_ Hl]].
  - exfalso. specialize (Hacc 0 row). simpl in Hr. rewrite Hr in Hacc.
    specialize (Hacc eq_refl).
    destruct (acceptable_cols _ _ _ _ _ c Hacc Hc) as ([v Hv] & _). congruence.
  - destruct (Hl eq_refl chunk) as (w' & Hload & Htx & Hd & Ha & Hc). simpl in *.
    rewrite Hnone in Hload, Ha, Hc. exists w'.
    destruct (Storage.exec_seq coerce (upsert_sql table cols pk)
                (params_of now cols (w_clock w) (DictReader f)) (w_txn w)) as [o db'] eqn:Hs.
    simpl in Hnone, Htx. subst o db'.
    eapply (exec_seq_None coerce) in Hs as (exs' & Hexs' & Htab & Haud); [|exact Ht].
    assert (exs' = exs) as ->.
    { eapply Forall2_functional; [|exact Hexs'|exact Hexs].
      intros x y1 y2 H1 H2. congruence. }
    split_and!; try done. by apply Hc.
Qed.

Lemma proposed_rows_keys sql batch exs :
  Forall2 (λ p ex, Storage.proposed_row coerce sql p = inr ex) batch exs →
  Forall (λ ex : gmap string pyval, is_Some (ex !! u_conflict sql)) exs.
Proof.
  induction 1 as [|p ex batch exs Hp _ IH]; constructor; [|done].
  apply proposed_row_key in Hp as (k & -> & _). by eexists.
Qed.

(** After the proposed rows of a file are upserted, the row found for
    the key of a record that is the last one with that key holds that
    record's stored values and its own clock reading. *)
Lemma last_occurrence_row table cols pk reader n exs rows i row :
  wf_descriptor cols pk →
  (∀ i row, reader !! i = Some row → acceptable coerce table cols pk row (now (n + i))) →
  Forall2 (λ p ex, Storage.proposed_row coerce (upsert_sql table cols pk) p = inr ex)
          (params_of now cols n reader) exs →
  reader !! i = Some row →
  (∀ j row', i < j → reader !! j = Some row' →
             stored_key coerce table pk row' ≠ stored_key coerce table pk row) →
  ∃ r, row_for pk (stored_key coerce table pk row)
         (apply_rows (upsert_sql table cols pk) exs rows) = Some r
    ∧ (∀ c, c ∈ cols → r !! c = row !! c ≫= coerce table c)
    ∧ r !! "_ingested_at" = coerce table "_ingested_at" (PTime (now (n + i))).
Proof.
  intros Hwf Hacc Hexs Hi Hlast.
  assert (Hkey : ∀ i row ex, reader !! i = Some row → exs !! i = Some ex →
            ex !! pk = stored_key coerce table pk row).
  { intros i' row' ex' Hi' Hex'.
    destruct (proposed_rows_lookup table cols pk reader n exs i' row' Hwf Hexs Hi')
      as (ex'' & Hex'' & Hc & _).
    rewrite Hex' in Hex''. injection Hex'' as <-.
    destruct Hwf as (Hpk & _). destruct (Hc pk Hpk) as [-> _].
    unfold stored_key.
    by destruct (acceptable_cols _ _ _ _ _ pk (Hacc i' row' Hi') Hpk) as (_ & -> & _). }
  destruct (proposed_rows_lookup table cols pk reader n exs i row Hwf Hexs Hi)
    as (ex & Hex & Hc & Hts & Htss & Ho & _).
  pose proof (proposed_rows_keys _ _ _ Hexs) as Hkeys. simpl in Hkeys.
  rewrite <- (Hkey i row ex Hi Hex).
  rewrite <- (take_drop_middle exs i ex Hex) in Hkeys |- *.
  set (o := row_for pk (ex !! pk)
              (apply_rows (upsert_sql table cols pk) (take i exs) rows)).
  assert (Hm : ∀ c, c ∈ cols ∨ c = "_ingested_at" →
            merge_row (u_updates (upsert_sql table cols pk)) ex o !! c = ex !! c).
  { intros c Hc'. destruct o as [old|] eqn:Hold; [|done].
    apply row_for_Some in Hold as [_ Hold].
    rewrite (merge_row_upsert_lookup table cols pk ex old c); try done.
    - by rewrite decide_True.
    - intros c'' Hc''. by apply Hc. }
  exists (merge_row (u_updates (upsert_sql table cols pk)) ex o). split_and!.
  - apply (row_for_apply_rows_last (upsert_sql table cols pk)
             (take i exs) ex (drop (S i) exs) rows); [done|].
    apply Forall_lookup. intros j ex' Hj. rewrite lookup_drop in Hj.
    destruct (Forall2_lookup_r _ _ _ _ _ Hexs Hj) as (p & Hp & _).
    rewrite params_of_lookup in Hp.
    destruct (reader !! (S i + j)) as [row'|] eqn:Hrow'; [|done].
    simpl. rewrite (Hkey (S i + j) row' ex' Hrow' Hj), (Hkey i row ex Hi Hex).
    apply (Hlast (S i + j)); [lia|done].
  - intros c Hc'. rewrite Hm by (by left). destruct (Hc c Hc') as [-> _].
    by destruct (acceptable_cols _ _ _ _ _ c (Hacc i row Hi) Hc') as (_ & -> & _).
  - rewrite Hm by (by right). done.
Qed.


(** C9: a file in which several records share a primary key loads
    without failing, and the row left for a key is the last record with
    that key in file order. *)
Theorem duplicate_keys_last_wins table path cols pk f w rows :
  wf_descriptor cols pk → fs path = Some (readable f) → w_aborted w = false →
  db_tables (w_txn w) !! table = Some rows →
  NoDup (keys pk rows) →
  (∀ i row, DictReader f !! i = Some row →
            acceptable coerce table cols pk row (now (w_clock w + i))) →
  ∃ w' rows',
    load_table now coerce fs table path cols pk w =
      (Ok {| rows_submitted := length (DictReader f) |}, w')
    ∧ db_tables (w_txn w') !! table = Some rows'
    ∧ NoDup (keys pk rows')
    ∧ ∀ i row,
        DictReader f !! i = Some row →
        (∀ j row', i < j → DictReader f !! j = Some row' →
                   stored_key coerce table pk row' ≠ stored_key coerce table pk row) →
        ∃ r, row_for pk (stored_key coerce table pk row) rows' = Some r
          ∧ (∀ c, c ∈ cols → r !! c = row !! c ≫= coerce table c)
          ∧ r !! "_ingested_at"
              = coerce table "_ingested_at" (PTime (now (w_clock w + i))).
Proof.
  intros Hwf Hfs Hab Ht Hnd Hacc.
  destruct (load_table_ok table path cols pk f w rows Hwf Hfs Hab Ht Hacc)
    as (exs & Hexs & Hl).
  destruct (Hl CHUNK_SIZE) as (w' & Hload & Htab & _).
  exists w', (apply_rows (upsert_sql table cols pk) exs rows).
  split_and!.
  - done.
  - rewrite Htab. apply lookup_insert_eq.
  - apply (keys_apply_rows_NoDup (upsert_sql table cols pk)); [|done].
    by eapply proposed_rows_keys.
  - intros i row Hi Hlast. by eapply last_occurrence_row.
Qed.

(** C10, as the code has it: the clock is read once for every
    record, when the record is read: a load of [N] records reads it [N]
    times, and the row left for the [i]-th record holds, as the column
    stores it, the [i]-th of these readings.  (Which of two readings is
    the earlier time is for the clock to decide.) *)
Theorem ingested_at_per_record table path cols pk f w rows :
  wf_descriptor cols pk → fs path = Some (readable f) → w_aborted w = false →
  db_tables (w_txn w) !! table = Some rows →
  (∀ i row, DictReader f !! i = Some row →
            acceptable coerce table cols pk row (now (w_clock w + i))) →
  ∃ w' rows',
    load_table now coerce fs table path cols pk w =
      (Ok {| rows_submitted := length (DictReader f) |}, w')
    ∧ w_clock w' = w_clock w + length (DictReader f)
    ∧ db_tables (w_txn w') !! table = Some rows'
    ∧ ∀ i row,
        DictReader f !! i = Some row →
        (∀ k row', i < k → DictReader f !! k = Some row' →
                   stored_key coerce table pk row' ≠ stored_key coerce table pk row) →
        ∃ r,
          row_for pk (stored_key coerce table pk row) rows' = Some r
          ∧ r !! "_ingested_at"
              = coerce table "_ingested_at" (PTime (now (w_clock w + i))).
Proof.
  intros Hwf Hfs Hab Ht Hacc.
  destruct (load_table_ok table path cols pk f w rows Hwf Hfs Hab Ht Hacc)
    as (exs & Hexs & Hl).
  destruct (Hl CHUNK_SIZE) as (w' & Hload & Htab & _ & _ & _ & Hck).
  exists w', (apply_rows (upsert_sql table cols pk) exs rows).
  split_and!.
  - done.
  - done.
  - rewrite Htab. apply lookup_insert_eq.
  - intros i row Hi Hlast.
    destruct (last_occurrence_row table cols pk (DictReader f) (w_clock w) exs rows
                i row Hwf Hacc Hexs Hi Hlast) as (r & Hr & _ & Hts).
    by exists r.
Qed.

Lemma proposed_rows_inv table cols pk reader n exs i ex :
  wf_descriptor cols pk →
  Forall2 (λ p ex, Storage.proposed_row coerce (upsert_sql table cols pk) p = inr ex)
          (params_of now cols n reader) exs →
  exs !! i = Some ex →
  ∃ row, reader !! i = Some row
    ∧ (∀ c, c ∈ cols → ex !! c = coerce table c (default PNone (row !! c))
                        ∧ is_Some (ex !! c))
    ∧ is_Some (ex !! "_ingested_at")
    ∧ (∀ c, c ∉ cols → c ≠ "_ingested_at" → ex !! c = None).
Proof.
  intros Hwf Hall Hex.
  destruct (Forall2_lookup_r _ _ _ _ _ Hall Hex) as (p & Hp & _).
  rewrite params_of_lookup in Hp.
  destruct (reader !! i) as [row|] eqn:Hrow; [|done].
  destruct (proposed_rows_lookup table cols pk reader n exs i row Hwf Hall Hrow)
    as (ex' & Hex' & Hc & _ & Hts & Ho & _).
  rewrite Hex in Hex'. injection Hex' as <-. by exists row.
Qed.

Lemma proposed_rows_shaped table cols pk reader n exs :
  wf_descriptor cols pk →
  Forall2 (λ p ex, Storage.proposed_row coerce (upsert_sql table cols pk) p = inr ex)
          (params_of now cols n reader) exs →
  Forall (shaped (upsert_sql table cols pk)) exs.
Proof.
  intros Hwf Hall. apply Forall_lookup. intros i ex Hex.
  destruct (proposed_rows_inv table cols pk reader n exs i ex Hwf Hall Hex)
    as (row & _ & Hc & Hts & Ho).
  pose proof Hwf as (Hpk & _ & _). split_and!.
  - by apply Hc.
  - intros c [[Hin _]| ->]%elem_of_updates; [by apply Hc|done].
  - intros c Hnin Hne. simpl in Hne. rewrite elem_of_updates in Hnin.
    apply Ho; intros ?; apply Hnin; [by left|by right].
Qed.

(** The proposed rows of the same records read at two different times
    have the same keys and differ only in the ingestion timestamp. *)
Lemma proposed_rows_two_loads table cols pk reader n1 n2 exs1 exs2 :
  wf_descriptor cols pk →
  Forall2 (λ p ex, Storage.proposed_row coerce (upsert_sql table cols pk) p = inr ex)
          (params_of now cols n1 reader) exs1 →
  Forall2 (λ p ex, Storage.proposed_row coerce (upsert_sql table cols pk) p = inr ex)
          (params_of now cols n2 reader) exs2 →
  (λ ex : gmap string pyval, ex !! pk) <$> exs1 = (λ ex : gmap string pyval, ex !! pk) <$> exs2
  ∧ Forall2 (λ a b : gmap string pyval, delete "_ingested_at" a = delete "_ingested_at" b)
            exs1 exs2.
Proof.
  intros Hwf H1 H2.
  assert (Hlen : length exs1 = length exs2).
  { apply Forall2_length in H1, H2. rewrite length_params_of in H1, H2. congruence. }
  assert (Hsame : ∀ i a b c, exs1 !! i = Some a → exs2 !! i = Some b →
            c ≠ "_ingested_at" → a !! c = b !! c).
  { intros i a b c Ha Hb Hc.
    destruct (proposed_rows_inv table cols pk reader n1 exs1 i a Hwf H1 Ha)
      as (row & Hrow & Hca & _ & Hoa).
    destruct (proposed_rows_inv table cols pk reader n2 exs2 i b Hwf H2 Hb)
      as (row' & Hrow' & Hcb & _ & Hob).
    rewrite Hrow in Hrow'. injection Hrow' as <-.
    destruct (decide (c ∈ cols)) as [Hin|Hnin].
    - destruct (Hca c Hin) as [-> _]. by destruct (Hcb c Hin) as [-> _].
    - by rewrite Hoa, Hob. }
  split.
  - apply list_eq. intros i. rewrite !list_lookup_fmap.
    destruct (exs1 !! i) as [a|] eqn:Ha, (exs2 !! i) as [b|] eqn:Hb; simpl.
    + f_equal. apply (Hsame i a b pk Ha Hb). intros ->.
      destruct Hwf as (Hpk & _ & Hts). done.
    + apply lookup_lt_Some in Ha. apply lookup_ge_None in Hb. lia.
    + apply lookup_lt_Some in Hb. apply lookup_ge_None in Ha. lia.
    + done.
  - apply Forall2_same_length_lookup. split; [done|].
    intros i a b Ha Hb. apply map_eq. intros c.
    destruct (decide (c = "_ingested_at")) as [->|Hc]; [by rewrite !lookup_delete_eq|].
    rewrite !lookup_delete_ne by done. by apply (Hsame i a b c).
Qed.

(** C5: loading the same file a second time leaves the table exactly as
    a single load made at the time of the second one: one row per
    primary key, the data of the first load unchanged, and the
    ingestion timestamps of the second load. *)
Theorem reload_is_idempotent table path cols pk f w v rows :
  wf_descriptor cols pk → fs path = Some (readable f) →
  w_aborted w = false → w_aborted v = false →
  db_tables (w_txn w) !! table = Some rows →
  NoDup (keys pk rows) →
  (∀ i row, DictReader f !! i = Some row →
            acceptable coerce table cols pk row (now (w_clock w + i))) →
  (∀ i row, DictReader f !! i = Some row →
            acceptable coerce table cols pk row (now (w_clock v + i))) →
  ∃ w1 v2 v1 rows1 rows2,
    load_table now coerce fs table path cols pk w =
      (Ok {| rows_submitted := length (DictReader f) |}, w1)
    ∧ load_table now coerce fs table path cols pk (set_txn (w_txn w1) v) =
        (Ok {| rows_submitted := length (DictReader f) |}, v2)
    ∧ load_table now coerce fs table path cols pk (set_txn (w_txn w) v) =
        (Ok {| rows_submitted := length (DictReader f) |}, v1)
    ∧ w_txn v2 = w_txn v1
    ∧ db_tables (w_txn w1) !! table = Some rows1
    ∧ db_tables (w_txn v2) !! table = Some rows2
    ∧ NoDup (keys pk rows2)
    ∧ delete "_ingested_at" <$> rows2 = delete "_ingested_at" <$> rows1
    ∧ ∀ i row,
        DictReader f !! i = Some row →
        (∀ j row', i < j → DictReader f !! j = Some row' →
                   stored_key coerce table pk row' ≠ stored_key coerce table pk row) →
        ∃ r, row_for pk (stored_key coerce table pk row) rows2 = Some r
          ∧ r !! "_ingested_at"
              = coerce table "_ingested_at" (PTime (now (w_clock v + i))).
Proof.
  intros Hwf Hfs Habw Habv Ht Hnd Haccw Haccv.
  destruct (load_table_ok table path cols pk f w rows Hwf Hfs Habw Ht Haccw)
    as (exs1 & Hexs1 & Hl1).
  destruct (Hl1 CHUNK_SIZE) as (w1 & Hload1 & Htab1 & Haud1 & _).
  assert (Ht1 : db_tables (w_txn w1) !! table
                = Some (apply_rows (upsert_sql table cols pk) exs1 rows)).
  { rewrite Htab1. apply lookup_insert_eq. }
  destruct (load_table_ok table path cols pk f (set_txn (w_txn w1) v) _ Hwf Hfs Habv Ht1 Haccv)
    as (exs2 & Hexs2 & Hl2).
  destruct (Hl2 CHUNK_SIZE) as (v2 & Hload2 & Htab2 & Haud2 & _).
  destruct (load_table_ok table path cols pk f (set_txn (w_txn w) v) _ Hwf Hfs Habv Ht Haccv)
    as (exs2' & Hexs2' & Hl3).
  destruct (Hl3 CHUNK_SIZE) as (v1 & Hload3 & Htab3 & Haud3 & _).
  simpl in Hexs2, Hexs2', Htab2, Htab3, Haud2, Haud3.
  assert (exs2' = exs2) as ->.
  { eapply Forall2_functional; [|exact Hexs2'|exact Hexs2]. intros x y1 y2 ??. congruence. }
  destruct (proposed_rows_two_loads table cols pk _ _ _ _ _ Hwf Hexs1 Hexs2)
    as [Hkeys Hmod].
  pose proof (proposed_rows_shaped table cols pk _ _ _ Hwf Hexs1) as Hsh1.
  pose proof (proposed_rows_shaped table cols pk _ _ _ Hwf Hexs2) as Hsh2.
  assert (Habs : apply_rows (upsert_sql table cols pk) exs2
                   (apply_rows (upsert_sql table cols pk) exs1 rows)
                 = apply_rows (upsert_sql table cols pk) exs2 rows).
  { by apply (apply_rows_absorb (upsert_sql table cols pk)). }
  exists w1, v2, v1, (apply_rows (upsert_sql table cols pk) exs1 rows),
         (apply_rows (upsert_sql table cols pk) exs2 rows).
  split_and!; try done.
  - destruct (w_txn v2) as [t2 a2], (w_txn v1) as [t3 a3]. simpl in *.
    f_equal; [|congruence].
    rewrite Htab2, Htab3, Htab1, Habs. by rewrite insert_insert_eq.
  - rewrite Htab2, Habs. apply lookup_insert_eq.
  - apply (keys_apply_rows_NoDup (upsert_sql table cols pk)); [|done].
    by eapply proposed_rows_keys.
  - symmetry. apply (apply_rows_modulo (upsert_sql table cols pk)); [|done|done].
    simpl. intros <-. destruct Hwf as (Hpk & _ & Hts). done.
  - intros i row Hi Hlast.
    destruct (last_occurrence_row table cols pk (DictReader f) (w_clock v) exs2 rows
                i row Hwf Haccv Hexs2 Hi Hlast) as (r & Hr & _ & Hts).
    by exists r.
Qed.
End BatchSubmitter.

(** ** The Load Orchestrator *)

Section Orchestrator.
Variable now : nat → Z.
Variable coerce : string → string → pyval → option pyval.
Variable fs : string → option csv_file.
Variable DATA_DIR : string.
Variable LOAD_DATE : Z.
Variable uuid4 : N.

Lemma check_files_Ok files w :
  Forall (λ entry : string * (string * list string * string),
            is_Some (fs (os_path_join DATA_DIR entry.2.1.1))) files →
  check_files fs DATA_DIR files w = (Ok tt, w).
Proof.
  unfold check_files. induction 1 as [|[table [[filename cols] pk]] files [f Hf] _ IH]; [done|].
  simpl in *. unfold mbind, M_bind. by rewrite Hf.
Qed.

Lemma check_files_Raised files w :
  ¬ Forall (λ entry : string * (string * list string * string),
              is_Some (fs (os_path_join DATA_DIR entry.2.1.1))) files →
  ∃ path, check_files fs DATA_DIR files w = (Raised (FileNotFoundError path), w)
          ∧ fs path = None.
Proof.
  unfold check_files.
  induction files as [|[table [[filename cols] pk]] files IH]; intros Hn.
  - exfalso. apply Hn. constructor.
  - simpl. unfold mbind, M_bind.
    destruct (fs (os_path_join DATA_DIR filename)) as [f|] eqn:Hf.
    + apply IH. intros Hall. apply Hn. constructor; [|done]. simpl. by rewrite Hf.
    + by eexists.
Qed.

Lemma set_txn_id w : set_txn (w_txn w) w = w.
Proof. by destruct w. Qed.

(** The schema statements pass exactly when the three tables exist. *)
Lemma ddl_Ok w :
  w_aborted w = false →
  Forall (λ entry : string * (string * list string * string),
            is_Some (db_tables (w_txn w) !! entry.1)) FILES →
  for_each DDL (λ stmt, Psycopg.execute (Storage.exec_ddl stmt)) w = (Ok tt, w).
Proof.
  intros Hab Hall.
  apply Forall_cons in Hall as [[r1 H1] Hall].
  apply Forall_cons in Hall as [[r2 H2] Hall].
  apply Forall_cons in Hall as [[r3 H3] _]. simpl in H1, H2, H3.
  unfold DDL, for_each, mbind, M_bind, Psycopg.execute, Storage.exec_ddl.
  rewrite Hab. rewrite set_txn_id. rewrite Hab, H1. rewrite set_txn_id.
  rewrite Hab, H2. rewrite set_txn_id. rewrite Hab, H3. by rewrite set_txn_id.
Qed.

Lemma ddl_Raised w :
  w_aborted w = false →
  ¬ Forall (λ entry : string * (string * list string * string),
              is_Some (db_tables (w_txn w) !! entry.1)) FILES →
  ∃ e w', for_each DDL (λ stmt, Psycopg.execute (Storage.exec_ddl stmt)) w = (Raised e, w')
          ∧ w_durable w' = w_durable w.
Proof.
  intros Hab Hn.
  unfold DDL, for_each, mbind, M_bind, Psycopg.execute, Storage.exec_ddl.
  rewrite Hab. rewrite set_txn_id. rewrite Hab.
  destruct (db_tables (w_txn w) !! "public.customers") as [r1|] eqn:H1; [|by eexists _, _].
  rewrite set_txn_id. rewrite Hab.
  destruct (db_tables (w_txn w) !! "public.products") as [r2|] eqn:H2; [|by eexists _, _].
  rewrite set_txn_id. rewrite Hab.
  destruct (db_tables (w_txn w) !! "public.transactions") as [r3|] eqn:H3; [|by eexists _, _].
  exfalso. apply Hn. repeat constructor; simpl; by eexists.
Qed.

(** Under its preconditions [main] is its [try] statement run in
    [begin_world], followed by leaving the connection block. *)
Lemma main_begin chunk w :
  reaches_try fs DATA_DIR uuid4 w →
  main_with now coerce fs DATA_DIR LOAD_DATE uuid4 chunk w =
    leave_connection
      (try_except (try_suite now coerce fs DATA_DIR uuid4 chunk)
                  (except_suite now uuid4)
                  (begin_world now LOAD_DATE uuid4 w)).
Proof.
  intros [Hall Hfresh].
  assert (Hfiles : Forall (λ entry : string * (string * list string * string),
            is_Some (fs (os_path_join DATA_DIR entry.2.1.1))) FILES).
  { eapply Forall_impl; [exact Hall|]. by intros ? [? _]. }
  assert (Htabs : Forall (λ entry : string * (string * list string * string),
            is_Some (db_tables (w_durable w) !! entry.1)) FILES).
  { eapply Forall_impl; [exact Hall|]. by intros ? [_ ?]. }
  unfold main_with. unfold mbind at 1 2. unfold M_bind at 1 2. unfold utcnow at 1.
  rewrite check_files_Ok by done.
  unfold Psycopg.connect. unfold mbind at 1 2. unfold M_bind at 1 2.
  rewrite ddl_Ok by done.
  unfold Psycopg.execute at 1. cbn [w_aborted set_aborted w_txn set_txn tick].
  unfold Storage.insert_audit. cbn [batch_id db_audit].
  rewrite bool_decide_false by done.
  unfold leave_connection, try_suite, except_suite, begin_world, running_row.
  cbn [set_txn set_aborted tick w_clock w_durable w_txn w_aborted w_round_trips
       db_tables db_audit].
  reflexivity.
Qed.

Lemma FILES_wf :
  Forall (λ entry : string * (string * list string * string),
            wf_descriptor entry.2.1.2 entry.2.2) FILES.
Proof.
  repeat constructor; simpl;
    try (apply (bool_decide_unpack _); vm_compute; reflexivity).
Qed.

Lemma FILES_NoDup : NoDup FILES.*1.
Proof. apply (bool_decide_unpack _). vm_compute. reflexivity. Qed.

(** What loading one file leaves behind, by outcome. *)
Lemma load_table_inv chunk table path cols pk w o w' :
  w_aborted w = false → wf_descriptor cols pk →
  load_table_with now coerce fs chunk table path cols pk w = (o, w') →
  w_durable w' = w_durable w
  ∧ db_audit (w_txn w') = db_audit (w_txn w)
  ∧ match o with
    | Ok st =>
        w_aborted w' = false
        ∧ ∃ f, fs path = Some f
               ∧ st = {| rows_submitted := length (DictReader f) |}
               ∧ w_clock w' = w_clock w + length (DictReader f)
               ∧ (∀ row, row ∈ DictReader f → ¬ malformed coerce table cols row)
               ∧ csv_error f = None
    | Raised (DatabaseError _) => w_aborted w' = true
    | Raised (KeyError c) =>
        w' = w ∧ ∃ f row rest,
          fs path = Some f ∧ DictReader f = row :: rest ∧ c ∈ cols ∧ row !! c = None
    | Raised (FileNotFoundError _) => w' = w ∧ fs path = None
    | Raised (ReadError msg) =>
        w_aborted w' = false ∧ ∃ f, fs path = Some f ∧ csv_error f = Some msg
    end.
Proof.
  intros Hab Hwf Hload. destruct (fs path) as [f|] eqn:Hfs.
  - destruct (load_table_cases now coerce fs table path cols pk f w Hfs Hab)
      as [(row & rest & c & Hr & Hc & Hn & Hl)|[Hall Hl]].
    + rewrite (Hl chunk) in Hload. injection Hload as <- <-.
      split_and!; try done. by exists f, row, rest.
    + destruct (csv_error f) as [msg|] eqn:Herr.
      { pose proof (load_table_read_error now coerce fs chunk table path cols pk f msg w
                      Hfs Herr Hab Hall) as (Ho & Hd & Ha).
        rewrite Hload in Ho, Hd, Ha. simpl in Ho, Hd, Ha. split_and!; [done|done|].
        destruct Ho as [[-> Hab']|[[e ->] Hab']]; [|done].
        split; [done|]. by exists f. }
      destruct (Hl eq_refl chunk) as (w1 & Hl1 & Ht & Hd & Ha & Hck).
      rewrite Hl1 in Hload. injection Hload as <- <-.
      split_and!; [done|by rewrite Ht, exec_seq_audit|].
      destruct (Storage.exec_seq coerce _ _ (w_txn w)).1 as [e|] eqn:He.
      * by rewrite Ha.
      * split; [by rewrite Ha|]. exists f. split_and!; try done; [by apply Hck|].
        intros row Hrow (c & Hc & Hbad).
        apply list_elem_of_lookup in Hrow as [i Hi].
        apply exec_seq_None_proposed in He. rewrite Forall_lookup in He.
        destruct (He i (values row cols ++ [PTime (now (w_clock w + i))])) as [ex Hex].
        { by rewrite params_of_lookup, Hi. }
        destruct (proposed_row_upsert_sql coerce table cols pk row _ ex Hwf Hex)
          as (Hcols & _).
        destruct (Hcols c Hc) as [Heq [v Hv]].
        destruct (Hall row) with (c := c) as [v' Hv'];
          [by eapply list_elem_of_lookup_2|done|].
        destruct Hbad as [Hbad|(v'' & Hv'' & Hbad)]; [congruence|].
        rewrite Hv'' in Heq. simpl in Heq. congruence.
  - unfold load_table_with in Hload. rewrite Hfs in Hload.
    injection Hload as <- <-. done.
Qed.

Lemma load_table_ok_not_aborted chunk table path cols pk w st w' :
  w_aborted w = false →
  load_table_with now coerce fs chunk table path cols pk w = (Ok st, w') →
  w_aborted w' = false.
Proof.
  intros Hab Hload. unfold load_table_with in Hload.
  destruct (fs path) as [f|] eqn:Hfs; [|done].
  unfold mbind, M_bind in Hload.
  destruct (DictReader_uniform f cols) as [Hall|(row & rest & c & Hr & Hg & _)].
  - destruct (csv_error f) as [msg|].
    { pose proof (load_rows_read_error now coerce chunk (upsert_sql table cols pk) cols msg
                    (DictReader f) [] 0 w Hab Hall) as (Ho & _).
      destruct (load_rows now coerce chunk _ cols (Some msg) (DictReader f) [] 0 w)
        as [[n|e] w1]; [|done].
      simpl in Ho. destruct Ho as [[? _]|[[? ?] _]]; done. }
    destruct (load_rows_spec now coerce chunk (upsert_sql table cols pk) cols
                (DictReader f) [] 0 w Hab Hall) as (w1 & Hl & _ & _ & Ha & _).
    rewrite Hl in Hload. simpl in Hload, Ha.
    destruct (Storage.exec_seq coerce _ _ (w_txn w)).1; [done|].
    injection Hload as _ <-. by rewrite Ha.
  - by rewrite Hr, load_rows_cons, Hg in Hload.
Qed.

(** What the loop over [FILES] leaves behind, by outcome. *)
Lemma load_all_inv chunk files : ∀ details w o w',
  w_aborted w = false →
  Forall (λ entry : string * (string * list string * string),
            wf_descriptor entry.2.1.2 entry.2.2) files →
  load_all now coerce fs DATA_DIR chunk files details w = (o, w') →
  w_durable w' = w_durable w
  ∧ db_audit (w_txn w') = db_audit (w_txn w)
  ∧ match o with
    | Ok d =>
        w_aborted w' = false
        ∧ w_clock w ≤ w_clock w'
        ∧ (∀ t, t ∉ files.*1 → d !! t = details !! t)
        ∧ (NoDup files.*1 →
           ∀ table filename cols pk, (table, (filename, cols, pk)) ∈ files →
             ∃ f, fs (os_path_join DATA_DIR filename) = Some f
                  ∧ d !! table = Some {| rows_submitted := length (DictReader f) |}
                  ∧ (∀ row, row ∈ DictReader f → ¬ malformed coerce table cols row)
                  ∧ csv_error f = None)
    | Raised (DatabaseError _) => w_aborted w' = true
    | Raised (KeyError c) =>
        w_aborted w' = false
        ∧ ∃ table filename cols pk f row,
            (table, (filename, cols, pk)) ∈ files
            ∧ fs (os_path_join DATA_DIR filename) = Some f
            ∧ row ∈ DictReader f ∧ c ∈ cols ∧ row !! c = None
    | Raised (FileNotFoundError _) =>
        w_aborted w' = false
        ∧ ∃ table filename cols pk,
            (table, (filename, cols, pk)) ∈ files
            ∧ fs (os_path_join DATA_DIR filename) = None
    | Raised (ReadError msg) =>
        w_aborted w' = false
        ∧ ∃ table filename cols pk f,
            (table, (filename, cols, pk)) ∈ files
            ∧ fs (os_path_join DATA_DIR filename) = Some f
            ∧ csv_error f = Some msg
    end.
Proof.
  induction files as [|[table [[filename cols] pk]] files IH];
    intros details w o w' Hab Hwf Hload.
  - injection Hload as <- <-. split_and!; try done.
    intros _ ???? ?%elem_of_nil. done.
  - apply Forall_cons in Hwf as [Hwf1 Hwf]. simpl in Hwf1.
    simpl in Hload. unfold mbind, M_bind in Hload.
    destruct (load_table_with now coerce fs chunk table _ cols pk w) as [o1 w1] eqn:Hl1.
    apply (load_table_inv chunk table _ cols pk) in Hl1 as (Hd1 & Ha1 & Ho1); [|done..].
    destruct o1 as [st|e1].
    + destruct Ho1 as (Hab1 & f & Hf & -> & Hck1 & Hmal & Herr).
      apply IH in Hload as (Hd & Ha & Ho); [|done..].
      split_and!; [congruence|congruence|].
      destruct o as [d|[p|c|e|msg]].
      * destruct Ho as (Hab' & Hck & Hout & Hin). split_and!; [done|lia| |].
        -- intros t Ht. rewrite Hout.
           ++ rewrite lookup_insert_ne; [done|]. intros ->. apply Ht. by left.
           ++ intros ?. apply Ht. by right.
        -- intros Hnd table' filename' cols' pk' Hin'.
           apply NoDup_cons in Hnd as [Hnin Hnd].
           apply elem_of_cons in Hin' as [[= -> -> -> ->]|Hin'].
           ++ exists f. split_and!; try done.
              rewrite Hout by done. apply lookup_insert_eq.
           ++ by apply (Hin Hnd table' filename' cols' pk').
      * destruct Ho as (Hab' & t' & f' & c' & p' & Hin' & Hn). split; [done|].
        exists t', f', c', p'. split; [by right|done].
      * destruct Ho as (Hab' & t' & f' & c' & p' & f0 & row & Hin' & Hrest). split; [done|].
        exists t', f', c', p', f0, row. split; [by right|done].
      * done.
      * destruct Ho as (Hab' & t' & f' & c' & p' & f0 & Hin' & Hrest). split; [done|].
        exists t', f', c', p', f0. split; [by right|done].
    + injection Hload as <- <-. split_and!; [done|done|].
      destruct e1 as [p|c|e|msg].
      * destruct Ho1 as [-> Hn]. split; [done|].
        exists table, filename, cols, pk. split; [by left|done].
      * destruct Ho1 as (-> & f & row & rest & Hf & Hr & Hc & Hn). split; [done|].
        exists table, filename, cols, pk, f, row.
        split_and!; try done; [by left|rewrite Hr; by left].
      * done.
      * destruct Ho1 as (Hab1 & f & Hf & Herr). split; [done|].
        exists table, filename, cols, pk, f. split; [by left|done].
Qed.

(** When its preconditions fail [main] raises before its [try]
    statement and nothing becomes durable. *)
Lemma main_not_reached chunk w :
  ¬ reaches_try fs DATA_DIR uuid4 w →
  ∃ e w', main_with now coerce fs DATA_DIR LOAD_DATE uuid4 chunk w = (Raised e, w')
          ∧ w_durable w' = w_durable w.
Proof.
  intros Hn. unfold main_with. unfold mbind at 1 2. unfold M_bind at 1 2.
  unfold utcnow at 1.
  destruct (decide (Forall (λ entry : string * (string * list string * string),
              is_Some (fs (os_path_join DATA_DIR entry.2.1.1))) FILES)) as [Hfiles|Hfiles].
  2:{ destruct (check_files_Raised FILES (tick w) Hfiles) as (path & -> & _).
      by eexists _, _. }
  rewrite check_files_Ok by done.
  unfold Psycopg.connect. unfold mbind at 1 2. unfold M_bind at 1 2.
  destruct (decide (Forall (λ entry : string * (string * list string * string),
              is_Some (db_tables (w_durable w) !! entry.1)) FILES)) as [Htabs|Htabs].
  2:{ edestruct (ddl_Raised (set_aborted false (set_txn (w_durable (tick w)) (tick w))))
        as (e & w' & -> & Hd); [done|done|]. by eexists _, _. }
  rewrite ddl_Ok by done.
  unfold Psycopg.execute at 1. cbn [w_aborted set_aborted w_txn set_txn tick].
  unfold Storage.insert_audit. cbn [batch_id db_audit].
  case_bool_decide as Hid.
  - by eexists _, _.
  - exfalso. apply Hn. split; [|done].
    apply Forall_forall. intros entry Hentry.
    rewrite Forall_forall in Hfiles, Htabs. split; [by apply Hfiles|by apply Htabs].
Qed.

(** When its preconditions hold, what [main] returns and what it leaves
    durable follow from the outcome of the loop over [FILES]. *)
Lemma main_reached chunk w :
  reaches_try fs DATA_DIR uuid4 w →
  ∃ w',
    match load_all now coerce fs DATA_DIR chunk FILES ∅ (begin_world now LOAD_DATE uuid4 w) with
    | (Ok d, w1) =>
        main_with now coerce fs DATA_DIR LOAD_DATE uuid4 chunk w = (Ok tt, w')
        ∧ w_durable w' =
            Storage.mark_finished (now (w_clock w1)) "succeeded" (JStats d) uuid4 (w_txn w1)
    | (Raised e, w1) =>
        if w_aborted w1
        then main_with now coerce fs DATA_DIR LOAD_DATE uuid4 chunk w
               = (Raised (DatabaseError InFailedSqlTransaction), w')
             ∧ w_durable w' = w_durable w
        else main_with now coerce fs DATA_DIR LOAD_DATE uuid4 chunk w = (Raised e, w')
             ∧ w_durable w' =
                 Storage.mark_finished (now (w_clock w1)) "failed" (JError e) uuid4 (w_txn w1)
    end.
Proof.
  intros Hreach. rewrite main_begin by done.
  unfold try_except, try_suite, except_suite, leave_connection, mbind, M_bind, utcnow,
    Psycopg.execute, Storage.update_audit, Psycopg.commit, Psycopg.rollback, raise.
  cbv beta.
  destruct (load_all now coerce fs DATA_DIR chunk FILES ∅ (begin_world now LOAD_DATE uuid4 w))
    as [[d|e] w1] eqn:Hl;
    apply load_all_inv in Hl as (Hd & Ha & Ho); try done; try apply FILES_wf.
  - destruct Ho as (Hab & _).
    cbn [w_aborted tick set_txn w_txn w_clock]. rewrite Hab.
    eexists. split; [reflexivity|]. simpl. by rewrite ?Hab.
  - cbn [w_aborted tick set_txn w_txn w_clock].
    destruct (w_aborted w1) eqn:Hab.
    + eexists. split; [reflexivity|]. simpl. by rewrite ?Hab.
    + cbn [w_aborted tick set_txn w_txn w_clock snd w_durable].
      eexists. split; [reflexivity|]. simpl. by rewrite ?Hab.
Qed.

Lemma audit_rows_of_mark finished st d old r tables :
  uuid4 ∉ batch_id <$> old → batch_id r = uuid4 →
  audit_rows_of uuid4
    (Storage.mark_finished finished st d uuid4 {| db_tables := tables; db_audit := old ++ [r] |})
  = [ {| batch_id := uuid4; load_date := load_date r; started_at_utc := started_at_utc r;
         finished_at_utc := Some finished; status := st; details := d |} ].
Proof.
  intros Hfresh Hr. unfold audit_rows_of, Storage.mark_finished. simpl.
  rewrite fmap_app, filter_app. simpl.
  rewrite decide_True by done. rewrite filter_cons_True by done. rewrite filter_nil.
  rewrite Hr.
  enough (filter (λ r0 : audit_row, batch_id r0 = uuid4)
            ((λ r0 : audit_row,
                if decide (batch_id r0 = uuid4)
                then {| batch_id := batch_id r0; load_date := load_date r0;
                        started_at_utc := started_at_utc r0;
                        finished_at_utc := Some finished; status := st; details := d |}
                else r0) <$> old) = []) as -> by done.
  induction old as [|r0 old IH]; [done|].
  simpl. rewrite fmap_cons, not_elem_of_cons in Hfresh. destruct Hfresh as [Hne Hfresh].
  rewrite decide_False by done. rewrite filter_cons_False by done. by apply IH.
Qed.

(** When its preconditions fail, what [main] does is decided before its
    [try] statement. *)
Lemma prelude_raises (k1 k2 : M unit) w :
  ¬ reaches_try fs DATA_DIR uuid4 w →
  (started ← utcnow now;
   check_files fs DATA_DIR FILES;;
   Psycopg.connect (
     for_each DDL (λ stmt, Psycopg.execute (Storage.exec_ddl stmt));;
     Psycopg.execute (Storage.insert_audit
       {| batch_id := uuid4; load_date := LOAD_DATE; started_at_utc := started;
          finished_at_utc := None; status := "running"; details := JStats ∅ |});;
     k1)) w
  = (started ← utcnow now;
     check_files fs DATA_DIR FILES;;
     Psycopg.connect (
       for_each DDL (λ stmt, Psycopg.execute (Storage.exec_ddl stmt));;
       Psycopg.execute (Storage.insert_audit
         {| batch_id := uuid4; load_date := LOAD_DATE; started_at_utc := started;
            finished_at_utc := None; status := "running"; details := JStats ∅ |});;
       k2)) w.
Proof.
  intros Hn. unfold mbind, M_bind, utcnow.
  destruct (decide (Forall (λ entry : string * (string * list string * string),
              is_Some (fs (os_path_join DATA_DIR entry.2.1.1))) FILES)) as [Hfiles|Hfiles].
  2:{ by destruct (check_files_Raised FILES (tick w) Hfiles) as (path & -> & _). }
  rewrite check_files_Ok by done.
  unfold Psycopg.connect.
  destruct (decide (Forall (λ entry : string * (string * list string * string),
              is_Some (db_tables (w_durable w) !! entry.1)) FILES)) as [Htabs|Htabs].
  2:{ edestruct (ddl_Raised (set_aborted false (set_txn (w_durable (tick w)) (tick w))))
        as (e & w' & He & _); [done|done|].
      unfold mbind, M_bind in He. by rewrite He. }
  pose proof (ddl_Ok (set_aborted false (set_txn (w_durable (tick w)) (tick w)))
                eq_refl Htabs) as Hddl.
  unfold mbind, M_bind in Hddl. rewrite Hddl.
  unfold Psycopg.execute. cbn [w_aborted set_aborted w_txn set_txn tick].
  unfold Storage.insert_audit. cbn [batch_id db_audit].
  case_bool_decide as Hid; [done|].
  exfalso. apply Hn. split; [|done].
  apply Forall_forall. intros entry Hentry.
  rewrite Forall_forall in Hfiles, Htabs. split; [by apply Hfiles|by apply Htabs].
Qed.

(** When the files are read to their end, the loop over [FILES] does the
    same for any two chunk sizes. *)
Lemma load_all_chunk_indep chunk1 chunk2 files : ∀ details w1 w2,
  Forall (λ entry : string * (string * list string * string),
            ∀ f, fs (os_path_join DATA_DIR entry.2.1.1) = Some f → csv_error f = None)
         files →
  w_aborted w1 = false → w_aborted w2 = false →
  w_clock w1 = w_clock w2 → w_txn w1 = w_txn w2 → w_durable w1 = w_durable w2 →
  (load_all now coerce fs DATA_DIR chunk1 files details w1).1
    = (load_all now coerce fs DATA_DIR chunk2 files details w2).1
  ∧ w_txn (load_all now coerce fs DATA_DIR chunk1 files details w1).2
    = w_txn (load_all now coerce fs DATA_DIR chunk2 files details w2).2
  ∧ w_durable (load_all now coerce fs DATA_DIR chunk1 files details w1).2
    = w_durable (load_all now coerce fs DATA_DIR chunk2 files details w2).2
  ∧ w_aborted (load_all now coerce fs DATA_DIR chunk1 files details w1).2
    = w_aborted (load_all now coerce fs DATA_DIR chunk2 files details w2).2
  ∧ (w_aborted (load_all now coerce fs DATA_DIR chunk1 files details w1).2 = false →
     w_clock (load_all now coerce fs DATA_DIR chunk1 files details w1).2
       = w_clock (load_all now coerce fs DATA_DIR chunk2 files details w2).2).
Proof.
  induction files as [|[table [[filename cols] pk]] files IH];
    intros details w1 w2 Hread Hab1 Hab2 Hck Htx Hdu; [simpl; split_and!; congruence|].
  apply Forall_cons in Hread as [Hread1 Hread]. simpl in Hread1.
  cbn [load_all]. cbv zeta. unfold mbind, M_bind.
  pose proof (load_table_chunk_indep now coerce fs chunk1 chunk2 table
                (os_path_join DATA_DIR filename) cols pk w1 w2 Hread1 Hab1 Hab2 Hck Htx Hdu)
    as (Ho & Ht & Hd & Ha & Hc).
  destruct (load_table_with now coerce fs chunk1 table (os_path_join DATA_DIR filename)
              cols pk w1) as [o1 w1'] eqn:Hl1.
  destruct (load_table_with now coerce fs chunk2 table (os_path_join DATA_DIR filename)
              cols pk w2) as [o2 w2'] eqn:Hl2.
  simpl in Ho, Ht, Hd, Ha, Hc. subst o2.
  destruct o1 as [st|e]; [|done].
  assert (w_aborted w1' = false) as Hab1'.
  { by apply (load_table_ok_not_aborted chunk1 table (os_path_join DATA_DIR filename)
                 cols pk w1 st w1'). }
  apply IH; try done; [congruence|by apply Hc].
Qed.

(** X22: when every configured file is read to its end, the whole run
    returns the same outcome and commits the same state for any two
    chunk sizes: the size written in [load_table] then decides nothing
    but the number of round-trips.  (A read error in the middle of a
    file leaves the loop after the full chunks before it were
    submitted, and those depend on the chunk size.) *)
Lemma main_chunking_transparency chunk1 chunk2 w :
  files_readable fs DATA_DIR →
  (main_with now coerce fs DATA_DIR LOAD_DATE uuid4 chunk1 w).1
    = (main_with now coerce fs DATA_DIR LOAD_DATE uuid4 chunk2 w).1
  ∧ w_durable (main_with now coerce fs DATA_DIR LOAD_DATE uuid4 chunk1 w).2
    = w_durable (main_with now coerce fs DATA_DIR LOAD_DATE uuid4 chunk2 w).2.
Proof.
  intros Hread.
  destruct (decide (reaches_try fs DATA_DIR uuid4 w)) as [Hreach|Hn].
  - destruct (main_reached chunk1 w Hreach) as [w1' H1].
    destruct (main_reached chunk2 w Hreach) as [w2' H2].
    pose proof (load_all_chunk_indep chunk1 chunk2 FILES ∅
                  (begin_world now LOAD_DATE uuid4 w) (begin_world now LOAD_DATE uuid4 w)
                  Hread eq_refl eq_refl eq_refl eq_refl eq_refl) as (Ho & Ht & Hd & Ha & Hc).
    destruct (load_all now coerce fs DATA_DIR chunk1 FILES ∅ _) as [o1 v1] eqn:Hl1.
    destruct (load_all now coerce fs DATA_DIR chunk2 FILES ∅ _) as [o2 v2] eqn:Hl2.
    simpl in Ho, Ht, Hd, Ha, Hc. subst o2.
    apply load_all_inv in Hl1 as (_ & _ & Hinv); [|done|apply FILES_wf].
    destruct o1 as [d|e].
    + destruct Hinv as (Hab & _). destruct H1 as [-> H1], H2 as [-> H2]. simpl.
      split; [done|]. by rewrite H1, H2, Ht, (Hc Hab).
    + rewrite <- Ha in H2. destruct (w_aborted v1) eqn:Hab;
        destruct H1 as [-> H1], H2 as [-> H2]; simpl.
      * split; [done|]. by rewrite H1, H2.
      * split; [done|]. by rewrite H1, H2, Ht, (Hc eq_refl).
  - assert (main_with now coerce fs DATA_DIR LOAD_DATE uuid4 chunk1 w
            = main_with now coerce fs DATA_DIR LOAD_DATE uuid4 chunk2 w) as ->; [|done].
    unfold main_with. by apply prelude_raises.
Qed.

(** C6: when the source of a configured dataset is absent, [main] raises
    the precondition error before opening any unit of work: nothing is
    written to the ledger or to any table, durably or in a transaction,
    and no round-trip is made. *)
Theorem missing_source_fails_fast w table filename cols pk :
  (table, (filename, cols, pk)) ∈ FILES →
  fs (os_path_join DATA_DIR filename) = None →
  ∃ path w',
    main now coerce fs DATA_DIR LOAD_DATE uuid4 w = (Raised (FileNotFoundError path), w')
    ∧ fs path = None
    ∧ w_durable w' = w_durable w
    ∧ w_txn w' = w_txn w
    ∧ w_aborted w' = w_aborted w
    ∧ w_round_trips w' = w_round_trips w.
Proof.
  intros Hin Hnone. unfold main, main_with.
  unfold mbind at 1 2. unfold M_bind at 1 2. unfold utcnow at 1.
  destruct (check_files_Raised FILES (tick w)) as (path & -> & Hpath).
  - intros Hall. rewrite Forall_forall in Hall. specialize (Hall _ Hin).
    simpl in Hall. rewrite Hnone in Hall. by destruct Hall.
  - by exists path, (tick w).
Qed.

(** C7, as the code has it: after a successful run the ledger holds
    exactly one row for the run's batch identifier; it has status
    [succeeded], its start and finish timestamps are two readings of the
    wall clock, the finish one taken later, and its details have exactly
    one entry per configured dataset, whose count is the number of
    records of its file, read to its end.  (Whether the finish
    timestamp is not before the start timestamp is for the clock to
    decide.) *)
Theorem audit_completeness w :
  (main now coerce fs DATA_DIR LOAD_DATE uuid4 w).1 = Ok tt →
  ∃ k d,
    audit_rows_of uuid4 (w_durable (main now coerce fs DATA_DIR LOAD_DATE uuid4 w).2) =
      [ {| batch_id := uuid4; load_date := LOAD_DATE; started_at_utc := now (w_clock w);
           finished_at_utc := Some (now k); status := "succeeded";
           details := JStats d |} ]
    ∧ w_clock w < k
    ∧ dom d = list_to_set FILES.*1
    ∧ ∀ table filename cols pk,
        (table, (filename, cols, pk)) ∈ FILES →
        ∃ f, fs (os_path_join DATA_DIR filename) = Some f
             ∧ csv_error f = None
             ∧ d !! table = Some {| rows_submitted := length (DictReader f) |}.
Proof.
  intros Hmain. unfold main in *.
  destruct (decide (reaches_try fs DATA_DIR uuid4 w)) as [Hreach|Hn].
  2:{ destruct (main_not_reached CHUNK_SIZE w Hn) as (e & w0 & He & _).
      rewrite He in Hmain. done. }
  destruct (main_reached CHUNK_SIZE w Hreach) as [w0 Hcase].
  destruct (load_all now coerce fs DATA_DIR CHUNK_SIZE FILES ∅
              (begin_world now LOAD_DATE uuid4 w)) as [[d|e] w1] eqn:Hl.
  2:{ destruct (w_aborted w1); destruct Hcase as [He _]; rewrite He in Hmain; done. }
  destruct Hcase as [He Hd]. rewrite He. cbn [fst snd].
  apply load_all_inv in Hl as (_ & Ha & Hab & Hck & Hout & Hin);
    [|done|apply FILES_wf].
  exists (w_clock w1), d. split_and!.
  - rewrite Hd. destruct (w_txn w1) as [tables audit]. simpl in Ha. subst audit.
    rewrite (audit_rows_of_mark _ _ _ _ (running_row LOAD_DATE uuid4 (now (w_clock w))));
      [done| |done].
    apply Hreach.
  - simpl in Hck. lia.
  - apply set_eq. intros t. rewrite elem_of_dom, elem_of_list_to_set.
    split.
    + intros Hsome. destruct (decide (t ∈ FILES.*1)) as [|Hnin]; [done|].
      rewrite (Hout t Hnin), lookup_empty in Hsome. by destruct Hsome.
    + intros ([t' [[fn cs] p]] & -> & Hentry)%list_elem_of_fmap.
      destruct (Hin FILES_NoDup t' fn cs p Hentry) as (f & _ & Hdt & _). by eexists.
  - intros table filename cols pk Hentry.
    destruct (Hin FILES_NoDup table filename cols pk Hentry) as (f & Hf & Hdt & _ & Herr).
    by exists f.
Qed.

(** C1, as the code has it: when loading fails by an error that is not
    the storage engine's (a record lacks a declared column, or a file
    cannot be read to its end), the ledger
    is left with exactly one row for the batch identifier, with status
    [failed] and a finish timestamp, and everything the transaction held
    when the error was raised is committed with it. *)
Theorem failed_audit_trace w e :
  reaches_try fs DATA_DIR uuid4 w →
  (load_all now coerce fs DATA_DIR CHUNK_SIZE FILES ∅ (begin_world now LOAD_DATE uuid4 w)).1
    = Raised e →
  (∀ d, e ≠ DatabaseError d) →
  (main now coerce fs DATA_DIR LOAD_DATE uuid4 w).1 = Raised e
  ∧ (∃ finished,
       audit_rows_of uuid4 (w_durable (main now coerce fs DATA_DIR LOAD_DATE uuid4 w).2) =
         [ {| batch_id := uuid4; load_date := LOAD_DATE; started_at_utc := now (w_clock w);
              finished_at_utc := Some finished; status := "failed";
              details := JError e |} ])
  ∧ db_tables (w_durable (main now coerce fs DATA_DIR LOAD_DATE uuid4 w).2)
    = db_tables (w_txn (load_all now coerce fs DATA_DIR CHUNK_SIZE FILES ∅
                          (begin_world now LOAD_DATE uuid4 w)).2).
Proof.
  intros Hreach Hl Hne. unfold main.
  destruct (main_reached CHUNK_SIZE w Hreach) as [w' Hcase].
  destruct (load_all now coerce fs DATA_DIR CHUNK_SIZE FILES ∅
              (begin_world now LOAD_DATE uuid4 w)) as [o w1] eqn:Hload.
  simpl in Hl. subst o.
  apply load_all_inv in Hload as (_ & Ha & Ho); [|done|apply FILES_wf].
  assert (w_aborted w1 = false) as Hab.
  { destruct e as [p|c|d|msg]; [apply Ho|apply Ho| |apply Ho]. by destruct (Hne d). }
  rewrite Hab in Hcase. destruct Hcase as [Hmain Hd]. rewrite Hmain. cbn [fst snd].
  split_and!; [done| |by rewrite Hd].
  exists (now (w_clock w1)).
  rewrite Hd. destruct (w_txn w1) as [tables audit]. simpl in Ha. subst audit.
  rewrite (audit_rows_of_mark _ _ _ _ (running_row LOAD_DATE uuid4 (now (w_clock w))));
    [done| |done].
  apply Hreach.
Qed.

(** A failure raised by the storage engine leaves the transaction in
    the failed state: the [UPDATE] of the [except] clause is refused, its
    error propagates in place of the original one, and the whole unit of
    work, ledger row included, is rolled back. *)
Lemma storage_error_rolls_back w d w1 :
  reaches_try fs DATA_DIR uuid4 w →
  load_all now coerce fs DATA_DIR CHUNK_SIZE FILES ∅ (begin_world now LOAD_DATE uuid4 w)
    = (Raised (DatabaseError d), w1) →
  ∃ w',
    main now coerce fs DATA_DIR LOAD_DATE uuid4 w
      = (Raised (DatabaseError InFailedSqlTransaction), w')
    ∧ w_durable w' = w_durable w.
Proof.
  intros Hreach Hl. unfold main.
  destruct (main_reached CHUNK_SIZE w Hreach) as [w' Hcase]. rewrite Hl in Hcase.
  apply load_all_inv in Hl as (_ & _ & Ho); [|done|apply FILES_wf].
  simpl in Ho. rewrite Ho in Hcase. by exists w'.
Qed.

End Orchestrator.

(** ** Missing columns *)

(** C2, as the code has it: when the header declares every column, a
    record never makes the loader raise, and a declared column beyond
    the end of a short line is read as [None]. *)
Theorem absent_field_reads_none fieldnames line cols :
  (∀ c, c ∈ cols → c ∈ fieldnames) →
  ∃ vals,
    getitems (dict_row fieldnames line) cols = Ok vals
    ∧ length vals = length cols
    ∧ ∀ i c, cols !! i = Some c → c ∉ take (length line) fieldnames →
             vals !! i = Some PNone.
Proof.
  intros Hcols. exists (values (dict_row fieldnames line) cols). split_and!.
  - apply getitems_Ok. intros c Hc. apply dict_row_is_Some. by apply Hcols.
  - apply length_values.
  - intros i c Hi Hshort. rewrite (values_lookup _ _ _ c Hi).
    rewrite dict_row_short; [done| |done]. apply Hcols. by eapply list_elem_of_lookup_2.
Qed.

Lemma absent_field_reads_none_witness :
  ∃ vals,
    getitems (dict_row Scenario.customers_cols ["2"; "Bob"]) Scenario.customers_cols = Ok vals
    ∧ length vals = length Scenario.customers_cols
    ∧ ∀ i c, Scenario.customers_cols !! i = Some c →
             c ∉ take (length ["2"; "Bob"]) Scenario.customers_cols →
             vals !! i = Some PNone.
Proof. apply absent_field_reads_none. intros c Hc. exact Hc. Defined.

(** C2 as stated fails: a record of a file whose header lacks the
    [supplier] column misses that column, and loading the file raises. *)
Lemma missing_column_raises :
  ∃ row,
    row ∈ DictReader Scenario.products_no_supplier_csv
    ∧ "supplier" ∈ Scenario.products_cols
    ∧ row !! "supplier" = None
    ∧ (load_table Scenario.now Scenario.coerce Scenario.fs_no_supplier
         "public.products" "data/raw/products.csv" Scenario.products_cols "id" Scenario.w0).1
      = Raised (KeyError "supplier").
Proof.
  exists (dict_row ["id"; "name"; "category"; "price"] ["1"; "Mat"; "Sports"; "19.99"]).
  split_and!.
  - simpl. left.
  - apply (bool_decide_unpack _). vm_compute. reflexivity.
  - vm_compute. reflexivity.
  - vm_compute. reflexivity.
Qed.

(** ** The scenario, run *)

Lemma missing_source_fails_fast_witness :
  ∃ path w',
    main Scenario.now Scenario.coerce Scenario.fs_no_products "data/raw" 20000 42%N Scenario.w0
      = (Raised (FileNotFoundError path), w')
    ∧ Scenario.fs_no_products path = None
    ∧ w_durable w' = w_durable Scenario.w0
    ∧ w_txn w' = w_txn Scenario.w0
    ∧ w_aborted w' = w_aborted Scenario.w0
    ∧ w_round_trips w' = w_round_trips Scenario.w0.
Proof.
  apply (missing_source_fails_fast Scenario.now Scenario.coerce Scenario.fs_no_products
           "data/raw" 20000 42%N Scenario.w0
           "public.products" "products.csv" Scenario.products_cols "id").
  - apply (bool_decide_unpack _). vm_compute. reflexivity.
  - vm_compute. reflexivity.
Defined.

Lemma audit_completeness_witness :
  ∃ k d,
    audit_rows_of 42%N (w_durable (main Scenario.now Scenario.coerce Scenario.fs_good "data/raw" 20000 42%N Scenario.w0).2) =
      [ {| batch_id := 42%N; load_date := 20000; started_at_utc := Scenario.now (w_clock Scenario.w0);
           finished_at_utc := Some (Scenario.now k); status := "succeeded";
           details := JStats d |} ]
    ∧ w_clock Scenario.w0 < k
    ∧ dom d = list_to_set FILES.*1
    ∧ ∀ table filename cols pk,
        (table, (filename, cols, pk)) ∈ FILES →
        ∃ f, Scenario.fs_good (os_path_join "data/raw" filename) = Some f
             ∧ csv_error f = None
             ∧ d !! table = Some {| rows_submitted := length (DictReader f) |}.
Proof.
  apply (audit_completeness Scenario.now Scenario.coerce Scenario.fs_good
           "data/raw" 20000 42%N Scenario.w0).
  vm_compute. reflexivity.
Defined.

(** C7 as stated fails: with a wall clock that is set back while the
    files are loaded, the run succeeds and its ledger row has a finish
    timestamp before the start timestamp. *)
Lemma finish_before_start :
  ¬ finish_not_before_start Scenario.now_back Scenario.coerce Scenario.fs_good
      "data/raw" 20000 42%N Scenario.w0.
Proof.
  intros Hclaim.
  destruct Hclaim as (r & finished & Hr & _ & Hfin & Hle); [vm_compute; reflexivity|].
  assert (Hrun : (λ r, (started_at_utc r, finished_at_utc r))
                   <$> audit_rows_of 42%N (w_durable (main Scenario.now_back Scenario.coerce
                         Scenario.fs_good "data/raw" 20000 42%N Scenario.w0).2)
                 = [ (1000, Some 994) ]%Z) by (vm_compute; reflexivity).
  rewrite Hr in Hrun. injection Hrun as Hs Hf.
  rewrite Hfin in Hf. injection Hf as ->. rewrite Hs in Hle. lia.
Qed.

(** The spec's reload scenario: the stored product [Mat] is overwritten
    by the record [Mat Pro]. *)
Lemma upsert_inserts_or_overwrites_witness :
  ∃ rows' new,
    Storage.exec_upsert Scenario.coerce (upsert_sql "public.products" Scenario.products_cols "id") ([PStr "1"; PStr "Mat Pro"; PStr "Sports"; PStr "24.99"; PStr "Acme"] ++ [PTime 1001%Z]) Scenario.db_mat =
      inr {| db_tables := <["public.products" := rows']> (db_tables Scenario.db_mat); db_audit := db_audit Scenario.db_mat |}
    ∧ NoDup (keys "id" rows')
    ∧ row_for "id" (new !! "id") rows' = Some new
    ∧ (∀ c, c ∈ Scenario.products_cols → new !! c = Scenario.coerce "public.products" c (default PNone (Scenario.mat_pro_record !! c)))
    ∧ new !! "_ingested_at" = Scenario.coerce "public.products" "_ingested_at" (PTime 1001%Z)
    ∧ (∀ k, k ≠ new !! "id" → row_for "id" k rows' = row_for "id" k [Scenario.mat])
    ∧ match row_for "id" (new !! "id") [Scenario.mat] with
      | None =>
          rows' = [Scenario.mat] ++ [new]
          ∧ ∀ c, c ∉ Scenario.products_cols → c ≠ "_ingested_at" → new !! c = None
      | Some old =>
          length rows' = length [Scenario.mat]
          ∧ ∀ c, c ∉ Scenario.products_cols → c ≠ "_ingested_at" → new !! c = old !! c
      end.
Proof.
  apply (upsert_inserts_or_overwrites Scenario.coerce "public.products" Scenario.products_cols
           "id" Scenario.mat_pro_record _ 1001%Z Scenario.db_mat [Scenario.mat]).
  - scenario_decide.
  - vm_compute. reflexivity.
  - scenario_decide.
  - vm_compute. reflexivity.
  - scenario_cols.
  - vm_compute. by eexists.
  - vm_compute. discriminate.
Defined.


(** The customers file of the scenario holds the key [1] twice. *)
Lemma duplicate_keys_last_wins_witness :
  ∃ w' rows',
    load_table Scenario.now Scenario.coerce Scenario.fs_good "public.customers" "data/raw/customers.csv" Scenario.customers_cols "id" Scenario.w0 =
      (Ok {| rows_submitted := length (DictReader Scenario.customers_csv) |}, w')
    ∧ db_tables (w_txn w') !! "public.customers" = Some rows'
    ∧ NoDup (keys "id" rows')
    ∧ ∀ i row,
        DictReader Scenario.customers_csv !! i = Some row →
        (∀ j row', i < j → DictReader Scenario.customers_csv !! j = Some row' →
                   stored_key Scenario.coerce "public.customers" "id" row' ≠ stored_key Scenario.coerce "public.customers" "id" row) →
        ∃ r, row_for "id" (stored_key Scenario.coerce "public.customers" "id" row) rows' = Some r
          ∧ (∀ c, c ∈ Scenario.customers_cols → r !! c = row !! c ≫= Scenario.coerce "public.customers" c)
          ∧ r !! "_ingested_at"
              = Scenario.coerce "public.customers" "_ingested_at" (PTime (Scenario.now (w_clock Scenario.w0 + i))).
Proof.
  apply (duplicate_keys_last_wins Scenario.now Scenario.coerce Scenario.fs_good
           "public.customers" "data/raw/customers.csv" Scenario.customers_cols "id"
           Scenario.customers_csv Scenario.w0 []).
  - scenario_decide.
  - reflexivity.
  - reflexivity.
  - vm_compute. reflexivity.
  - apply NoDup_nil_2.
  - apply (acceptable_from_lookup Scenario.now Scenario.coerce). scenario_decide.
Defined.

Lemma ingested_at_per_record_witness :
  ∃ w' rows',
    load_table Scenario.now Scenario.coerce Scenario.fs_good "public.customers" "data/raw/customers.csv" Scenario.customers_cols "id" Scenario.w0 =
      (Ok {| rows_submitted := length (DictReader Scenario.customers_csv) |}, w')
    ∧ w_clock w' = w_clock Scenario.w0 + length (DictReader Scenario.customers_csv)
    ∧ db_tables (w_txn w') !! "public.customers" = Some rows'
    ∧ ∀ i row,
        DictReader Scenario.customers_csv !! i = Some row →
        (∀ k row', i < k → DictReader Scenario.customers_csv !! k = Some row' →
                   stored_key Scenario.coerce "public.customers" "id" row' ≠ stored_key Scenario.coerce "public.customers" "id" row) →
        ∃ r,
          row_for "id" (stored_key Scenario.coerce "public.customers" "id" row) rows' = Some r
          ∧ r !! "_ingested_at"
              = Scenario.coerce "public.customers" "_ingested_at" (PTime (Scenario.now (w_clock Scenario.w0 + i))).
Proof.
  apply (ingested_at_per_record Scenario.now Scenario.coerce Scenario.fs_good
           "public.customers" "data/raw/customers.csv" Scenario.customers_cols "id"
           Scenario.customers_csv Scenario.w0 []).
  - scenario_decide.
  - reflexivity.
  - reflexivity.
  - vm_compute. reflexivity.
  - apply (acceptable_from_lookup Scenario.now Scenario.coerce). scenario_decide.
Defined.

(** C10 as stated fails: with a wall clock that is set back between two
    readings, the third record of the customers file, read after the
    second, carries the earlier timestamp. *)
Lemma later_record_earlier_timestamp :
  ¬ later_never_earlier Scenario.now_back Scenario.coerce Scenario.fs_good
      "public.customers" "data/raw/customers.csv" Scenario.customers_cols "id" Scenario.w0.
Proof.
  intros Hclaim.
  pose (rows' := default [] (db_tables (w_txn (load_table Scenario.now_back Scenario.coerce
                   Scenario.fs_good "public.customers" "data/raw/customers.csv"
                   Scenario.customers_cols "id" Scenario.w0).2) !! "public.customers")).
  pose (row_i := default ∅ (DictReader Scenario.customers_csv !! 1)).
  pose (row_j := default ∅ (DictReader Scenario.customers_csv !! 2)).
  pose (r_i := default ∅ (row_for "id" (stored_key Scenario.coerce "public.customers" "id" row_i) rows')).
  pose (r_j := default ∅ (row_for "id" (stored_key Scenario.coerce "public.customers" "id" row_j) rows')).
  assert (999 ≤ 998)%Z; [|lia].
  apply (Hclaim Scenario.customers_csv rows' 1 2 row_i row_j r_i r_j).
  - reflexivity.
  - vm_compute. reflexivity.
  - lia.
  - vm_compute. reflexivity.
  - vm_compute. reflexivity.
  - scenario_decide.
  - scenario_decide.
  - vm_compute. reflexivity.
  - vm_compute. reflexivity.
  - vm_compute. reflexivity.
  - vm_compute. reflexivity.
Qed.

Lemma reload_is_idempotent_witness :
  ∃ w1 v2 v1 rows1 rows2,
    load_table Scenario.now Scenario.coerce Scenario.fs_good "public.customers" "data/raw/customers.csv" Scenario.customers_cols "id" Scenario.w0 =
      (Ok {| rows_submitted := length (DictReader Scenario.customers_csv) |}, w1)
    ∧ load_table Scenario.now Scenario.coerce Scenario.fs_good "public.customers" "data/raw/customers.csv" Scenario.customers_cols "id" (set_txn (w_txn w1) Scenario.w_later) =
        (Ok {| rows_submitted := length (DictReader Scenario.customers_csv) |}, v2)
    ∧ load_table Scenario.now Scenario.coerce Scenario.fs_good "public.customers" "data/raw/customers.csv" Scenario.customers_cols "id" (set_txn (w_txn Scenario.w0) Scenario.w_later) =
        (Ok {| rows_submitted := length (DictReader Scenario.customers_csv) |}, v1)
    ∧ w_txn v2 = w_txn v1
    ∧ db_tables (w_txn w1) !! "public.customers" = Some rows1
    ∧ db_tables (w_txn v2) !! "public.customers" = Some rows2
    ∧ NoDup (keys "id" rows2)
    ∧ delete "_ingested_at" <$> rows2 = delete "_ingested_at" <$> rows1
    ∧ ∀ i row,
        DictReader Scenario.customers_csv !! i = Some row →
        (∀ j row', i < j → DictReader Scenario.customers_csv !! j = Some row' →
                   stored_key Scenario.coerce "public.customers" "id" row' ≠ stored_key Scenario.coerce "public.customers" "id" row) →
        ∃ r, row_for "id" (stored_key Scenario.coerce "public.customers" "id" row) rows2 = Some r
          ∧ r !! "_ingested_at"
              = Scenario.coerce "public.customers" "_ingested_at" (PTime (Scenario.now (w_clock Scenario.w_later + i))).
Proof.
  apply (reload_is_idempotent Scenario.now Scenario.coerce Scenario.fs_good
           "public.customers" "data/raw/customers.csv" Scenario.customers_cols "id"
           Scenario.customers_csv Scenario.w0 Scenario.w_later []).
  - scenario_decide.
  - reflexivity.
  - reflexivity.
  - reflexivity.
  - vm_compute. reflexivity.
  - apply NoDup_nil_2.
  - apply (acceptable_from_lookup Scenario.now Scenario.coerce). scenario_decide.
  - apply (acceptable_from_lookup Scenario.now Scenario.coerce). scenario_decide.
Defined.

(** The scenario with a products file that lacks a column: customers
    load, products raise [KeyError]. *)
Lemma failed_audit_trace_witness :
  (main Scenario.now Scenario.coerce Scenario.fs_no_supplier "data/raw" 20000 42%N Scenario.w0).1 = Raised (KeyError "supplier")
  ∧ (∃ finished,
       audit_rows_of 42%N (w_durable (main Scenario.now Scenario.coerce Scenario.fs_no_supplier "data/raw" 20000 42%N Scenario.w0).2) =
         [ {| batch_id := 42%N; load_date := 20000; started_at_utc := Scenario.now (w_clock Scenario.w0);
              finished_at_utc := Some finished; status := "failed";
              details := JError (KeyError "supplier") |} ])
  ∧ db_tables (w_durable (main Scenario.now Scenario.coerce Scenario.fs_no_supplier "data/raw" 20000 42%N Scenario.w0).2)
    = db_tables (w_txn (load_all Scenario.now Scenario.coerce Scenario.fs_no_supplier "data/raw" CHUNK_SIZE FILES ∅
                          (begin_world Scenario.now 20000 42%N Scenario.w0)).2).
Proof.
  apply (failed_audit_trace Scenario.now Scenario.coerce Scenario.fs_no_supplier
           "data/raw" 20000 42%N Scenario.w0).
  - scenario_decide.
  - vm_compute. reflexivity.
  - intros d. discriminate.
Defined.

(** C1 as stated fails: in that run the rows of the customers file,
    loaded before the failure, are committed with the [failed] row. *)
Lemma failed_run_keeps_earlier_rows :
  ¬ failure_discards_rows Scenario.now Scenario.coerce Scenario.fs_no_supplier
      "data/raw" 20000 42%N Scenario.w0.
Proof.
  intros Hclaim.
  destruct (Hclaim (KeyError "supplier")
              (main Scenario.now Scenario.coerce Scenario.fs_no_supplier "data/raw" 20000 42%N
                    Scenario.w0).2) as [_ Htables].
  - scenario_decide.
  - vm_compute. reflexivity.
  - apply (f_equal (λ m : gmap string (list (gmap string pyval)),
                      length <$> m !! "public.customers")) in Htables.
    vm_compute in Htables. discriminate Htables.
Qed.

(** In the scenario with a quantity that is not an integer the storage
    engine raises, and the run leaves no ledger row at all. *)
Lemma storage_error_leaves_no_audit_row :
  (main Scenario.now Scenario.coerce Scenario.fs_bad_quantity "data/raw" 20000 42%N
        Scenario.w0).1 = Raised (DatabaseError InFailedSqlTransaction)
  ∧ w_durable (main Scenario.now Scenario.coerce Scenario.fs_bad_quantity "data/raw" 20000 42%N
                 Scenario.w0).2 = Scenario.db0.
Proof. split; vm_compute; reflexivity. Qed.

(** In the scenario with a products file that cannot be decoded after
    its second record the run ends in the read error with a [failed]
    ledger row, and what it commits depends on the chunk size: with
    chunks of a thousand the customers only, with chunks of two also
    the two products submitted before the error. *)
Lemma read_error_commits_submitted_chunks :
  let r := main Scenario.now Scenario.coerce Scenario.fs_undecodable "data/raw" 20000 42%N
             Scenario.w0 in
  let r2 := main_with Scenario.now Scenario.coerce Scenario.fs_undecodable "data/raw" 20000
              42%N 2 Scenario.w0 in
  r.1 = Raised (ReadError "'utf-8' codec can't decode byte")
  ∧ r2.1 = r.1
  ∧ Scenario.id_and_status (db_audit (w_durable r.2)) = [ (42%N, "failed") ]
  ∧ length <$> db_tables (w_durable r.2) !! "public.customers" = Some 2
  ∧ length <$> db_tables (w_durable r.2) !! "public.products" = Some 0
  ∧ length <$> db_tables (w_durable r2.2) !! "public.products" = Some 2.
Proof. split_and!; vm_compute; reflexivity. Qed.



(** The rows of the customers file share one chunk and still carry two
    different clock readings: the row of key [2] that of the second
    record, the row of key [1] that of the third. *)
Lemma ingested_at_distinct_in_one_chunk :
  let w' := (load_table Scenario.now Scenario.coerce Scenario.fs_good "public.customers"
               "data/raw/customers.csv" Scenario.customers_cols "id" Scenario.w0).2 in
  w_round_trips w' = 1
  ∧ Scenario.key_and_time <$> db_tables (w_txn w') !! "public.customers"
    = Some [ (Some (PStr "1"), Some (PTime 1002)); (Some (PStr "2"), Some (PTime 1001)) ].
Proof. split; vm_compute; reflexivity. Qed.

(** The reload scenario of the specification: a run that loads the
    product [Mat], then a run that loads [Mat Pro] under the same key.
    One product row is left, with the later values, and the ledger holds
    one [succeeded] row per run. *)
Lemma reload_scenario :
  let w1 := (main Scenario.now Scenario.coerce Scenario.fs_good "data/raw" 20000 1%N
               Scenario.w0).2 in
  let r2 := main Scenario.now Scenario.coerce Scenario.fs_pro "data/raw" 20000 2%N w1 in
  r2.1 = Ok tt
  ∧ Scenario.name_and_price <$> db_tables (w_durable r2.2) !! "public.products"
    = Some [ (Some (PStr "1"), Some (PStr "Mat Pro"), Some (PStr "24.99")) ]
  ∧ Scenario.id_and_status (db_audit (w_durable r2.2))
    = [ (1%N, "succeeded"); (2%N, "succeeded") ].
Proof. split_and!; vm_compute; reflexivity. Qed.

(** ** More on the Batch Submitter *)

Section SubmitterFrame.
Variable now : nat → Z.
Variable coerce : string → string → pyval → option pyval.
Variable fs : string → option csv_file.

Lemma exec_seq_invariant (P : database → Prop) sql batch : ∀ db,
  (∀ p db db', Storage.exec_upsert coerce sql p db = inr db' → P db → P db') →
  P db → P (Storage.exec_seq coerce sql batch db).2.
Proof.
  induction batch as [|p batch IH]; intros db Hstep HP; simpl; [done|].
  destruct (Storage.exec_upsert coerce sql p db) as [e|db'] eqn:He; [done|].
  apply IH; [done|]. by eapply Hstep.
Qed.

Lemma executemany_invariant (P : database → Prop) sql batch w :
  (∀ p db db', Storage.exec_upsert coerce sql p db = inr db' → P db → P db') →
  P (w_txn w) →
  P (w_txn (Psycopg.executemany coerce sql batch w).2)
  ∧ w_durable (Psycopg.executemany coerce sql batch w).2 = w_durable w.
Proof.
  intros Hstep HP. unfold Psycopg.executemany.
  destruct (w_aborted w); [done|].
  pose proof (exec_seq_invariant P sql batch (w_txn w) Hstep HP) as HP'.
  by destruct (Storage.exec_seq coerce sql batch (w_txn w)) as [[e|] db].
Qed.

(** Whatever the records, the chunk size and the state of the
    transaction, the loop only changes the store through the statement
    it submits, and commits nothing. *)
Lemma load_rows_invariant (P : database → Prop) chunk sql cols err reader :
  ∀ batch submitted w,
  (∀ p db db', Storage.exec_upsert coerce sql p db = inr db' → P db → P db') →
  P (w_txn w) →
  P (w_txn (load_rows now coerce chunk sql cols err reader batch submitted w).2)
  ∧ w_durable (load_rows now coerce chunk sql cols err reader batch submitted w).2 = w_durable w.
Proof.
  induction reader as [|row reader IH]; intros batch submitted w Hstep HP.
  - destruct err as [msg|]; [by rewrite load_rows_nil_error|].
    rewrite load_rows_nil. destruct batch as [|p ps]; [done|].
    pose proof (executemany_invariant P sql (p :: ps) w Hstep HP) as [HP' Hd].
    by destruct (Psycopg.executemany coerce sql (p :: ps) w) as [[?|?] w'].
  - rewrite load_rows_cons. destruct (getitems row cols) as [vals|e]; [|done].
    cbv zeta. case_bool_decide.
    + pose proof (executemany_invariant P sql
                    (batch ++ [vals ++ [PTime (now (w_clock w))]]) (tick w) Hstep HP)
        as [HP' Hd].
      destruct (Psycopg.executemany coerce sql _ (tick w)) as [[?|?] w'] eqn:He; [|done].
      simpl in HP', Hd. destruct (IH [] (submitted +
        length (batch ++ [vals ++ [PTime (now (w_clock w))]])) w' Hstep HP') as [HP'' Hd'].
      split; [done|]. by rewrite Hd', Hd.
    + by apply (IH _ submitted (tick w)).
Qed.

Lemma load_table_invariant (P : database → Prop) chunk table path cols pk w :
  (∀ p db db', Storage.exec_upsert coerce (upsert_sql table cols pk) p db = inr db' →
               P db → P db') →
  P (w_txn w) →
  P (w_txn (load_table_with now coerce fs chunk table path cols pk w).2)
  ∧ w_durable (load_table_with now coerce fs chunk table path cols pk w).2 = w_durable w.
Proof.
  intros Hstep HP. unfold load_table_with. destruct (fs path) as [f|]; [|done].
  unfold mbind, M_bind.
  pose proof (load_rows_invariant P chunk (upsert_sql table cols pk) cols (csv_error f)
                (DictReader f) [] 0 w Hstep HP) as HP'.
  by destruct (load_rows now coerce chunk _ cols (csv_error f) (DictReader f) [] 0 w)
    as [[?|?] w'].
Qed.

Lemma exec_upsert_frame sql p db db' :
  Storage.exec_upsert coerce sql p db = inr db' →
  db_audit db' = db_audit db
  ∧ ∀ t, t ≠ u_table sql → db_tables db' !! t = db_tables db !! t.
Proof.
  intros (rows & ex & _ & _ & ->)%exec_upsert_inr. simpl. split; [done|].
  intros t Ht. by rewrite lookup_insert_ne.
Qed.

(** X1: loading one dataset never commits, never writes to the ledger
    and never touches a table other than its own, whatever the outcome
    of the load and the state of the transaction. *)
Theorem load_table_touches_only_its_table table path cols pk w :
  w_durable (load_table now coerce fs table path cols pk w).2 = w_durable w
  ∧ db_audit (w_txn (load_table now coerce fs table path cols pk w).2) = db_audit (w_txn w)
  ∧ ∀ t, t ≠ table →
      db_tables (w_txn (load_table now coerce fs table path cols pk w).2) !! t
        = db_tables (w_txn w) !! t.
Proof.
  unfold load_table.
  destruct (load_table_invariant
              (λ db, db_audit db = db_audit (w_txn w)
                     ∧ ∀ t, t ≠ table → db_tables db !! t = db_tables (w_txn w) !! t)
              CHUNK_SIZE table path cols pk w) as [[Ha Ht] Hd]; [|done|done].
  intros p db db' He [Ha Ht].
  apply exec_upsert_frame in He as [Ha' Ht']. simpl in Ht'. split; [congruence|].
  intros t Hne. by rewrite Ht', Ht.
Qed.

Lemma DictReader_nil f :
  Forall (λ line : list string, line = []) (tail f) → DictReader f = [].
Proof.
  destruct f as [|fieldnames lines]; [done|]. simpl. intros Hall.
  induction Hall as [|line lines -> _ IH]; [done|].
  by rewrite filter_cons_False by (by intros ?).
Qed.

(** X2: a file without data lines (empty, or a header followed by empty
    lines only), read to its end, loads as zero records: nothing is
    submitted, the clock is not read, and neither the header nor the
    table is looked at, so the load succeeds even when the header lacks
    declared columns. *)
Theorem load_table_no_records table path cols pk f w :
  fs path = Some (readable f) →
  Forall (λ line : list string, line = []) (tail f) →
  load_table now coerce fs table path cols pk w = (Ok {| rows_submitted := 0 |}, w).
Proof.
  intros Hfs Hall. unfold load_table, load_table_with. rewrite Hfs. simpl.
  by rewrite (DictReader_nil f Hall).
Qed.

(** X3: when the header of a file with at least one data line lacks a
    declared column, the load raises [KeyError] for the first such
    column in the order of the descriptor, before it reads the clock or
    submits anything, and whether or not the rest of the file can be
    read: the world is left as it was. *)
Theorem load_table_missing_header_column table path pk fieldnames lines err line present c
    rest w :
  fs path = Some {| csv_lines := fieldnames :: lines; csv_error := err |} →
  line ∈ lines → line ≠ [] →
  Forall (λ c', c' ∈ fieldnames) present →
  c ∉ fieldnames →
  load_table now coerce fs table path (present ++ c :: rest) pk w
    = (Raised (KeyError c), w).
Proof.
  intros Hfs Hline Hne Hpresent Hc. unfold load_table, load_table_with. rewrite Hfs.
  unfold mbind, M_bind. cbn [csv_lines csv_error].
  destruct (DictReader (fieldnames :: lines)) as [|row reader] eqn:Hr.
  { exfalso. simpl in Hr. apply fmap_nil_inv in Hr.
    assert (line ∈ filter (λ l : list string, l ≠ []) lines) as Hin
      by (by apply list_elem_of_filter).
    rewrite Hr in Hin. by apply elem_of_nil in Hin. }
  rewrite load_rows_cons.
  assert (Hhdr : ∀ c', is_Some (row !! c') ↔ c' ∈ fieldnames).
  { apply (DictReader_header fieldnames lines). rewrite Hr. by left. }
  enough (getitems row (present ++ c :: rest) = Raised (KeyError c)) as -> by done.
  clear Hr Hline. induction Hpresent as [|c' present Hc' _ IH]; simpl.
  - destruct (row !! c) as [v|] eqn:Hv; [|done].
    exfalso. apply Hc, Hhdr. by eexists.
  - apply Hhdr in Hc' as [v ->]. by rewrite IH.
Qed.
End SubmitterFrame.

(** ** More on the run as a whole *)

Section OrchestratorFrame.
Variable now : nat → Z.
Variable coerce : string → string → pyval → option pyval.
Variable fs : string → option csv_file.
Variable DATA_DIR : string.
Variable LOAD_DATE : Z.
Variable uuid4 : N.

(** A property of the transaction's view that every statement of every
    dataset keeps is kept by the loop over the datasets, whatever its
    outcome. *)
Lemma load_all_invariant (P : database → Prop) chunk files : ∀ details w,
  Forall (λ entry : string * (string * list string * string),
            ∀ p db db',
              Storage.exec_upsert coerce (upsert_sql entry.1 entry.2.1.2 entry.2.2) p db
                = inr db' → P db → P db') files →
  P (w_txn w) →
  P (w_txn (load_all now coerce fs DATA_DIR chunk files details w).2).
Proof.
  induction files as [|[table [[filename cols] pk]] files IH]; intros details w Hstep HP;
    [done|].
  apply Forall_cons in Hstep as [Hstep1 Hstep]. simpl in Hstep1.
  cbn [load_all]. cbv zeta. unfold mbind, M_bind.
  destruct (load_table_invariant now coerce fs P chunk table
              (os_path_join DATA_DIR filename) cols pk w Hstep1 HP) as [HP1 _].
  destruct (load_table_with now coerce fs chunk table (os_path_join DATA_DIR filename)
              cols pk w) as [[st|e] w1]; [|done].
  by apply IH.
Qed.

Lemma mark_finished_audit finished st d old r tables :
  uuid4 ∉ batch_id <$> old → batch_id r = uuid4 →
  db_audit (Storage.mark_finished finished st d uuid4
              {| db_tables := tables; db_audit := old ++ [r] |})
  = old ++ [ {| batch_id := uuid4; load_date := load_date r;
                started_at_utc := started_at_utc r;
                finished_at_utc := Some finished; status := st; details := d |} ].
Proof.
  intros Hfresh Hr. unfold Storage.mark_finished. simpl. rewrite fmap_app. simpl.
  rewrite decide_True by done. rewrite Hr. f_equal.
  induction old as [|r0 old IH]; [done|].
  rewrite fmap_cons, not_elem_of_cons in Hfresh. destruct Hfresh as [Hne Hfresh].
  simpl. rewrite decide_False by done. f_equal. by apply IH.
Qed.

(** X4: the ledger only grows at its end, by at most one row per run.  A
    run that succeeds appends one finished [succeeded] row with its own
    identifier and start time; a run that raises either leaves the
    ledger as it was or appends one finished [failed] row carrying the
    error raised.  Rows of earlier runs are never changed and a
    [running] row is never left behind. *)
Theorem ledger_append_only w :
  match (main now coerce fs DATA_DIR LOAD_DATE uuid4 w).1 with
  | Ok _ =>
      ∃ finished d,
        db_audit (w_durable (main now coerce fs DATA_DIR LOAD_DATE uuid4 w).2)
        = db_audit (w_durable w)
          ++ [ {| batch_id := uuid4; load_date := LOAD_DATE;
                  started_at_utc := now (w_clock w); finished_at_utc := Some finished;
                  status := "succeeded"; details := JStats d |} ]
  | Raised e =>
      db_audit (w_durable (main now coerce fs DATA_DIR LOAD_DATE uuid4 w).2)
      = db_audit (w_durable w)
      ∨ ∃ finished,
          db_audit (w_durable (main now coerce fs DATA_DIR LOAD_DATE uuid4 w).2)
          = db_audit (w_durable w)
            ++ [ {| batch_id := uuid4; load_date := LOAD_DATE;
                    started_at_utc := now (w_clock w); finished_at_utc := Some finished;
                    status := "failed"; details := JError e |} ]
  end.
Proof.
  unfold main.
  destruct (decide (reaches_try fs DATA_DIR uuid4 w)) as [Hreach|Hn].
  2:{ destruct (main_not_reached now coerce fs DATA_DIR LOAD_DATE uuid4 CHUNK_SIZE w Hn)
        as (e & w0 & -> & Hd). simpl. left. by rewrite Hd. }
  destruct (main_reached now coerce fs DATA_DIR LOAD_DATE uuid4 CHUNK_SIZE w Hreach)
    as [w0 Hcase].
  destruct (load_all now coerce fs DATA_DIR CHUNK_SIZE FILES ∅
              (begin_world now LOAD_DATE uuid4 w)) as [[d|e] w1] eqn:Hl;
    apply load_all_inv in Hl as (_ & Ha & _); try done; try apply FILES_wf.
  - destruct Hcase as [-> Hd]. cbn [fst snd]. exists (now (w_clock w1)), d.
    rewrite Hd. destruct (w_txn w1) as [tables audit]. simpl in Ha. subst audit.
    rewrite (mark_finished_audit _ _ _ _ (running_row LOAD_DATE uuid4 (now (w_clock w))));
      [done| |done].
    apply Hreach.
  - destruct (w_aborted w1); destruct Hcase as [-> Hd]; cbn [fst snd].
    + left. by rewrite Hd.
    + right. exists (now (w_clock w1)).
      rewrite Hd. destruct (w_txn w1) as [tables audit]. simpl in Ha. subst audit.
      rewrite (mark_finished_audit _ _ _ _ (running_row LOAD_DATE uuid4 (now (w_clock w))));
        [done| |done].
      apply Hreach.
Qed.

Lemma exec_upsert_keys_distinct sql p db db' :
  Storage.exec_upsert coerce sql p db = inr db' →
  keys_distinct (u_conflict sql) db → keys_distinct (u_conflict sql) db'.
Proof.
  intros (rows & ex & Ht & Hp & ->)%exec_upsert_inr Hk. unfold keys_distinct in *. simpl.
  apply map_Forall_insert_2; [|done].
  apply NoDup_on_conflict_update.
  - apply proposed_row_key in Hp as (k & -> & _). by eexists.
  - by apply (Hk (u_table sql)).
Qed.

Lemma FILES_keys_distinct_step :
  Forall (λ entry : string * (string * list string * string),
            ∀ p db db',
              Storage.exec_upsert coerce (upsert_sql entry.1 entry.2.1.2 entry.2.2) p db
                = inr db' → keys_distinct "id" db → keys_distinct "id" db') FILES.
Proof.
  repeat constructor; intros p db db' He;
    exact (exec_upsert_keys_distinct _ _ _ _ He).
Qed.

(** X5: a run never creates a second row for a primary key: when no
    durable table holds two rows with the same [id] before a run, none
    does after it, whether the run succeeds, fails or is rolled back. *)
Theorem main_keeps_keys_distinct w :
  keys_distinct "id" (w_durable w) →
  keys_distinct "id" (w_durable (main now coerce fs DATA_DIR LOAD_DATE uuid4 w).2).
Proof.
  intros Hk. unfold main.
  destruct (decide (reaches_try fs DATA_DIR uuid4 w)) as [Hreach|Hn].
  2:{ destruct (main_not_reached now coerce fs DATA_DIR LOAD_DATE uuid4 CHUNK_SIZE w Hn)
        as (e & w0 & -> & Hd). simpl. by rewrite Hd. }
  destruct (main_reached now coerce fs DATA_DIR LOAD_DATE uuid4 CHUNK_SIZE w Hreach)
    as [w0 Hcase].
  pose proof (load_all_invariant (keys_distinct "id") CHUNK_SIZE FILES ∅
                (begin_world now LOAD_DATE uuid4 w) FILES_keys_distinct_step Hk) as Hk1.
  destruct (load_all now coerce fs DATA_DIR CHUNK_SIZE FILES ∅
              (begin_world now LOAD_DATE uuid4 w)) as [[d|e] w1].
  - destruct Hcase as [-> Hd]. cbn [fst snd] in *. by rewrite Hd.
  - destruct (w_aborted w1); destruct Hcase as [-> Hd]; cbn [fst snd] in *; by rewrite Hd.
Qed.

(** X6: whenever a run ends in an error of the storage engine, nothing
    of the run is durable, neither rows nor a ledger entry; and when the
    error arose while loading, what is raised is the refusal of the
    bookkeeping [UPDATE] in the failed transaction, not the error of the
    statement that failed. *)
Theorem database_error_leaves_nothing w d :
  (main now coerce fs DATA_DIR LOAD_DATE uuid4 w).1 = Raised (DatabaseError d) →
  w_durable (main now coerce fs DATA_DIR LOAD_DATE uuid4 w).2 = w_durable w
  ∧ (reaches_try fs DATA_DIR uuid4 w → d = InFailedSqlTransaction).
Proof.
  unfold main. intros Hmain.
  destruct (decide (reaches_try fs DATA_DIR uuid4 w)) as [Hreach|Hn].
  2:{ destruct (main_not_reached now coerce fs DATA_DIR LOAD_DATE uuid4 CHUNK_SIZE w Hn)
        as (e & w0 & -> & Hd). done. }
  destruct (main_reached now coerce fs DATA_DIR LOAD_DATE uuid4 CHUNK_SIZE w Hreach)
    as [w0 Hcase].
  destruct (load_all now coerce fs DATA_DIR CHUNK_SIZE FILES ∅
              (begin_world now LOAD_DATE uuid4 w)) as [[d'|e] w1] eqn:Hl;
    apply load_all_inv in Hl as (_ & _ & Ho); try done; try apply FILES_wf.
  - destruct Hcase as [He _]. by rewrite He in Hmain.
  - destruct (w_aborted w1) eqn:Hab; destruct Hcase as [He Hd]; rewrite He in Hmain |- *;
      cbn [fst snd] in *.
    + split; [done|]. intros _. congruence.
    + exfalso. injection Hmain as ->. simpl in Ho. congruence.
Qed.

Lemma ddl_first_missing w :
  w_aborted w = false →
  ¬ Forall (λ entry : string * (string * list string * string),
              is_Some (db_tables (w_txn w) !! entry.1)) FILES →
  ∃ t, t ∈ FILES.*1 ∧ db_tables (w_txn w) !! t = None
       ∧ for_each DDL (λ stmt, Psycopg.execute (Storage.exec_ddl stmt)) w
         = (Raised (DatabaseError (UndefinedTable t)), set_aborted true w).
Proof.
  intros Hab Hn.
  unfold DDL, for_each, mbind, M_bind, Psycopg.execute, Storage.exec_ddl.
  rewrite Hab. rewrite set_txn_id. rewrite Hab.
  destruct (db_tables (w_txn w) !! "public.customers") as [r1|] eqn:H1.
  2:{ exists "public.customers". split_and!; [|done..].
      apply (bool_decide_unpack _). vm_compute. reflexivity. }
  rewrite set_txn_id. rewrite Hab.
  destruct (db_tables (w_txn w) !! "public.products") as [r2|] eqn:H2.
  2:{ exists "public.products". split_and!; [|done..].
      apply (bool_decide_unpack _). vm_compute. reflexivity. }
  rewrite set_txn_id. rewrite Hab.
  destruct (db_tables (w_txn w) !! "public.transactions") as [r3|] eqn:H3.
  2:{ exists "public.transactions". split_and!; [|done..].
      apply (bool_decide_unpack _). vm_compute. reflexivity. }
  exfalso. apply Hn. repeat constructor; simpl; by eexists.
Qed.

(** X7: the loader does not create the target tables.  When the files
    are all present but a target table is absent, the run raises the
    engine's undefined-table error for an absent table, and leaves the
    store, ledger included, as it was. *)
Theorem missing_table_fails w :
  Forall (λ entry : string * (string * list string * string),
            is_Some (fs (os_path_join DATA_DIR entry.2.1.1))) FILES →
  ¬ Forall (λ entry : string * (string * list string * string),
              is_Some (db_tables (w_durable w) !! entry.1)) FILES →
  ∃ t, t ∈ FILES.*1 ∧ db_tables (w_durable w) !! t = None
       ∧ (main now coerce fs DATA_DIR LOAD_DATE uuid4 w).1
         = Raised (DatabaseError (UndefinedTable t))
       ∧ w_durable (main now coerce fs DATA_DIR LOAD_DATE uuid4 w).2 = w_durable w.
Proof.
  intros Hfiles Htabs. unfold main.
  enough (∃ t w', t ∈ FILES.*1 ∧ db_tables (w_durable w) !! t = None
            ∧ main_with now coerce fs DATA_DIR LOAD_DATE uuid4 CHUNK_SIZE w
              = (Raised (DatabaseError (UndefinedTable t)), w')
            ∧ w_durable w' = w_durable w) as (t & w' & ? & ? & -> & ?) by (by exists t).
  unfold main_with.
  unfold mbind at 1 2. unfold M_bind at 1 2. unfold utcnow at 1.
  rewrite check_files_Ok by done.
  unfold Psycopg.connect. unfold mbind at 1 2. unfold M_bind at 1 2.
  destruct (ddl_first_missing (set_aborted false (set_txn (w_durable (tick w)) (tick w))))
    as (t & Ht & Hnone & ->); [done|done|].
  by eexists t, _.
Qed.

(** X8: a batch identifier that the ledger already holds is refused.
    With files and tables in place, the run raises the engine's
    unique-violation error for the ledger before it loads anything, and
    the store is left as it was: the row of the earlier run is not
    overwritten. *)
Theorem reused_batch_id_refused w :
  Forall (λ entry : string * (string * list string * string),
            is_Some (fs (os_path_join DATA_DIR entry.2.1.1))
            ∧ is_Some (db_tables (w_durable w) !! entry.1)) FILES →
  uuid4 ∈ batch_id <$> db_audit (w_durable w) →
  (main now coerce fs DATA_DIR LOAD_DATE uuid4 w).1
    = Raised (DatabaseError (UniqueViolation "public.load_audit"))
  ∧ w_durable (main now coerce fs DATA_DIR LOAD_DATE uuid4 w).2 = w_durable w.
Proof.
  intros Hall Hid.
  assert (Hfiles : Forall (λ entry : string * (string * list string * string),
            is_Some (fs (os_path_join DATA_DIR entry.2.1.1))) FILES).
  { eapply Forall_impl; [exact Hall|]. by intros ? [? _]. }
  assert (Htabs : Forall (λ entry : string * (string * list string * string),
            is_Some (db_tables (w_durable w) !! entry.1)) FILES).
  { eapply Forall_impl; [exact Hall|]. by intros ? [_ ?]. }
  unfold main.
  enough (∃ w', main_with now coerce fs DATA_DIR LOAD_DATE uuid4 CHUNK_SIZE w
                = (Raised (DatabaseError (UniqueViolation "public.load_audit")), w')
                ∧ w_durable w' = w_durable w) as (w' & -> & ?) by done.
  unfold main_with. unfold mbind at 1 2. unfold M_bind at 1 2. unfold utcnow at 1.
  rewrite check_files_Ok by done.
  unfold Psycopg.connect. unfold mbind at 1 2. unfold M_bind at 1 2.
  rewrite ddl_Ok by done.
  unfold Psycopg.execute at 1. cbn [w_aborted set_aborted w_txn set_txn tick].
  unfold Storage.insert_audit. cbn [batch_id db_audit].
  rewrite bool_decide_true by done. by eexists.
Qed.
End OrchestratorFrame.

(** ** What a successful run leaves in the tables *)

Section RunContent.
Variable now : nat → Z.
Variable coerce : string → string → pyval → option pyval.
Variable fs : string → option csv_file.
Variable DATA_DIR : string.
Variable LOAD_DATE : Z.
Variable uuid4 : N.

Lemma length_on_conflict_update_bounds pk updates excluded rows :
  length rows ≤ length (Storage.on_conflict_update pk updates excluded rows)
  ∧ length (Storage.on_conflict_update pk updates excluded rows) ≤ S (length rows).
Proof.
  induction rows as [|r rs IH]; simpl; [lia|].
  case_decide; simpl; lia.
Qed.

Lemma length_apply_rows sql exs : ∀ rows,
  length rows ≤ length (apply_rows sql exs rows)
  ∧ length (apply_rows sql exs rows) ≤ length rows + length exs.
Proof.
  unfold apply_rows. induction exs as [|ex exs IH]; intros rows; simpl; [lia|].
  pose proof (IH (Storage.on_conflict_update (u_conflict sql) (u_updates sql) ex rows)).
  pose proof (length_on_conflict_update_bounds (u_conflict sql) (u_updates sql) ex rows).
  lia.
Qed.

(** The key of the proposed row of a record is the record's stored key. *)
Lemma loaded_from_keys table cols pk reader n exs i row ex :
  wf_descriptor cols pk →
  Forall2 (λ p ex, Storage.proposed_row coerce (upsert_sql table cols pk) p = inr ex)
          (params_of now cols n reader) exs →
  (∀ i row, reader !! i = Some row → acceptable coerce table cols pk row (now (n + i))) →
  reader !! i = Some row → exs !! i = Some ex →
  ex !! pk = stored_key coerce table pk row.
Proof.
  intros Hwf Hexs Hacc Hi Hex.
  destruct (proposed_rows_lookup now coerce table cols pk reader n exs i row Hwf Hexs Hi)
    as (ex' & Hex' & Hc & _).
  rewrite Hex in Hex'. injection Hex' as <-.
  destruct Hwf as (Hpk & _). destruct (Hc pk Hpk) as [-> _].
  unfold stored_key.
  by destruct (acceptable_cols coerce _ _ _ _ _ pk (Hacc i row Hi) Hpk) as (_ & -> & _).
Qed.

(** A load that succeeds has accepted every record and upserted them in
    order into its table. *)
Lemma load_table_Ok_inv chunk table path cols pk w st w' rows :
  wf_descriptor cols pk → w_aborted w = false →
  db_tables (w_txn w) !! table = Some rows →
  load_table_with now coerce fs chunk table path cols pk w = (Ok st, w') →
  ∃ f rows',
    fs path = Some f
    ∧ db_tables (w_txn w') = <[table := rows']> (db_tables (w_txn w))
    ∧ loaded_from now coerce table cols pk (DictReader f) (w_clock w) rows rows'.
Proof.
  intros Hwf Hab Ht Hload.
  pose proof (load_table_inv now coerce fs chunk table path cols pk w _ _ Hab Hwf Hload)
    as (_ & _ & _ & f & Hfs & _ & _ & _ & Herr).
  destruct (load_table_cases now coerce fs table path cols pk f w Hfs Hab)
    as [(row & rest & c & _ & _ & _ & Hl)|[Hall Hl]].
  { by rewrite (Hl chunk) in Hload. }
  destruct (Hl Herr chunk) as (w1 & Hl1 & Htx & _). rewrite Hl1 in Hload.
  destruct (Storage.exec_seq coerce (upsert_sql table cols pk)
              (params_of now cols (w_clock w) (DictReader f)) (w_txn w)) as [[e|] db'] eqn:Hs;
    [done|].
  injection Hload as _ <-. simpl in Htx.
  eapply (exec_seq_None coerce) in Hs as (exs & Hexs & Htab & _); [|exact Ht].
  exists f, (apply_rows (upsert_sql table cols pk) exs rows).
  split_and!; [done|by rewrite Htx, Htab|].
  exists exs. split_and!; [done| |done].
  intros i row Hi.
  destruct (proposed_rows_lookup now coerce table cols pk (DictReader f) (w_clock w) exs i row
              Hwf Hexs Hi) as (ex & Hex & Hc & Hts & Htss & _ & Hprop).
  assert (Hrow : ∀ c, c ∈ cols → row !! c ≫= coerce table c = ex !! c).
  { intros c Hc'. destruct (Hc c Hc') as [-> _].
    destruct (Hall row (list_elem_of_lookup_2 _ _ _ Hi) c Hc') as [v ->]. done. }
  split_and!.
  - apply Forall_forall. intros c Hc'. rewrite (Hrow c Hc'). by apply Hc.
  - by rewrite <- Hts.
  - unfold stored_key. rewrite (Hrow pk) by apply Hwf.
    apply proposed_row_key in Hprop as (k & Hk & Hne). simpl in Hk. rewrite Hk. congruence.
Qed.

(** The loop over the datasets does not touch a table that is not
    listed, whatever its outcome. *)
Lemma load_all_frame chunk files details w t :
  t ∉ files.*1 →
  db_tables (w_txn (load_all now coerce fs DATA_DIR chunk files details w).2) !! t
    = db_tables (w_txn w) !! t.
Proof.
  intros Ht.
  apply (load_all_invariant now coerce fs DATA_DIR
           (λ db, db_tables db !! t = db_tables (w_txn w) !! t)); [|done].
  apply Forall_forall. intros entry Hentry p db db' He <-.
  apply (exec_upsert_frame coerce) in He as [_ He]. apply He. simpl.
  intros ->. apply Ht. apply list_elem_of_fmap. by exists entry.
Qed.

(** After the loop over the datasets has succeeded, the table of each
    dataset is what it was before, with the records of its file
    upserted. *)
Lemma load_all_content chunk files : ∀ details w d w',
  NoDup files.*1 →
  Forall (λ entry : string * (string * list string * string),
            wf_descriptor entry.2.1.2 entry.2.2) files →
  w_aborted w = false →
  Forall (λ entry : string * (string * list string * string),
            is_Some (db_tables (w_txn w) !! entry.1)) files →
  load_all now coerce fs DATA_DIR chunk files details w = (Ok d, w') →
  ∀ table filename cols pk,
    (table, (filename, cols, pk)) ∈ files →
    ∃ f n rows rows',
      fs (os_path_join DATA_DIR filename) = Some f
      ∧ w_clock w ≤ n
      ∧ db_tables (w_txn w) !! table = Some rows
      ∧ db_tables (w_txn w') !! table = Some rows'
      ∧ loaded_from now coerce table cols pk (DictReader f) n rows rows'.
Proof.
  induction files as [|[table0 [[filename0 cols0] pk0]] files IH];
    intros details w d w' Hnd Hwf Hab Htabs Hload table filename cols pk Hin.
  { by apply elem_of_nil in Hin. }
  apply NoDup_cons in Hnd as [Hnin Hnd].
  apply Forall_cons in Hwf as [Hwf0 Hwf]. simpl in Hwf0.
  apply Forall_cons in Htabs as [[rows0 Hrows0] Htabs]. simpl in Hrows0.
  pose proof (load_all_frame chunk files) as Hframe.
  cbn [load_all] in Hload. cbv zeta in Hload. unfold mbind, M_bind in Hload.
  destruct (load_table_with now coerce fs chunk table0 (os_path_join DATA_DIR filename0)
              cols0 pk0 w) as [[st|e] w1] eqn:Hl1; [|done].
  pose proof Hl1 as Hinv.
  apply (load_table_inv now coerce fs chunk) in Hinv as (_ & _ & Hab1 & f0 & _ & _ & Hck & _);
    [|done..].
  apply (load_table_Ok_inv chunk table0 _ cols0 pk0 w st w1 rows0) in Hl1
    as (f & rows' & Hf & Htab1 & Hfrom); [|done..].
  apply elem_of_cons in Hin as [[= -> -> -> ->]|Hin].
  - exists f, (w_clock w), rows0, rows'. split_and!; [done|lia|done| |done].
    specialize (Hframe (<[table0 := st]> details) w1 table0 Hnin).
    rewrite Hload in Hframe. simpl in Hframe. rewrite Hframe, Htab1.
    apply lookup_insert_eq.
  - assert (table ≠ table0) as Hne.
    { intros ->. apply Hnin. apply list_elem_of_fmap.
      by exists (table0, (filename, cols, pk)). }
    destruct (IH (<[table0 := st]> details) w1 d w' Hnd Hwf Hab1) with
      (table := table) (filename := filename) (cols := cols) (pk := pk)
      as (f' & n & rows & rows'' & Hf' & Hn & Hrows & Hrows'' & Hfrom'); [|done|done|].
    { eapply Forall_impl; [exact Htabs|]. intros entry Hsome. simpl in *.
      rewrite Htab1. destruct (decide (entry.1 = table0)) as [->|Hne'].
      - rewrite lookup_insert_eq. by eexists.
      - by rewrite lookup_insert_ne. }
    exists f', n, rows, rows''. split_and!; [done|lia| |done|done].
    rewrite Htab1 in Hrows. by rewrite lookup_insert_ne in Hrows.
Qed.

(** The tables a successful run leaves durable. *)
Lemma main_Ok_content w table filename cols pk :
  (main now coerce fs DATA_DIR LOAD_DATE uuid4 w).1 = Ok tt →
  (table, (filename, cols, pk)) ∈ FILES →
  ∃ f n rows rows',
    fs (os_path_join DATA_DIR filename) = Some f
    ∧ db_tables (w_durable w) !! table = Some rows
    ∧ db_tables (w_durable (main now coerce fs DATA_DIR LOAD_DATE uuid4 w).2) !! table
      = Some rows'
    ∧ loaded_from now coerce table cols pk (DictReader f) n rows rows'.
Proof.
  unfold main. intros Hmain Hin.
  destruct (decide (reaches_try fs DATA_DIR uuid4 w)) as [Hreach|Hn].
  2:{ destruct (main_not_reached now coerce fs DATA_DIR LOAD_DATE uuid4 CHUNK_SIZE w Hn)
        as (e & w0 & He & _). by rewrite He in Hmain. }
  destruct (main_reached now coerce fs DATA_DIR LOAD_DATE uuid4 CHUNK_SIZE w Hreach)
    as [w0 Hcase].
  destruct (load_all now coerce fs DATA_DIR CHUNK_SIZE FILES ∅
              (begin_world now LOAD_DATE uuid4 w)) as [[d|e] w1] eqn:Hl.
  2:{ destruct (w_aborted w1); destruct Hcase as [He _]; by rewrite He in Hmain. }
  destruct Hcase as [He Hd]. rewrite He. cbn [fst snd]. rewrite Hd.
  destruct (load_all_content CHUNK_SIZE FILES ∅ (begin_world now LOAD_DATE uuid4 w) d w1)
    with (table := table) (filename := filename) (cols := cols) (pk := pk)
    as (f & n & rows & rows' & Hf & _ & Hrows & Hrows' & Hfrom);
    [apply FILES_NoDup|apply FILES_wf|done| |done|done|].
  { destruct Hreach as [Hall _]. eapply Forall_impl; [exact Hall|]. by intros ? [_ ?]. }
  by exists f, n, rows, rows'.
Qed.

(** X9: after a successful run, every record of every configured file
    that is the last of its key in its file is found in the durable
    table of its dataset under its stored key, holding the stored value
    of each declared column of the record. *)
Theorem successful_run_stores_last_records w table filename cols pk f i row :
  (main now coerce fs DATA_DIR LOAD_DATE uuid4 w).1 = Ok tt →
  (table, (filename, cols, pk)) ∈ FILES →
  fs (os_path_join DATA_DIR filename) = Some f →
  DictReader f !! i = Some row →
  Forall (λ row', stored_key coerce table pk row' ≠ stored_key coerce table pk row)
         (drop (S i) (DictReader f)) →
  ∃ rows' r,
    db_tables (w_durable (main now coerce fs DATA_DIR LOAD_DATE uuid4 w).2) !! table
      = Some rows'
    ∧ row_for pk (stored_key coerce table pk row) rows' = Some r
    ∧ ∀ c, c ∈ cols → r !! c = row !! c ≫= coerce table c.
Proof.
  intros Hmain Hin Hf Hi Hlast.
  destruct (main_Ok_content w table filename cols pk Hmain Hin)
    as (f' & n & rows & rows' & Hf' & _ & Hrows' & exs & Hexs & Hacc & ->).
  rewrite Hf in Hf'. injection Hf' as <-.
  assert (wf_descriptor cols pk) as Hwf.
  { pose proof FILES_wf as Hall. rewrite Forall_forall in Hall. apply (Hall _ Hin). }
  destruct (last_occurrence_row now coerce table cols pk (DictReader f) n exs rows i row)
    as (r & Hr & Hc & _); try done.
  { intros j row' Hj Hlook. rewrite Forall_lookup in Hlast.
    apply (Hlast (j - S i) row'). rewrite lookup_drop.
    by replace (S i + (j - S i)) with j by lia. }
  by exists (apply_rows (upsert_sql table cols pk) exs rows), r.
Qed.

(** X10: a successful run deletes nothing and touches no row it has no
    record for.  Each configured table keeps at least the rows it had
    and gains at most one row per record of its file, and the row found
    for a key that no record of the file is stored under is the row that
    was there before. *)
Theorem successful_run_keeps_other_rows w table filename cols pk f :
  (main now coerce fs DATA_DIR LOAD_DATE uuid4 w).1 = Ok tt →
  (table, (filename, cols, pk)) ∈ FILES →
  fs (os_path_join DATA_DIR filename) = Some f →
  ∃ rows rows',
    db_tables (w_durable w) !! table = Some rows
    ∧ db_tables (w_durable (main now coerce fs DATA_DIR LOAD_DATE uuid4 w).2) !! table
      = Some rows'
    ∧ length rows ≤ length rows'
    ∧ length rows' ≤ length rows + length (DictReader f)
    ∧ ∀ k, (∀ row, row ∈ DictReader f → stored_key coerce table pk row ≠ k) →
           row_for pk k rows' = row_for pk k rows.
Proof.
  intros Hmain Hin Hf.
  destruct (main_Ok_content w table filename cols pk Hmain Hin)
    as (f' & n & rows & rows' & Hf' & Hrows & Hrows' & exs & Hexs & Hacc & ->).
  rewrite Hf in Hf'. injection Hf' as <-.
  assert (wf_descriptor cols pk) as Hwf.
  { pose proof FILES_wf as Hall. rewrite Forall_forall in Hall. apply (Hall _ Hin). }
  exists rows, (apply_rows (upsert_sql table cols pk) exs rows).
  pose proof (length_apply_rows (upsert_sql table cols pk) exs rows) as [Hlo Hhi].
  assert (length exs = length (DictReader f)) as Hlen.
  { apply Forall2_length in Hexs. by rewrite length_params_of in Hexs. }
  split_and!; [done|done|done|lia|].
  intros k Hk.
  apply (row_for_apply_rows_ne (upsert_sql table cols pk)).
  - by eapply proposed_rows_keys.
  - apply Forall_lookup. intros j ex Hj.
    destruct (Forall2_lookup_r _ _ _ _ _ Hexs Hj) as (p & Hp & _).
    rewrite params_of_lookup in Hp.
    destruct (DictReader f !! j) as [row|] eqn:Hrow; [|done]. simpl.
    rewrite (loaded_from_keys table cols pk (DictReader f) n exs j row ex); try done.
    apply Hk. by eapply list_elem_of_lookup_2.
Qed.

(** X11: a run never touches a table other than those of the configured
    datasets, whatever its outcome. *)
Theorem main_touches_only_configured_tables w t :
  t ∉ FILES.*1 →
  db_tables (w_durable (main now coerce fs DATA_DIR LOAD_DATE uuid4 w).2) !! t
    = db_tables (w_durable w) !! t.
Proof.
  intros Ht. unfold main.
  destruct (decide (reaches_try fs DATA_DIR uuid4 w)) as [Hreach|Hn].
  2:{ destruct (main_not_reached now coerce fs DATA_DIR LOAD_DATE uuid4 CHUNK_SIZE w Hn)
        as (e & w0 & -> & Hd). simpl. by rewrite Hd. }
  destruct (main_reached now coerce fs DATA_DIR LOAD_DATE uuid4 CHUNK_SIZE w Hreach)
    as [w0 Hcase].
  pose proof (load_all_frame CHUNK_SIZE FILES ∅ (begin_world now LOAD_DATE uuid4 w) t Ht)
    as Hframe.
  destruct (load_all now coerce fs DATA_DIR CHUNK_SIZE FILES ∅
              (begin_world now LOAD_DATE uuid4 w)) as [[d|e] w1].
  - destruct Hcase as [-> Hd]. cbn [fst snd] in *. by rewrite Hd.
  - destruct (w_aborted w1); destruct Hcase as [-> Hd]; cbn [fst snd] in *; by rewrite Hd.
Qed.
End RunContent.

(** ** The further properties at work *)

(** A products file that has a header without [supplier] and no record
    loads as zero records. *)
Lemma load_table_no_records_witness :
  load_table Scenario.now Scenario.coerce Cases.fs_header_only "public.products"
    "data/raw/products.csv" Scenario.products_cols "id" Scenario.w0
  = (Ok {| rows_submitted := 0 |}, Scenario.w0).
Proof.
  apply (load_table_no_records Scenario.now Scenario.coerce Cases.fs_header_only
           "public.products" "data/raw/products.csv" Scenario.products_cols "id"
           Cases.products_header_only_csv Scenario.w0).
  - reflexivity.
  - scenario_decide.
Defined.

(** The same header with one record raises [KeyError] for [supplier]. *)
Lemma load_table_missing_header_column_witness :
  load_table Scenario.now Scenario.coerce Scenario.fs_no_supplier "public.products"
    "data/raw/products.csv" (["id"; "name"; "category"; "price"] ++ "supplier" :: []) "id"
    Scenario.w0
  = (Raised (KeyError "supplier"), Scenario.w0).
Proof.
  apply (load_table_missing_header_column Scenario.now Scenario.coerce Scenario.fs_no_supplier
           "public.products" "data/raw/products.csv" "id"
           ["id"; "name"; "category"; "price"] [ ["1"; "Mat"; "Sports"; "19.99"] ] None
           ["1"; "Mat"; "Sports"; "19.99"] ["id"; "name"; "category"; "price"]
           "supplier" [] Scenario.w0).
  - reflexivity.
  - scenario_decide.
  - scenario_decide.
  - scenario_decide.
  - scenario_decide.
Defined.

(** The run of the scenario in chunks of two records and in chunks of a
    thousand. *)
Lemma main_chunking_transparency_witness :
  (main_with Scenario.now Scenario.coerce Scenario.fs_good "data/raw" 20000 42%N 2
             Scenario.w0).1
    = (main_with Scenario.now Scenario.coerce Scenario.fs_good "data/raw" 20000 42%N CHUNK_SIZE
                 Scenario.w0).1
  ∧ w_durable (main_with Scenario.now Scenario.coerce Scenario.fs_good "data/raw" 20000 42%N 2
                         Scenario.w0).2
    = w_durable (main_with Scenario.now Scenario.coerce Scenario.fs_good "data/raw" 20000 42%N
                           CHUNK_SIZE Scenario.w0).2.
Proof.
  apply (main_chunking_transparency Scenario.now Scenario.coerce Scenario.fs_good
           "data/raw" 20000 42%N 2 CHUNK_SIZE Scenario.w0).
  repeat constructor; intros f Hf; vm_compute in Hf; injection Hf as <-; reflexivity.
Defined.

Lemma main_keeps_keys_distinct_witness :
  keys_distinct "id"
    (w_durable (main Scenario.now Scenario.coerce Scenario.fs_good "data/raw" 20000 43%N
                  Cases.w_earlier).2).
Proof.
  apply (main_keeps_keys_distinct Scenario.now Scenario.coerce Scenario.fs_good
           "data/raw" 20000 43%N Cases.w_earlier).
  scenario_decide.
Defined.

(** The run over the transactions file with a quantity that is not an
    integer. *)
Lemma database_error_leaves_nothing_witness :
  w_durable (main Scenario.now Scenario.coerce Scenario.fs_bad_quantity "data/raw" 20000 42%N
               Scenario.w0).2 = w_durable Scenario.w0
  ∧ (reaches_try Scenario.fs_bad_quantity "data/raw" 42%N Scenario.w0 →
     InFailedSqlTransaction = InFailedSqlTransaction).
Proof.
  apply (database_error_leaves_nothing Scenario.now Scenario.coerce Scenario.fs_bad_quantity
           "data/raw" 20000 42%N Scenario.w0 InFailedSqlTransaction).
  vm_compute. reflexivity.
Defined.

Lemma missing_table_fails_witness :
  ∃ t, t ∈ FILES.*1 ∧ db_tables (w_durable Cases.w_no_products) !! t = None
       ∧ (main Scenario.now Scenario.coerce Scenario.fs_good "data/raw" 20000 42%N
            Cases.w_no_products).1 = Raised (DatabaseError (UndefinedTable t))
       ∧ w_durable (main Scenario.now Scenario.coerce Scenario.fs_good "data/raw" 20000 42%N
                      Cases.w_no_products).2 = w_durable Cases.w_no_products.
Proof.
  apply (missing_table_fails Scenario.now Scenario.coerce Scenario.fs_good
           "data/raw" 20000 42%N Cases.w_no_products).
  - scenario_decide.
  - scenario_decide.
Defined.

(** A run that draws the identifier of the earlier run. *)
Lemma reused_batch_id_refused_witness :
  (main Scenario.now Scenario.coerce Scenario.fs_good "data/raw" 20000 42%N Cases.w_earlier).1
    = Raised (DatabaseError (UniqueViolation "public.load_audit"))
  ∧ w_durable (main Scenario.now Scenario.coerce Scenario.fs_good "data/raw" 20000 42%N
                 Cases.w_earlier).2 = w_durable Cases.w_earlier.
Proof.
  apply (reused_batch_id_refused Scenario.now Scenario.coerce Scenario.fs_good
           "data/raw" 20000 42%N Cases.w_earlier).
  - scenario_decide.
  - scenario_decide.
Defined.

(** The customer [Bob], the only record of key 2, after a run over a
    store that already holds another customer. *)
Lemma successful_run_stores_last_records_witness :
  ∃ rows' r,
    db_tables (w_durable (main Scenario.now Scenario.coerce Scenario.fs_good "data/raw" 20000
                            43%N Cases.w_earlier).2) !! "public.customers" = Some rows'
    ∧ row_for "id"
        (stored_key Scenario.coerce "public.customers" "id"
           (dict_row Scenario.customers_cols
              ["2"; "Bob"; "bob@example.org"; "2021-03-04"; "BR"])) rows' = Some r
    ∧ ∀ c, c ∈ Scenario.customers_cols →
           r !! c = dict_row Scenario.customers_cols
                      ["2"; "Bob"; "bob@example.org"; "2021-03-04"; "BR"] !! c
                    ≫= Scenario.coerce "public.customers" c.
Proof.
  apply (successful_run_stores_last_records Scenario.now Scenario.coerce Scenario.fs_good
           "data/raw" 20000 43%N Cases.w_earlier
           "public.customers" "customers.csv" Scenario.customers_cols "id"
           Scenario.customers_csv 1).
  - vm_compute. reflexivity.
  - scenario_decide.
  - reflexivity.
  - vm_compute. reflexivity.
  - scenario_decide.
Defined.

Lemma successful_run_keeps_other_rows_witness :
  ∃ rows rows',
    db_tables (w_durable Cases.w_earlier) !! "public.customers" = Some rows
    ∧ db_tables (w_durable (main Scenario.now Scenario.coerce Scenario.fs_good "data/raw" 20000
                              43%N Cases.w_earlier).2) !! "public.customers" = Some rows'
    ∧ length rows ≤ length rows'
    ∧ length rows' ≤ length rows + length (DictReader Scenario.customers_csv)
    ∧ ∀ k, (∀ row, row ∈ DictReader Scenario.customers_csv →
                   stored_key Scenario.coerce "public.customers" "id" row ≠ k) →
           row_for "id" k rows' = row_for "id" k rows.
Proof.
  apply (successful_run_keeps_other_rows Scenario.now Scenario.coerce Scenario.fs_good
           "data/raw" 20000 43%N Cases.w_earlier
           "public.customers" "customers.csv" Scenario.customers_cols "id"
           Scenario.customers_csv).
  - vm_compute. reflexivity.
  - scenario_decide.
  - reflexivity.
Defined.

Lemma main_touches_only_configured_tables_witness :
  db_tables (w_durable (main Scenario.now Scenario.coerce Scenario.fs_good "data/raw" 20000
                          43%N Cases.w_earlier).2) !! "public.suppliers"
  = db_tables (w_durable Cases.w_earlier) !! "public.suppliers".
Proof.
  apply (main_touches_only_configured_tables Scenario.now Scenario.coerce Scenario.fs_good
           "data/raw" 20000 43%N Cases.w_earlier "public.suppliers").
  scenario_decide.
Defined.

(** In that run the customer the files do not mention is still there,
    before the two customers of the file, and the ledger holds both runs. *)
Lemma earlier_customer_survives :
  Scenario.name_and_price
    (default [] (db_tables (w_durable (main Scenario.now Scenario.coerce Scenario.fs_good
                                         "data/raw" 20000 43%N Cases.w_earlier).2)
                 !! "public.customers"))
  = [ (Some (PStr "9"), Some (PStr "Zoe"), None);
      (Some (PStr "1"), Some (PStr "Ann B"), None);
      (Some (PStr "2"), Some (PStr "Bob"), None) ]
  ∧ Scenario.id_and_status
      (db_audit (w_durable (main Scenario.now Scenario.coerce Scenario.fs_good
                              "data/raw" 20000 43%N Cases.w_earlier).2))
    = [ (42%N, "succeeded"); (43%N, "succeeded") ].
Proof. split; vm_compute; reflexivity. Qed.

(** ** The uploader *)

Section Uploader.
Variable fails : nat → option string.
Variable path_exists : S3Handler.local_path → bool.

Lemma backoff_loop_succeeds bucket src key R k : ∀ fuel attempt c,
  (∀ j, j < k → is_Some (fails (S3Handler.c_calls c + j))) →
  fails (S3Handler.c_calls c + k) = None →
  k = 0 ∨ (attempt + Z.of_nat k < R)%Z →
  k < fuel →
  S3Handler.backoff_loop fails fuel bucket src key R attempt c =
    (S3Handler.Done tt,
     {| S3Handler.c_calls := S3Handler.c_calls c + S k;
        S3Handler.c_objects :=
          S3Handler.c_objects c
          ++ [ {| S3Handler.o_bucket := bucket; S3Handler.o_key := key;
                  S3Handler.o_source := src; S3Handler.o_sse := "AES256" |} ];
        S3Handler.c_versioning := S3Handler.c_versioning c;
        S3Handler.c_slept :=
          S3Handler.c_slept c
          ++ ((λ j, Z.min (2 ^ (attempt + Z.of_nat j)) 30) <$> seq 1 k) |}).
Proof.
  induction k as [|k IH]; intros fuel attempt c Hfail Hok Hbound Hfuel;
    (destruct fuel as [|fuel]; [lia|]); simpl;
    unfold S3Handler.upload_file, S3Handler.call.
  - rewrite Nat.add_0_r in Hok. rewrite Hok. simpl.
    rewrite app_nil_r. do 2 f_equal. lia.
  - destruct (Hfail 0) as [msg Hmsg]; [lia|]. rewrite Nat.add_0_r in Hmsg. rewrite Hmsg.
    rewrite bool_decide_false by lia.
    unfold mbind, S3Handler.S_bind, S3Handler.sleep. cbv beta.
    rewrite IH;
      cbn [S3Handler.c_calls S3Handler.c_objects S3Handler.c_versioning S3Handler.c_slept].
    + f_equal. f_equal; [lia|].
      rewrite <- (assoc_L (++)). f_equal. simpl. f_equal.
      rewrite <- (fmap_S_seq 1), <- list_fmap_compose.
      apply list_fmap_ext. intros i j _. simpl. do 2 f_equal. lia.
    + intros j Hj. replace (S (S3Handler.c_calls c) + j) with (S3Handler.c_calls c + S j)
        by lia. apply Hfail. lia.
    + by replace (S (S3Handler.c_calls c) + k) with (S3Handler.c_calls c + S k) by lia.
    + right. lia.
    + lia.
Qed.

Lemma backoff_loop_gives_up bucket src key R n : ∀ fuel attempt c msg,
  (∀ j, j < n → is_Some (fails (S3Handler.c_calls c + j))) →
  fails (S3Handler.c_calls c + n) = Some msg →
  n = 0 ∨ (attempt + Z.of_nat n < R)%Z →
  (R ≤ attempt + Z.of_nat n + 1)%Z →
  n < fuel →
  S3Handler.backoff_loop fails fuel bucket src key R attempt c =
    (S3Handler.Failed (S3Handler.S3Error msg),
     {| S3Handler.c_calls := S3Handler.c_calls c + S n;
        S3Handler.c_objects := S3Handler.c_objects c;
        S3Handler.c_versioning := S3Handler.c_versioning c;
        S3Handler.c_slept :=
          S3Handler.c_slept c
          ++ ((λ j, Z.min (2 ^ (attempt + Z.of_nat j)) 30) <$> seq 1 n) |}).
Proof.
  induction n as [|n IH]; intros fuel attempt c msg Hfail Hlast Hbound Hstop Hfuel;
    (destruct fuel as [|fuel]; [lia|]); simpl;
    unfold S3Handler.upload_file, S3Handler.call.
  - rewrite Nat.add_0_r in Hlast. rewrite Hlast.
    rewrite bool_decide_true by lia. rewrite app_nil_r. do 2 f_equal. lia.
  - destruct (Hfail 0) as [msg0 Hmsg]; [lia|]. rewrite Nat.add_0_r in Hmsg. rewrite Hmsg.
    rewrite bool_decide_false by lia.
    unfold mbind, S3Handler.S_bind, S3Handler.sleep. cbv beta.
    rewrite (IH _ _ _ msg);
      cbn [S3Handler.c_calls S3Handler.c_objects S3Handler.c_versioning S3Handler.c_slept].
    + f_equal. f_equal; [lia|].
      rewrite <- (assoc_L (++)). f_equal. simpl. f_equal.
      rewrite <- (fmap_S_seq 1), <- list_fmap_compose.
      apply list_fmap_ext. intros i j _. simpl. do 2 f_equal. lia.
    + intros j Hj. replace (S (S3Handler.c_calls c) + j) with (S3Handler.c_calls c + S j)
        by lia. apply Hfail. lia.
    + by replace (S (S3Handler.c_calls c) + n) with (S3Handler.c_calls c + S n) by lia.
    + right. lia.
    + lia.
    + lia.
Qed.
(** X12: when the first [k] attempts fail and the next one succeeds,
    and [k] is below the retry bound (or zero), [backoff_upload] returns
    after that attempt: it has made [k + 1] calls, stored the object once
    with server-side encryption, and slept [min(2^j, 30)] seconds after
    the [j]-th failure and not after the success. *)
Theorem backoff_upload_returns_at_first_success fuel bucket src key R k c :
  (∀ j, j < k → is_Some (fails (S3Handler.c_calls c + j))) →
  fails (S3Handler.c_calls c + k) = None →
  (Z.of_nat k < Z.max 1 R)%Z →
  k < fuel →
  S3Handler.backoff_upload fails fuel bucket src key R c =
    (S3Handler.Done tt,
     {| S3Handler.c_calls := S3Handler.c_calls c + S k;
        S3Handler.c_objects :=
          S3Handler.c_objects c
          ++ [ {| S3Handler.o_bucket := bucket; S3Handler.o_key := key;
                  S3Handler.o_source := src; S3Handler.o_sse := "AES256" |} ];
        S3Handler.c_versioning := S3Handler.c_versioning c;
        S3Handler.c_slept := S3Handler.c_slept c ++ S3Handler.pauses k |}).
Proof.
  intros Hfail Hok Hk Hfuel. unfold S3Handler.backoff_upload.
  rewrite (backoff_loop_succeeds bucket src key R k); [done|done|done|lia|done].
Qed.

(** X13: when every attempt fails, [backoff_upload] gives up at attempt
    number [max(1, max_retries)]: it re-raises the error of that last
    attempt, has stored nothing, and has slept after every failure but
    the last. *)
Theorem backoff_upload_gives_up fuel bucket src key R c msg :
  (∀ j, j < Z.to_nat (Z.max 1 R) → is_Some (fails (S3Handler.c_calls c + j))) →
  fails (S3Handler.c_calls c + (Z.to_nat (Z.max 1 R) - 1)) = Some msg →
  Z.to_nat (Z.max 1 R) ≤ fuel →
  S3Handler.backoff_upload fails fuel bucket src key R c =
    (S3Handler.Failed (S3Handler.S3Error msg),
     {| S3Handler.c_calls := S3Handler.c_calls c + Z.to_nat (Z.max 1 R);
        S3Handler.c_objects := S3Handler.c_objects c;
        S3Handler.c_versioning := S3Handler.c_versioning c;
        S3Handler.c_slept :=
          S3Handler.c_slept c ++ S3Handler.pauses (Z.to_nat (Z.max 1 R) - 1) |}).
Proof.
  intros Hfail Hlast Hfuel. unfold S3Handler.backoff_upload.
  rewrite (backoff_loop_gives_up bucket src key R (Z.to_nat (Z.max 1 R) - 1) _ _ _ msg);
    [|intros j Hj; apply Hfail; lia|done|lia|lia|lia].
  f_equal. f_equal. lia.
Qed.


Lemma length_pauses k : length (S3Handler.pauses k) = k.
Proof. unfold S3Handler.pauses. by rewrite length_fmap, length_seq. Qed.



Lemma ensure_versioning_calls bucket c :
  fails (S3Handler.c_calls c) = None →
  (S3Handler.c_versioning c !! bucket ≠ Some "Enabled" →
   fails (S (S3Handler.c_calls c)) = None) →
  ∃ c', S3Handler.ensure_versioning fails bucket c = (S3Handler.Done tt, c')
        ∧ S3Handler.c_calls c ≤ S3Handler.c_calls c'
        ∧ S3Handler.c_objects c' = S3Handler.c_objects c
        ∧ S3Handler.c_slept c' = S3Handler.c_slept c
        ∧ S3Handler.c_versioning c' = <[bucket := "Enabled"]> (S3Handler.c_versioning c).
Proof.
  intros Hget Hput.
  unfold S3Handler.ensure_versioning, S3Handler.get_bucket_versioning,
    S3Handler.put_bucket_versioning, S3Handler.call, mbind, S3Handler.S_bind.
  rewrite Hget. cbn [fst snd S3Handler.c_versioning S3Handler.c_calls].
  destruct (decide (S3Handler.c_versioning c !! bucket = Some "Enabled")) as [Hen|Hdis].
  - rewrite decide_False by (by intros ?).
    eexists. split; [reflexivity|]. cbn. split_and!; try done; [lia|].
    by rewrite insert_id.
  - rewrite decide_True by done.
    cbn [fst snd S3Handler.c_versioning S3Handler.c_calls S3Handler.c_objects
         S3Handler.c_slept].
    rewrite (Hput Hdis).
    eexists. split; [reflexivity|]. cbn. split_and!; try done. lia.
Qed.

(** X15: when the calls it makes succeed, [ensure_versioning] leaves the
    bucket with versioning [Enabled] and every other bucket as it was;
    it makes one call when versioning is already enabled and two, the
    second being the [put], otherwise. *)
Theorem ensure_versioning_enables bucket c :
  fails (S3Handler.c_calls c) = None →
  (S3Handler.c_versioning c !! bucket ≠ Some "Enabled" →
   fails (S (S3Handler.c_calls c)) = None) →
  (S3Handler.ensure_versioning fails bucket c).1 = S3Handler.Done tt
  ∧ S3Handler.c_versioning (S3Handler.ensure_versioning fails bucket c).2 !! bucket
    = Some "Enabled"
  ∧ (∀ b, b ≠ bucket →
       S3Handler.c_versioning (S3Handler.ensure_versioning fails bucket c).2 !! b
       = S3Handler.c_versioning c !! b)
  ∧ S3Handler.c_objects (S3Handler.ensure_versioning fails bucket c).2
    = S3Handler.c_objects c
  ∧ S3Handler.c_calls (S3Handler.ensure_versioning fails bucket c).2
    = S3Handler.c_calls c
      + (if decide (S3Handler.c_versioning c !! bucket = Some "Enabled") then 1 else 2).
Proof.
  intros Hget Hput.
  unfold S3Handler.ensure_versioning, S3Handler.get_bucket_versioning,
    S3Handler.put_bucket_versioning, S3Handler.call, mbind, S3Handler.S_bind.
  rewrite Hget. cbn [fst snd S3Handler.c_versioning S3Handler.c_calls].
  destruct (decide (S3Handler.c_versioning c !! bucket = Some "Enabled")) as [Hen|Hdis].
  - rewrite decide_False by (by intros ?).
    cbn. split_and!; try done. lia.
  - rewrite decide_True by done.
    cbn [fst snd S3Handler.c_versioning S3Handler.c_calls S3Handler.c_objects
         S3Handler.c_slept].
    rewrite (Hput Hdis).
    cbn. split_and!; try done; [apply lookup_insert_eq| |lia].
    intros b Hb. by rewrite lookup_insert_ne.
Qed.

Lemma dict_set_seen base acc ds :
  ds ∈ acc →
  S3Handler.dict_set (S3Handler.file_entry base <$> acc) ds (S3Handler.file_entry base ds).2
  = S3Handler.file_entry base <$> acc.
Proof.
  induction acc as [|x acc IH]; [by intros ?%elem_of_nil|].
  intros Hin. simpl. case_decide as Heq.
  - by subst x.
  - f_equal. apply IH. apply elem_of_cons in Hin as [->|Hin]; done.
Qed.

Lemma dict_set_new base acc ds :
  ds ∉ acc →
  S3Handler.dict_set (S3Handler.file_entry base <$> acc) ds (S3Handler.file_entry base ds).2
  = S3Handler.file_entry base <$> (acc ++ [ds]).
Proof.
  induction acc as [|x acc IH]; [done|].
  intros Hnin. simpl. apply not_elem_of_cons in Hnin as [Hne Hnin].
  rewrite decide_False by done. f_equal. by apply IH.
Qed.

Lemma find_local_files_from_present base datasets : ∀ seen acc c,
  (∀ x, x ∈ seen ↔ x ∈ acc) →
  (∀ ds, ds ∈ datasets → path_exists (S3Handler.file_entry base ds).2 = true) →
  S3Handler.find_local_files_from path_exists base datasets
    (S3Handler.file_entry base <$> acc) c
  = (S3Handler.Done
       (S3Handler.file_entry base <$> (acc ++ S3Handler.first_occurrences seen datasets)),
     c).
Proof.
  induction datasets as [|ds datasets IH]; intros seen acc c Hseen Hall; simpl.
  - by rewrite app_nil_r.
  - pose proof (Hall ds) as Hds. simpl in Hds. rewrite Hds by (by left).
    fold (S3Handler.file_entry base ds).2.
    case_decide as Hin.
    + rewrite dict_set_seen by (by apply Hseen).
      apply IH; [done|]. intros ds' Hds'. apply Hall. by right.
    + rewrite dict_set_new by (by rewrite <- Hseen).
      rewrite (IH (ds :: seen)).
      * by rewrite <- (assoc_L (++)).
      * intros x. rewrite elem_of_cons, elem_of_app, list_elem_of_singleton, Hseen. tauto.
      * intros ds' Hds'. apply Hall. by right.
Qed.


Lemma find_local_files_present base datasets c :
  (∀ ds, ds ∈ datasets → path_exists (S3Handler.file_entry base ds).2 = true) →
  S3Handler.find_local_files path_exists base datasets c
  = (S3Handler.Done
       (S3Handler.file_entry base <$> S3Handler.first_occurrences [] datasets), c).
Proof.
  intros Hall. unfold S3Handler.find_local_files.
  by apply (find_local_files_from_present base datasets [] [] c).
Qed.

(** X16: when the file of every dataset exists, [find_local_files]
    returns one entry per dataset, in the order in which the datasets
    are first named, each with the path [base_path / f"{ds}.csv"]: a
    dataset named twice is listed once. *)
Theorem find_local_files_all_present base datasets c :
  (∀ ds, ds ∈ datasets → path_exists (S3Handler.file_entry base ds).2 = true) →
  S3Handler.find_local_files path_exists base datasets c
  = (S3Handler.Done
       (S3Handler.file_entry base <$> S3Handler.first_occurrences [] datasets), c).
Proof.
  intros Hall. by apply find_local_files_present.
Qed.


Lemma for_each_uploads fuel a when dss : ∀ c,
  0 < fuel →
  (∀ n, S3Handler.c_calls c ≤ n → fails n = None) →
  S3Handler.for_each (S3Handler.file_entry (S3Handler.a_base_path a) <$> dss)
    (λ '(ds, local_path),
       S3Handler.backoff_upload fails fuel (S3Handler.a_bucket a) local_path
         (S3Handler.build_key (S3Handler.rstrip "/" (S3Handler.a_prefix a)) when ds
            (S3Handler.path_name local_path)) S3Handler.MAX_RETRIES) c
  = (S3Handler.Done tt,
     {| S3Handler.c_calls := S3Handler.c_calls c + length dss;
        S3Handler.c_objects := S3Handler.c_objects c ++ (S3Handler.object_of a when <$> dss);
        S3Handler.c_versioning := S3Handler.c_versioning c;
        S3Handler.c_slept := S3Handler.c_slept c |}).
Proof.
  induction dss as [|ds dss IH]; intros c Hfuel Hok.
  - simpl. rewrite app_nil_r, Nat.add_0_r. by destruct c.
  - cbn [fmap list_fmap S3Handler.for_each S3Handler.file_entry].
    unfold mbind, S3Handler.S_bind, S3Handler.backoff_upload.
    rewrite (backoff_loop_succeeds _ _ _ _ 0); [|intros j Hj; lia|apply Hok; lia|by left|lia].
    fold (S3Handler.file_entry (S3Handler.a_base_path a)).
    rewrite IH; [|done|].
    + cbn [S3Handler.c_calls S3Handler.c_objects S3Handler.c_versioning S3Handler.c_slept
           length seq fmap list_fmap].
      rewrite app_nil_r. f_equal. f_equal; [lia|].
      by rewrite <- (assoc_L (++)).
    + cbn [S3Handler.c_calls]. intros n Hn. apply Hok. lia.
Qed.

Lemma main_success fuel a when c :
  0 < fuel →
  (∀ n, S3Handler.c_calls c ≤ n → fails n = None) →
  (∀ ds, ds ∈ S3Handler.a_datasets a →
     path_exists (S3Handler.file_entry (S3Handler.a_base_path a) ds).2 = true) →
  ∃ c',
    S3Handler.main fails path_exists fuel a when c = (S3Handler.Done tt, c')
    ∧ S3Handler.c_objects c'
      = S3Handler.c_objects c
        ++ (S3Handler.object_of a when
              <$> S3Handler.first_occurrences [] (S3Handler.a_datasets a))
    ∧ S3Handler.c_slept c' = S3Handler.c_slept c
    ∧ S3Handler.c_versioning c'
      = if S3Handler.a_enable_versioning a
        then <[S3Handler.a_bucket a := "Enabled"]> (S3Handler.c_versioning c)
        else S3Handler.c_versioning c.
Proof.
  intros Hfuel Hok Hall. unfold S3Handler.main. cbv zeta.
  unfold mbind at 1 2. unfold S3Handler.S_bind at 1 2.
  rewrite find_local_files_present by done.
  destruct (S3Handler.a_enable_versioning a).
  - pose proof (ensure_versioning_calls (S3Handler.a_bucket a) c) as Hens.
    destruct Hens as (c1 & Hc1 & Hcalls & Hobj & Hsl & Hver);
      [apply Hok; lia|intros _; apply Hok; lia|].
    rewrite Hc1. rewrite for_each_uploads; [|done|intros n Hn; apply Hok; lia].
    eexists. split; [reflexivity|].
    cbn [fst snd S3Handler.c_objects S3Handler.c_slept S3Handler.c_versioning].
    by rewrite Hobj, Hsl, Hver.
  - unfold mret, S3Handler.S_ret. rewrite for_each_uploads by done.
    eexists. split; [reflexivity|]. done.
Qed.

(** X18: when every file exists and no call of the client fails, [main]
    returns having uploaded each dataset exactly once, in the order in
    which the datasets are first named, each under its dated key with
    server-side encryption and without any pause; versioning is enabled
    on the bucket when asked for and is otherwise left alone. *)
Theorem main_uploads_each_dataset_once fuel a when c :
  0 < fuel →
  (∀ n, S3Handler.c_calls c ≤ n → fails n = None) →
  (∀ ds, ds ∈ S3Handler.a_datasets a →
     path_exists (S3Handler.file_entry (S3Handler.a_base_path a) ds).2 = true) →
  (S3Handler.main fails path_exists fuel a when c).1 = S3Handler.Done tt
  ∧ S3Handler.c_objects (S3Handler.main fails path_exists fuel a when c).2
    = S3Handler.c_objects c
      ++ (S3Handler.object_of a when
            <$> S3Handler.first_occurrences [] (S3Handler.a_datasets a))
  ∧ S3Handler.c_slept (S3Handler.main fails path_exists fuel a when c).2
    = S3Handler.c_slept c
  ∧ S3Handler.c_versioning (S3Handler.main fails path_exists fuel a when c).2
    = if S3Handler.a_enable_versioning a
      then <[S3Handler.a_bucket a := "Enabled"]> (S3Handler.c_versioning c)
      else S3Handler.c_versioning c.
Proof.
  intros Hfuel Hok Hall.
  destruct (main_success fuel a when c Hfuel Hok Hall) as (c' & -> & Hrest). done.
Qed.

Lemma for_each_stops fuel a when pre ds post msg : ∀ c,
  (∀ j, j < length pre → fails (S3Handler.c_calls c + j) = None) →
  (∀ j, j < 5 → is_Some (fails (S3Handler.c_calls c + length pre + j))) →
  fails (S3Handler.c_calls c + length pre + 4) = Some msg →
  5 ≤ fuel →
  S3Handler.for_each
    (S3Handler.file_entry (S3Handler.a_base_path a) <$> (pre ++ ds :: post))
    (λ '(ds, local_path),
       S3Handler.backoff_upload fails fuel (S3Handler.a_bucket a) local_path
         (S3Handler.build_key (S3Handler.rstrip "/" (S3Handler.a_prefix a)) when ds
            (S3Handler.path_name local_path)) S3Handler.MAX_RETRIES) c
  = (S3Handler.Failed (S3Handler.S3Error msg),
     {| S3Handler.c_calls := S3Handler.c_calls c + length pre + 5;
        S3Handler.c_objects := S3Handler.c_objects c ++ (S3Handler.object_of a when <$> pre);
        S3Handler.c_versioning := S3Handler.c_versioning c;
        S3Handler.c_slept := S3Handler.c_slept c ++ [2; 4; 8; 16]%Z |}).
Proof.
  induction pre as [|ds0 pre IH]; intros c Hpre Hfail Hlast Hfuel.
  - cbn [app fmap list_fmap S3Handler.for_each S3Handler.file_entry length] in *.
    rewrite Nat.add_0_r in Hfail, Hlast.
    unfold mbind, S3Handler.S_bind, S3Handler.backoff_upload, S3Handler.MAX_RETRIES.
    rewrite (backoff_loop_gives_up _ _ _ 5 4 _ _ _ msg); [|intros j Hj; apply Hfail; lia|done|
      right; lia|lia|lia].
    cbn [fmap list_fmap]. rewrite app_nil_r, Nat.add_0_r. reflexivity.
  - cbn [app fmap list_fmap S3Handler.for_each S3Handler.file_entry].
    unfold mbind, S3Handler.S_bind, S3Handler.backoff_upload.
    rewrite (backoff_loop_succeeds _ _ _ _ 0);
      [|intros j Hj; lia|rewrite Nat.add_0_r; rewrite <- (Nat.add_0_r (S3Handler.c_calls c));
        apply Hpre; simpl; lia|by left|lia].
    fold (S3Handler.file_entry (S3Handler.a_base_path a)).
    rewrite IH; cbn [S3Handler.c_calls S3Handler.c_objects S3Handler.c_versioning
                     S3Handler.c_slept length seq fmap list_fmap].
    + rewrite app_nil_r. f_equal. f_equal; [lia|].
      by rewrite <- (assoc_L (++)).
    + intros j Hj. replace (S3Handler.c_calls c + 1 + j) with (S3Handler.c_calls c + S j)
        by lia. apply Hpre. simpl. lia.
    + intros j Hj.
      replace (S3Handler.c_calls c + 1 + length pre + j)
        with (S3Handler.c_calls c + length (ds0 :: pre) + j) by (simpl; lia).
      by apply Hfail.
    + replace (S3Handler.c_calls c + 1 + length pre + 4)
        with (S3Handler.c_calls c + length (ds0 :: pre) + 4) by (simpl; lia).
      done.
    + done.
Qed.

(** X19: an upload that gives up ends the run, and nothing is undone.
    When (versioning not being asked for) the uploads of the first
    datasets succeed at once and all five attempts for the next dataset
    fail, [main] raises the error of the fifth attempt after pauses of
    2, 4, 8 and 16 seconds; the datasets before it stay uploaded and
    the datasets after it are not attempted. *)
Theorem main_stops_at_first_failed_upload fuel a when pre ds post msg c :
  S3Handler.a_enable_versioning a = false →
  S3Handler.first_occurrences [] (S3Handler.a_datasets a) = pre ++ ds :: post →
  (∀ ds', ds' ∈ S3Handler.a_datasets a →
     path_exists (S3Handler.file_entry (S3Handler.a_base_path a) ds').2 = true) →
  (∀ j, j < length pre → fails (S3Handler.c_calls c + j) = None) →
  (∀ j, j < 5 → is_Some (fails (S3Handler.c_calls c + length pre + j))) →
  fails (S3Handler.c_calls c + length pre + 4) = Some msg →
  5 ≤ fuel →
  S3Handler.main fails path_exists fuel a when c
  = (S3Handler.Failed (S3Handler.S3Error msg),
     {| S3Handler.c_calls := S3Handler.c_calls c + length pre + 5;
        S3Handler.c_objects := S3Handler.c_objects c ++ (S3Handler.object_of a when <$> pre);
        S3Handler.c_versioning := S3Handler.c_versioning c;
        S3Handler.c_slept := S3Handler.c_slept c ++ [2; 4; 8; 16]%Z |}).
Proof.
  intros Hver Hd Hall Hpre Hfail Hlast Hfuel. unfold S3Handler.main. cbv zeta.
  unfold mbind at 1 2. unfold S3Handler.S_bind at 1 2.
  rewrite find_local_files_present by done.
  rewrite Hver, Hd. unfold mret, S3Handler.S_ret.
  by apply for_each_stops.
Qed.
End Uploader.

Section Keys.

Lemma rstrip_app_slash p :
  S3Handler.rstrip "/" (String.append p "/") = S3Handler.rstrip "/" p.
Proof. induction p as [|a p IH]; [done|]. simpl. by rewrite IH. Qed.

Lemma append_nonempty p a : String.append p (String a EmptyString) ≠ EmptyString.
Proof. by destruct p. Qed.

Lemma append_nil_l s : String.append EmptyString s = s.
Proof. reflexivity. Qed.

Lemma append_cons a s t : String.append (String a s) t = String a (String.append s t).
Proof. reflexivity. Qed.

Lemma rstrip_no_trailing c s : ∀ p,
  S3Handler.rstrip c s ≠ String.append p (String c EmptyString).
Proof.
  induction s as [|a s IH]; intros p; simpl.
  - intros Heq. symmetry in Heq. by apply append_nonempty in Heq.
  - destruct (S3Handler.rstrip c s) as [|x r] eqn:Hr.
    + case_decide as Hac.
      * intros Heq. symmetry in Heq. by apply append_nonempty in Heq.
      * destruct p as [|b p]; rewrite ?append_nil_l, ?append_cons; [congruence|].
        intros [= _ Heq]. symmetry in Heq. by apply append_nonempty in Heq.
    + destruct p as [|b p]; rewrite ?append_nil_l, ?append_cons; [congruence|].
      intros [= _ Heq]. by apply (IH p).
Qed.

(** X20: trailing slashes of the prefix do not count: the prefix [main]
    builds its keys from never ends in a slash, and a run with a prefix
    that has one more trailing slash is the same run. *)
Theorem prefix_trailing_slash_ignored fails path_exists fuel bucket prefix base datasets
    versioning when c :
  (∀ p, S3Handler.rstrip "/" prefix ≠ String.append p "/")
  ∧ S3Handler.main fails path_exists fuel
      {| S3Handler.a_bucket := bucket; S3Handler.a_prefix := String.append prefix "/";
         S3Handler.a_base_path := base; S3Handler.a_datasets := datasets;
         S3Handler.a_enable_versioning := versioning |} when c
    = S3Handler.main fails path_exists fuel
        {| S3Handler.a_bucket := bucket; S3Handler.a_prefix := prefix;
           S3Handler.a_base_path := base; S3Handler.a_datasets := datasets;
           S3Handler.a_enable_versioning := versioning |} when c.
Proof.
  split; [apply rstrip_no_trailing|].
  unfold S3Handler.main. cbn [S3Handler.a_bucket S3Handler.a_prefix S3Handler.a_base_path
    S3Handler.a_datasets S3Handler.a_enable_versioning].
  by rewrite rstrip_app_slash.
Qed.

Lemma append_inj_l p a b : String.append p a = String.append p b → a = b.
Proof.
  induction p as [|x p IH]; rewrite ?append_nil_l, ?append_cons; [done|].
  intros [= H]. by apply IH.
Qed.

Lemma length_append a b :
  String.length (String.append a b) = String.length a + String.length b.
Proof. induction a as [|x a IH]; simpl; [done|]. by rewrite IH. Qed.

Lemma append_inj_length a1 a2 b1 b2 :
  String.length a1 = String.length a2 →
  String.append a1 b1 = String.append a2 b2 → a1 = a2.
Proof.
  revert a2. induction a1 as [|x a1 IH]; intros [|y a2]; simpl; try done.
  intros [= Hl] [= -> H]. f_equal. by apply IH.
Qed.

Lemma append_inj_r a1 a2 b : String.append a1 b = String.append a2 b → a1 = a2.
Proof.
  intros Heq. apply (append_inj_length a1 a2 b b); [|done].
  apply (f_equal String.length) in Heq. rewrite !length_append in Heq. lia.
Qed.

Lemma append_assoc a b c :
  String.append (String.append a b) c = String.append a (String.append b c).
Proof.
  induction a as [|x a IH]; rewrite ?append_nil_l, ?append_cons; [done|]. by rewrite IH.
Qed.

Lemma slash_free_append a b :
  S3Handler.slash_free a → S3Handler.slash_free b →
  S3Handler.slash_free (String.append a b).
Proof.
  induction a as [|x a IH]; rewrite ?append_nil_l, ?append_cons; simpl; [done|].
  intros [? ?] ?. split; [done|by apply IH].
Qed.

Lemma last_component_slash_free s : ∀ acc,
  S3Handler.slash_free acc → S3Handler.slash_free (S3Handler.last_component acc s).
Proof.
  induction s as [|a s IH]; intros acc Hacc; simpl; [done|].
  case_decide as Ha; [by apply IH|].
  apply IH. by apply slash_free_append.
Qed.

(** A name without separator is its own final component. *)
Lemma last_component_of_slash_free s : ∀ acc,
  S3Handler.slash_free s → S3Handler.last_component acc s = String.append acc s.
Proof.
  induction s as [|a s IH]; intros acc Hs; simpl.
  - clear Hs. induction acc as [|x acc IHacc]; rewrite ?append_nil_l, ?append_cons; [done|].
    by rewrite <- IHacc.
  - destruct Hs as [Ha Hs]. rewrite decide_False by done.
    rewrite IH by done. by rewrite append_assoc.
Qed.

Lemma last_component_after_slash x n : ∀ acc,
  S3Handler.slash_free n →
  S3Handler.last_component acc (String.append x (String "/" n)) = n.
Proof.
  induction x as [|a x IH]; intros acc Hn; rewrite ?append_nil_l, ?append_cons; simpl.
  - by rewrite last_component_of_slash_free.
  - case_decide; by apply IH.
Qed.

(** X21: two different datasets never share a key: for one prefix and
    one date, [main] does not store the files of two datasets under the
    same key, whatever the names of the datasets. *)
Theorem distinct_datasets_distinct_keys prefix when base ds1 ds2 :
  ds1 ≠ ds2 →
  S3Handler.build_key prefix when ds1 (S3Handler.path_name (S3Handler.file_entry base ds1).2)
  ≠ S3Handler.build_key prefix when ds2
      (S3Handler.path_name (S3Handler.file_entry base ds2).2).
Proof.
  unfold S3Handler.build_key, S3Handler.path_name. cbn [S3Handler.file_entry snd
    S3Handler.lp_rel].
  intros Hne Heq. apply Hne. do 8 apply append_inj_l in Heq.
  set (n1 := S3Handler.last_component "" (String.append ds1 ".csv")) in *.
  set (n2 := S3Handler.last_component "" (String.append ds2 ".csv")) in *.
  assert (S3Handler.slash_free n1) as H1 by (by apply last_component_slash_free).
  assert (S3Handler.slash_free n2) as H2 by (by apply last_component_slash_free).
  assert (n1 = n2) as Hn.
  { apply (f_equal (S3Handler.last_component "")) in Heq.
    rewrite !(append_cons "/" ""), !append_nil_l in Heq.
    by rewrite !last_component_after_slash in Heq. }
  rewrite Hn in Heq. by apply append_inj_r in Heq.
Qed.
End Keys.

(** ** The uploader at work *)

(** Two failures, then a success: three calls, pauses of 2 and 4 seconds. *)
Lemma backoff_upload_returns_at_first_success_witness :
  S3Handler.backoff_upload S3Handler.two_failures 5 "shopflow" S3Handler.customers_path
    "raw/customers.csv" 5 S3Handler.c0
  = (S3Handler.Done tt,
     {| S3Handler.c_calls := S3Handler.c_calls S3Handler.c0 + 3;
        S3Handler.c_objects :=
          S3Handler.c_objects S3Handler.c0
          ++ [ {| S3Handler.o_bucket := "shopflow"; S3Handler.o_key := "raw/customers.csv";
                  S3Handler.o_source := S3Handler.customers_path;
                  S3Handler.o_sse := "AES256" |} ];
        S3Handler.c_versioning := S3Handler.c_versioning S3Handler.c0;
        S3Handler.c_slept := S3Handler.c_slept S3Handler.c0 ++ S3Handler.pauses 2 |}).
Proof.
  apply (backoff_upload_returns_at_first_success S3Handler.two_failures 5 "shopflow"
           S3Handler.customers_path "raw/customers.csv" 5 2 S3Handler.c0).
  - intros j Hj. destruct j as [|[|j]]; [by eexists|by eexists|lia].
  - reflexivity.
  - lia.
  - lia.
Defined.

Lemma backoff_upload_gives_up_witness :
  S3Handler.backoff_upload S3Handler.always_fails 5 "shopflow" S3Handler.customers_path
    "raw/customers.csv" 5 S3Handler.c0
  = (S3Handler.Failed (S3Handler.S3Error "AccessDenied"),
     {| S3Handler.c_calls := S3Handler.c_calls S3Handler.c0 + Z.to_nat (Z.max 1 5);
        S3Handler.c_objects := S3Handler.c_objects S3Handler.c0;
        S3Handler.c_versioning := S3Handler.c_versioning S3Handler.c0;
        S3Handler.c_slept :=
          S3Handler.c_slept S3Handler.c0 ++ S3Handler.pauses (Z.to_nat (Z.max 1 5) - 1) |}).
Proof.
  apply (backoff_upload_gives_up S3Handler.always_fails 5 "shopflow"
           S3Handler.customers_path "raw/customers.csv" 5 S3Handler.c0 "AccessDenied").
  - intros j Hj. by eexists.
  - reflexivity.
  - vm_compute. lia.
Defined.


Lemma ensure_versioning_enables_witness :
  (S3Handler.ensure_versioning S3Handler.never_fails "shopflow" S3Handler.c0).1
    = S3Handler.Done tt
  ∧ S3Handler.c_versioning
      (S3Handler.ensure_versioning S3Handler.never_fails "shopflow" S3Handler.c0).2
      !! "shopflow" = Some "Enabled"
  ∧ (∀ b, b ≠ "shopflow" →
       S3Handler.c_versioning
         (S3Handler.ensure_versioning S3Handler.never_fails "shopflow" S3Handler.c0).2 !! b
       = S3Handler.c_versioning S3Handler.c0 !! b)
  ∧ S3Handler.c_objects
      (S3Handler.ensure_versioning S3Handler.never_fails "shopflow" S3Handler.c0).2
    = S3Handler.c_objects S3Handler.c0
  ∧ S3Handler.c_calls
      (S3Handler.ensure_versioning S3Handler.never_fails "shopflow" S3Handler.c0).2
    = S3Handler.c_calls S3Handler.c0
      + (if decide (S3Handler.c_versioning S3Handler.c0 !! "shopflow" = Some "Enabled")
         then 1 else 2).
Proof.
  apply (ensure_versioning_enables S3Handler.never_fails "shopflow" S3Handler.c0).
  - reflexivity.
  - intros _. reflexivity.
Defined.

(** [customers] is named twice and listed once. *)
Lemma find_local_files_all_present_witness :
  S3Handler.find_local_files S3Handler.all_exist "data/raw"
    ["customers"; "products"; "customers"; "transactions"] S3Handler.c0
  = (S3Handler.Done
       (S3Handler.file_entry "data/raw"
          <$> S3Handler.first_occurrences []
                ["customers"; "products"; "customers"; "transactions"]), S3Handler.c0).
Proof.
  apply (find_local_files_all_present S3Handler.all_exist "data/raw"
           ["customers"; "products"; "customers"; "transactions"] S3Handler.c0).
  intros ds Hds. reflexivity.
Defined.


Lemma main_uploads_each_dataset_once_witness :
  (S3Handler.main S3Handler.never_fails S3Handler.all_exist 1 S3Handler.default_args
     S3Handler.partition_day S3Handler.c0).1 = S3Handler.Done tt
  ∧ S3Handler.c_objects
      (S3Handler.main S3Handler.never_fails S3Handler.all_exist 1 S3Handler.default_args
         S3Handler.partition_day S3Handler.c0).2
    = S3Handler.c_objects S3Handler.c0
      ++ (S3Handler.object_of S3Handler.default_args S3Handler.partition_day
            <$> S3Handler.first_occurrences []
                  (S3Handler.a_datasets S3Handler.default_args))
  ∧ S3Handler.c_slept
      (S3Handler.main S3Handler.never_fails S3Handler.all_exist 1 S3Handler.default_args
         S3Handler.partition_day S3Handler.c0).2
    = S3Handler.c_slept S3Handler.c0
  ∧ S3Handler.c_versioning
      (S3Handler.main S3Handler.never_fails S3Handler.all_exist 1 S3Handler.default_args
         S3Handler.partition_day S3Handler.c0).2
    = if S3Handler.a_enable_versioning S3Handler.default_args
      then <[S3Handler.a_bucket S3Handler.default_args := "Enabled"]>
             (S3Handler.c_versioning S3Handler.c0)
      else S3Handler.c_versioning S3Handler.c0.
Proof.
  apply (main_uploads_each_dataset_once S3Handler.never_fails S3Handler.all_exist 1
           S3Handler.default_args S3Handler.partition_day S3Handler.c0).
  - lia.
  - intros n Hn. reflexivity.
  - intros ds Hds. reflexivity.
Defined.

(** [customers] is uploaded at once, [products] is given up after five
    attempts, [transactions] is not tried. *)
Lemma main_stops_at_first_failed_upload_witness :
  S3Handler.main S3Handler.fails_after_first S3Handler.all_exist 5 S3Handler.plain_args
    S3Handler.partition_day S3Handler.c0
  = (S3Handler.Failed (S3Handler.S3Error "SlowDown"),
     {| S3Handler.c_calls := S3Handler.c_calls S3Handler.c0 + length ["customers"] + 5;
        S3Handler.c_objects :=
          S3Handler.c_objects S3Handler.c0
          ++ (S3Handler.object_of S3Handler.plain_args S3Handler.partition_day
                <$> ["customers"]);
        S3Handler.c_versioning := S3Handler.c_versioning S3Handler.c0;
        S3Handler.c_slept := S3Handler.c_slept S3Handler.c0 ++ [2; 4; 8; 16]%Z |}).
Proof.
  apply (main_stops_at_first_failed_upload S3Handler.fails_after_first S3Handler.all_exist 5
           S3Handler.plain_args S3Handler.partition_day
           ["customers"] "products" ["transactions"] "SlowDown" S3Handler.c0).
  - reflexivity.
  - vm_compute. reflexivity.
  - intros ds Hds. reflexivity.
  - intros j Hj. simpl in Hj. destruct j as [|j]; [reflexivity|lia].
  - intros j Hj. by eexists.
  - reflexivity.
  - lia.
Defined.

Lemma distinct_datasets_distinct_keys_witness :
  S3Handler.build_key "raw" S3Handler.partition_day "customers"
    (S3Handler.path_name (S3Handler.file_entry "data/raw" "customers").2)
  ≠ S3Handler.build_key "raw" S3Handler.partition_day "products"
      (S3Handler.path_name (S3Handler.file_entry "data/raw" "products").2).
Proof.
  apply (distinct_datasets_distinct_keys "raw" S3Handler.partition_day "data/raw"
           "customers" "products").
  scenario_decide.
Defined.

(** The keys of the scenario. *)
Lemma object_keys_scenario :
  S3Handler.o_key
    <$> S3Handler.c_objects
          (S3Handler.main S3Handler.never_fails S3Handler.all_exist 5 S3Handler.default_args
             S3Handler.partition_day S3Handler.c0).2
  = [ "raw/year=2025/month=01/day=15/customers/customers.csv";
      "raw/year=2025/month=01/day=15/products/products.csv";
      "raw/year=2025/month=01/day=15/transactions/transactions.csv" ].
Proof. vm_compute. reflexivity. Qed.

(** ** Regular expressions *)

Section RegexFacts.

Lemma append_nil_r s : s +:+ "" = s.
Proof. induction s as [|a s IH]; rewrite ?append_nil_l, ?append_cons; [done|]. by rewrite IH. Qed.

Lemma matches_never s : Py.matches Py.Never s = false.
Proof. induction s as [|a s IH]; simpl; done. Qed.

Lemma matches_alt s : ∀ r1 r2,
  Py.matches (Py.Alt r1 r2) s = Py.matches r1 s || Py.matches r2 s.
Proof. induction s as [|a s IH]; intros r1 r2; simpl; [done|]. apply IH. Qed.

Lemma matches_eps s : Py.matches Py.Eps s = true ↔ s = "".
Proof.
  destruct s as [|a s]; simpl; [done|]. rewrite matches_never. split; done.
Qed.

Lemma matches_seq_never r s : Py.matches (Py.Seq Py.Never r) s = false.
Proof. induction s as [|a s IH]; simpl; done. Qed.

Lemma matches_seq_eps r s : Py.matches (Py.Seq Py.Eps r) s = Py.matches r s.
Proof.
  destruct s as [|a s]; simpl; [done|].
  by rewrite matches_alt, matches_seq_never.
Qed.

Lemma matches_seq_intro s1 : ∀ r1 r2 s2,
  Py.matches r1 s1 = true → Py.matches r2 s2 = true →
  Py.matches (Py.Seq r1 r2) (s1 +:+ s2) = true.
Proof.
  induction s1 as [|a s1 IH]; intros r1 r2 s2 H1 H2;
    rewrite ?append_nil_l, ?append_cons; simpl in *.
  - destruct s2 as [|b s2]; simpl in *; [by rewrite H1, H2|].
    rewrite H1, matches_alt, H2. by rewrite orb_true_r.
  - destruct (Py.nullable r1).
    + rewrite matches_alt, IH by done. done.
    + by apply IH.
Qed.

Lemma matches_seq_inv s : ∀ r1 r2,
  Py.matches (Py.Seq r1 r2) s = true →
  ∃ s1 s2, s = s1 +:+ s2 ∧ Py.matches r1 s1 = true ∧ Py.matches r2 s2 = true.
Proof.
  induction s as [|a s IH]; intros r1 r2; simpl.
  - intros [H1 H2]%andb_true_iff. by exists "", "".
  - destruct (Py.nullable r1) eqn:Hn.
    + rewrite matches_alt. intros [H|H]%orb_true_iff.
      * apply IH in H as (s1 & s2 & -> & H1 & H2). by exists (String a s1), s2.
      * by exists "", (String a s).
    + intros H. apply IH in H as (s1 & s2 & -> & H1 & H2). by exists (String a s1), s2.
Qed.

Lemma matches_class p s :
  Py.matches (Py.Class p) s = true ↔ ∃ a, s = String a "" ∧ p a = true.
Proof.
  destruct s as [|a [|b s]]; simpl.
  - split; [done|]. by intros (a & ? & _).
  - destruct (p a) eqn:Hp; simpl; split; try done.
    + intros _. by exists a.
    + intros (a' & [= <-] & ?). congruence.
  - split; [|by intros (a' & ? & _)].
    destruct (p a); simpl; by rewrite matches_never.
Qed.

Lemma matches_star_class p s :
  Py.matches (Py.Star (Py.Class p)) s = Py.all_chars p s.
Proof.
  induction s as [|a s IH]; simpl; [done|].
  destruct (p a); simpl.
  - by rewrite matches_seq_eps.
  - by rewrite matches_seq_never.
Qed.

Lemma matches_plus_class p s :
  Py.matches (Py.Plus (Py.Class p)) s = true ↔ s ≠ "" ∧ Py.all_chars p s = true.
Proof.
  unfold Py.Plus. destruct s as [|a s]; simpl.
  - split; [done|]. by intros [? _].
  - destruct (p a); simpl.
    + rewrite matches_seq_eps, matches_star_class. split; [done|by intros [_ ?]].
    + rewrite matches_seq_never. split; [done|by intros [_ ?]].
Qed.

Lemma all_chars_append p s1 s2 :
  Py.all_chars p (s1 +:+ s2) = Py.all_chars p s1 && Py.all_chars p s2.
Proof.
  induction s1 as [|a s1 IH]; rewrite ?append_nil_l, ?append_cons; simpl; [done|].
  rewrite IH. by rewrite andb_assoc.
Qed.

Lemma all_chars_impl (p q : ascii → bool) s :
  (∀ a, p a = true → q a = true) → Py.all_chars p s = true → Py.all_chars q s = true.
Proof.
  intros Hpq. induction s as [|a s IH]; simpl; [done|].
  intros [Ha Hs]%andb_true_iff. by rewrite (Hpq a Ha), IH.
Qed.

Lemma matches_atleast2_class p s :
  Py.matches (Py.AtLeast2 (Py.Class p)) s = true
  ↔ 2 ≤ String.length s ∧ Py.all_chars p s = true.
Proof.
  unfold Py.AtLeast2. split.
  - intros (s1 & s2 & -> & (a & -> & Ha)%matches_class & H)%matches_seq_inv.
    apply matches_seq_inv in H as (s3 & s4 & -> & (b & -> & Hb)%matches_class & H).
    rewrite matches_star_class in H. rewrite !append_cons, !append_nil_l. simpl.
    rewrite Ha, Hb, H. split; [lia|done].
  - intros [Hlen Hall]. destruct s as [|a [|b s]]; simpl in Hlen; [lia|lia|].
    simpl in Hall. apply andb_true_iff in Hall as [Ha [Hb Hs]%andb_true_iff].
    change (String a (String b s)) with (String a "" +:+ String b "" +:+ s).
    apply matches_seq_intro; [apply matches_class; by exists a|].
    apply matches_seq_intro; [apply matches_class; by exists b|].
    by rewrite matches_star_class.
Qed.

(** What [EMAIL_RE.match] accepts. *)
Lemma email_accepted_iff s :
  Py.match_anchored Validator.EMAIL_RE s = true
  ↔ ∃ local dom tld nl,
      s = local +:+ "@" +:+ dom +:+ "." +:+ tld +:+ nl
      ∧ local ≠ "" ∧ Py.all_chars Validator.local_char local = true
      ∧ dom ≠ "" ∧ Py.all_chars Validator.domain_char dom = true
      ∧ 2 ≤ String.length tld ∧ Py.all_chars Validator.alpha tld = true
      ∧ (nl = "" ∨ nl = String "010" "").
Proof.
  unfold Py.match_anchored, Validator.EMAIL_RE. split.
  - intros (e & nl & -> & He & Hnl)%matches_seq_inv.
    apply matches_seq_inv in He as (local & r1 & -> & Hlocal & H).
    apply matches_seq_inv in H as (at_ & r2 & -> & (a & -> & Ha)%matches_class & H).
    apply matches_seq_inv in H as (dom & r3 & -> & Hdom & H).
    apply matches_seq_inv in H as (dot & tld & -> & (b & -> & Hb)%matches_class & Htld).
    apply matches_plus_class in Hlocal as [? ?], Hdom as [? ?].
    apply matches_atleast2_class in Htld as [? ?].
    apply Ascii.eqb_eq in Ha, Hb. subst a b.
    exists local, dom, tld, nl. split_and!; try done.
    + rewrite !append_assoc. done.
    + unfold Py.Opt in Hnl. rewrite matches_alt in Hnl.
      apply orb_true_iff in Hnl as [Hnl|Hnl].
      * left. by apply matches_eps.
      * right. apply matches_class in Hnl as (c & -> & <-%Ascii.eqb_eq). done.
  - intros (local & dom & tld & nl & -> & Hl & Hlc & Hd & Hdc & Ht & Htc & Hnl).
    replace (local +:+ "@" +:+ dom +:+ "." +:+ tld +:+ nl)
      with ((local +:+ "@" +:+ dom +:+ "." +:+ tld) +:+ nl)
      by (by rewrite !append_assoc).
    apply matches_seq_intro.
    + apply matches_seq_intro; [by apply matches_plus_class|].
      apply (matches_seq_intro "@"); [done|].
      apply matches_seq_intro; [by apply matches_plus_class|].
      apply (matches_seq_intro "."); [done|].
      by apply matches_atleast2_class.
    + unfold Py.Opt. rewrite matches_alt. by destruct Hnl as [->| ->].
Qed.
End RegexFacts.

(** ** The validator *)

Section ValidatorFacts.

Lemma check_nulls_from row rownum cols label : ∀ acc,
  foldl (λ errors c,
           if Validator.is_null (default (PStr "") (row !! c))
           then errors ++ [label +:+ ": row " +:+ Py.str_int rownum +:+ " null in '"
                             +:+ c +:+ "'"]
           else errors) acc cols
  = acc ++ Validator.check_nulls row rownum cols label.
Proof.
  unfold Validator.check_nulls.
  induction cols as [|c cols IH]; intros acc; simpl; [by rewrite app_nil_r|].
  destruct (Validator.is_null (default (PStr "") (row !! c))).
  - rewrite (IH (acc ++ _)), (IH [_]). by rewrite <- (assoc_L (++)).
  - apply IH.
Qed.

Lemma check_nulls_cons row rownum c cols label :
  Validator.check_nulls row rownum (c :: cols) label
  = (if Validator.is_null (default (PStr "") (row !! c))
     then [label +:+ ": row " +:+ Py.str_int rownum +:+ " null in '" +:+ c +:+ "'"]
     else [])
    ++ Validator.check_nulls row rownum cols label.
Proof.
  unfold Validator.check_nulls at 1. simpl. rewrite check_nulls_from.
  by destruct (Validator.is_null (default (PStr "") (row !! c))).
Qed.

(** X23: [check_nulls] reports nothing exactly when the record has
    every required column with a value that is neither [None] nor the
    empty string; a column the record lacks counts as null. *)
Theorem check_nulls_passes_iff row rownum cols label :
  Validator.check_nulls row rownum cols label = []
  ↔ Forall (λ c, ∃ v, row !! c = Some v ∧ Validator.is_null v = false) cols.
Proof.
  induction cols as [|c cols IH]; [done|].
  rewrite check_nulls_cons, Forall_cons, <- IH.
  destruct (row !! c) as [v|] eqn:Hv; simpl.
  - destruct (Validator.is_null v) eqn:Hn; simpl.
    + split; [done|]. intros [(v' & [= <-] & ?) _]. congruence.
    + split; [|by intros [_ ?]]. intros ?. split; [by exists v|done].
  - split; [done|]. by intros [(v' & ? & _) _].
Qed.

Lemma check_nulls_getitems row rownum cols label :
  Validator.check_nulls row rownum cols label = [] →
  ∃ vals, getitems row cols = Ok vals
          ∧ length vals = length cols
          ∧ Forall (λ v, Validator.is_null v = false) vals.
Proof.
  induction cols as [|c cols IH]; [by exists []|].
  rewrite check_nulls_cons.
  intros [Hc Hrest]%app_eq_nil. destruct (IH Hrest) as (vals & Hg & Hl & Hall).
  destruct (row !! c) as [v|] eqn:Hv; simpl in Hc; [|done].
  destruct (Validator.is_null v) eqn:Hn; [done|].
  exists (v :: vals). simpl. rewrite Hv, Hg. split_and!; [done|by rewrite Hl|by constructor].
Qed.

(** X24: the validator requires of each file exactly the columns the
    loader reads from it, and a record for which [check_nulls] reports
    nothing never makes the loader raise [KeyError]: every declared
    column yields a value, none of them [None] or empty. *)
Theorem validated_record_loads table filename cols pk row rownum :
  (table, (filename, cols, pk)) ∈ FILES →
  (filename, cols) ∈ Validator.REQUIRED
  ∧ (Validator.check_nulls row rownum cols filename = [] →
     ∃ vals, getitems row cols = Ok vals
             ∧ length vals = length cols
             ∧ Forall (λ v, Validator.is_null v = false) vals).
Proof.
  intros Hin. split; [|apply check_nulls_getitems].
  unfold FILES in Hin. rewrite !elem_of_cons in Hin.
  destruct Hin as [[= -> -> -> ->]|[[= -> -> -> ->]|[[= -> -> -> ->]|[]%elem_of_nil]]];
    apply (bool_decide_unpack _); vm_compute; reflexivity.
Qed.

(** X25: [validate_email] reports nothing exactly for an address made
    of a non-empty local part of letters, digits and [._%+-], an [@], a
    non-empty domain of letters, digits, dots and hyphens, a dot and at
    least two letters, optionally followed by one newline; [None] and
    the empty string are reported. *)
Theorem validate_email_passes_iff email rownum :
  Validator.validate_email email rownum = []
  ↔ ∃ local dom tld nl,
      email = Some (local +:+ "@" +:+ dom +:+ "." +:+ tld +:+ nl)
      ∧ local ≠ "" ∧ Py.all_chars Validator.local_char local = true
      ∧ dom ≠ "" ∧ Py.all_chars Validator.domain_char dom = true
      ∧ 2 ≤ String.length tld ∧ Py.all_chars Validator.alpha tld = true
      ∧ (nl = "" ∨ nl = String "010" "").
Proof.
  unfold Validator.validate_email.
  destruct (Py.match_anchored Validator.EMAIL_RE (default "" email)) eqn:Hm; simpl.
  - apply email_accepted_iff in Hm as (local & dom & tld & nl & Heq & Hrest).
    split; [intros _|done]. exists local, dom, tld, nl. split; [|done].
    destruct email as [s|]; simpl in Heq; [by rewrite Heq|].
    destruct local; [by destruct Hrest|done].
  - split; [done|]. intros (local & dom & tld & nl & -> & Hrest). exfalso.
    simpl in Hm. assert (Py.match_anchored Validator.EMAIL_RE
      (local +:+ "@" +:+ dom +:+ "." +:+ tld +:+ nl) = true) as Ht; [|congruence].
    apply email_accepted_iff. by exists local, dom, tld, nl.
Qed.
End ValidatorFacts.

(** ** The generator *)

Section GeneratorFacts.
Variable nfkd_ascii : string → string.

Lemma all_chars_filter p s : Py.all_chars p (Py.string_filter p s) = true.
Proof.
  induction s as [|a s IH]; simpl; [done|].
  destruct (p a) eqn:Hp; simpl; [by rewrite Hp|done].
Qed.

Lemma collapse_cons c a b s :
  Py.collapse c (String a (String b s))
  = if Ascii.eqb a c && Ascii.eqb b c then Py.collapse c (String b s)
    else String a (Py.collapse c (String b s)).
Proof. reflexivity. Qed.

Lemma no_double_cons c a b s :
  Generator.no_double c (String a (String b s))
  = negb (Ascii.eqb a c && Ascii.eqb b c) && Generator.no_double c (String b s).
Proof. reflexivity. Qed.

Lemma collapse_head c b t : ∃ t', Py.collapse c (String b t) = String b t'.
Proof.
  revert b. induction t as [|d t IH]; intros b; [by exists ""|].
  rewrite collapse_cons.
  destruct (Ascii.eqb b c && Ascii.eqb d c) eqn:Hbd.
  - apply andb_true_iff in Hbd as [->%Ascii.eqb_eq ->%Ascii.eqb_eq]. apply IH.
  - by eexists.
Qed.

Lemma all_chars_collapse p c s :
  Py.all_chars p s = true → Py.all_chars p (Py.collapse c s) = true.
Proof.
  induction s as [|a s IH]; [done|]. intros Hall.
  pose proof Hall as [Ha Hs]%andb_true_iff.
  destruct s as [|b s]; [done|].
  rewrite collapse_cons.
  destruct (Ascii.eqb a c && Ascii.eqb b c); [by apply IH|].
  change (p a && Py.all_chars p (Py.collapse c (String b s)) = true).
  rewrite Ha. by apply IH.
Qed.

Lemma no_double_collapse c s : Generator.no_double c (Py.collapse c s) = true.
Proof.
  induction s as [|a s IH]; [done|].
  destruct s as [|b s]; [done|].
  rewrite collapse_cons.
  destruct (Ascii.eqb a c && Ascii.eqb b c) eqn:Hab; [done|].
  destruct (collapse_head c b s) as [t' Ht']. rewrite Ht' in IH |- *.
  rewrite no_double_cons. by rewrite Hab, IH.
Qed.

Lemma all_chars_lstrip p c s :
  Py.all_chars p s = true → Py.all_chars p (Py.lstrip c s) = true.
Proof.
  induction s as [|a s IH]; [done|]. simpl. intros Hall.
  destruct (Ascii.eqb a c); [|done].
  apply andb_true_iff in Hall as [_ Hs]. by apply IH.
Qed.

Lemma no_double_tail c a s :
  Generator.no_double c (String a s) = true → Generator.no_double c s = true.
Proof. destruct s as [|b s]; [done|]. simpl. by intros [_ ?]%andb_true_iff. Qed.

Lemma no_double_lstrip c s :
  Generator.no_double c s = true → Generator.no_double c (Py.lstrip c s) = true.
Proof.
  induction s as [|a s IH]; [done|]. intros Hnd. simpl.
  destruct (Ascii.eqb a c); [|done]. apply IH. by eapply no_double_tail.
Qed.

Lemma lstrip_no_leading c s t : Py.lstrip c s ≠ String c t.
Proof.
  induction s as [|a s IH]; [done|]. simpl.
  destruct (Ascii.eqb a c) eqn:Hac; [done|].
  intros [= -> _]. by rewrite Ascii.eqb_refl in Hac.
Qed.

Lemma rstrip_head c b t :
  S3Handler.rstrip c (String b t) = ""
  ∨ ∃ r, S3Handler.rstrip c (String b t) = String b r.
Proof.
  simpl. destruct (S3Handler.rstrip c t) as [|x r].
  - case_decide; [by left|right; by eexists].
  - right. by eexists.
Qed.

Lemma all_chars_rstrip p c s :
  Py.all_chars p s = true → Py.all_chars p (S3Handler.rstrip c s) = true.
Proof.
  induction s as [|a s IH]; [done|]. simpl. intros [Ha Hs]%andb_true_iff.
  specialize (IH Hs). destruct (S3Handler.rstrip c s) as [|x r].
  - case_decide; simpl; [done|by rewrite Ha].
  - simpl in *. by rewrite Ha, IH.
Qed.

Lemma no_double_rstrip c s :
  Generator.no_double c s = true → Generator.no_double c (S3Handler.rstrip c s) = true.
Proof.
  induction s as [|a s IH]; [done|]. intros Hnd.
  pose proof (no_double_tail c a s Hnd) as Hs. specialize (IH Hs).
  cbn [S3Handler.rstrip].
  destruct s as [|b s].
  - simpl. by case_decide.
  - destruct (rstrip_head c b s) as [Hr|[r Hr]]; rewrite Hr in IH |- *.
    + by case_decide.
    + rewrite no_double_cons in Hnd |- *.
      apply andb_true_iff in Hnd as [Hab _]. by rewrite Hab, IH.
Qed.

Lemma rstrip_keeps_head c s t :
  S3Handler.rstrip c s = String c t → ∃ t', s = String c t'.
Proof.
  destruct s as [|b s]; [done|].
  destruct (rstrip_head c b s) as [Hr|[r Hr]]; rewrite Hr; [done|].
  intros [= -> _]. by eexists.
Qed.

Lemma slug_ascii_chars s :
  Py.all_chars Generator.slug_char (Generator.slug_ascii nfkd_ascii s) = true.
Proof.
  unfold Generator.slug_ascii, Py.strip. cbv zeta.
  apply all_chars_rstrip, all_chars_lstrip, all_chars_collapse, all_chars_filter.
Qed.

(** X26: whatever the name, [slug_ascii] returns a string of lower-case
    letters, digits and dots only, without two dots in a row and
    without a dot at either end. *)
Theorem slug_ascii_shape s :
  Py.all_chars Generator.slug_char (Generator.slug_ascii nfkd_ascii s) = true
  ∧ Generator.no_double "." (Generator.slug_ascii nfkd_ascii s) = true
  ∧ (∀ t, Generator.slug_ascii nfkd_ascii s ≠ String "." t)
  ∧ (∀ p, Generator.slug_ascii nfkd_ascii s ≠ p +:+ ".").
Proof.
  split_and!; [apply slug_ascii_chars|..]; unfold Generator.slug_ascii, Py.strip; cbv zeta.
  - apply no_double_rstrip, no_double_lstrip, no_double_collapse.
  - intros t Heq. apply rstrip_keeps_head in Heq as [t' Heq].
    by apply lstrip_no_leading in Heq.
  - apply rstrip_no_trailing.
Qed.

Lemma uint_digits d : Py.all_chars Py.is_digit (NilEmpty.string_of_uint d) = true.
Proof. induction d as [|d IH|d IH|d IH|d IH|d IH|d IH|d IH|d IH|d IH|d IH]; simpl; done. Qed.

Lemma str_int_chars z :
  Py.all_chars (λ a, Py.is_digit a || Ascii.eqb a "-") (Py.str_int z) = true.
Proof.
  assert (Hu : ∀ d, Py.all_chars (λ a, Py.is_digit a || Ascii.eqb a "-")
                      (NilZero.string_of_uint d) = true).
  { intros d. apply (all_chars_impl Py.is_digit); [by intros a ->|].
    destruct d; [done|apply uint_digits..]. }
  unfold Py.str_int. destruct z as [|p|p]; simpl; [done|apply Hu|].
  by rewrite Hu.
Qed.

Lemma slug_char_local a : Generator.slug_char a = true → Validator.local_char a = true.
Proof.
  unfold Generator.slug_char, Validator.local_char.
  destruct (Py.is_lower a), (Py.is_digit a), (Ascii.eqb a "."), (Py.is_upper a); done.
Qed.

Lemma digit_local a :
  Py.is_digit a || Ascii.eqb a "-" = true → Validator.local_char a = true.
Proof.
  unfold Validator.local_char.
  destruct (Py.is_digit a), (Ascii.eqb a "-"), (Py.is_upper a), (Py.is_lower a),
    (Ascii.eqb a "."), (Ascii.eqb a "_"), (Ascii.eqb a "%"), (Ascii.eqb a "+"); done.
Qed.

(** X27: every address [random_email] builds passes [validate_email],
    whatever the name, the index and the domain drawn. *)
Theorem generated_email_is_valid pick name idx rownum :
  pick < length Generator.DOMAINS →
  Validator.validate_email (Some (Generator.random_email nfkd_ascii pick name idx)) rownum
  = [].
Proof.
  intros Hpick. unfold Validator.validate_email. simpl default at 1.
  enough (Py.match_anchored Validator.EMAIL_RE
            (Generator.random_email nfkd_ascii pick name idx) = true) as -> by done.
  apply email_accepted_iff. unfold Generator.random_email. cbv zeta.
  pose proof (slug_ascii_chars name) as Hslug.
  assert (Hlocal : Py.all_chars Validator.local_char
            (Generator.slug_ascii nfkd_ascii name +:+ "." +:+ Py.str_int idx) = true).
  { rewrite !all_chars_append. rewrite (all_chars_impl _ _ _ slug_char_local Hslug).
    rewrite (all_chars_impl _ _ _ digit_local (str_int_chars idx)). done. }
  assert (Hne : Generator.slug_ascii nfkd_ascii name +:+ "." +:+ Py.str_int idx ≠ "").
  { by destruct (Generator.slug_ascii nfkd_ascii name). }
  assert (∃ dom tld,
    default "" (Generator.DOMAINS !! pick) = dom +:+ "." +:+ tld +:+ ""
    ∧ dom ≠ "" ∧ Py.all_chars Validator.domain_char dom = true
    ∧ 2 ≤ String.length tld ∧ Py.all_chars Validator.alpha tld = true)
    as (dom & tld & Hd & Hrest).
  { destruct pick as [|[|[|[|[|pick]]]]]; simpl in Hpick; [..|lia].
    - exists "gmail", "com". split_and!; try done; simpl; lia.
    - exists "outlook", "com". split_and!; try done; simpl; lia.
    - exists "yahoo", "com". split_and!; try done; simpl; lia.
    - exists "example", "com". split_and!; try done; simpl; lia.
    - exists "proton", "me". split_and!; try done; simpl; lia. }
  exists (Generator.slug_ascii nfkd_ascii name +:+ "." +:+ Py.str_int idx), dom, tld, "".
  split_and!; try apply Hrest; try done; [|by left].
  rewrite Hd. by rewrite !append_assoc.
Qed.
End GeneratorFacts.

(** ** The validator and the generator at work *)

Lemma validated_record_loads_witness :
  ("customers.csv", Scenario.customers_cols) ∈ Validator.REQUIRED
  ∧ (Validator.check_nulls
       (dict_row Scenario.customers_cols ["2"; "Bob"; "bob@example.org"; "2021-03-04"; "BR"])
       3 Scenario.customers_cols "customers.csv" = [] →
     ∃ vals,
       getitems
         (dict_row Scenario.customers_cols
            ["2"; "Bob"; "bob@example.org"; "2021-03-04"; "BR"])
         Scenario.customers_cols = Ok vals
       ∧ length vals = length Scenario.customers_cols
       ∧ Forall (λ v, Validator.is_null v = false) vals).
Proof.
  apply (validated_record_loads "public.customers" "customers.csv" Scenario.customers_cols
           "id"
           (dict_row Scenario.customers_cols
              ["2"; "Bob"; "bob@example.org"; "2021-03-04"; "BR"]) 3).
  scenario_decide.
Defined.

Lemma generated_email_is_valid_witness :
  Validator.validate_email
    (Some (Generator.random_email Generator.ascii_only 4 "Ana  Silva" 17)) 18 = [].
Proof.
  apply (generated_email_is_valid Generator.ascii_only 4 "Ana  Silva" 17 18).
  simpl. lia.
Defined.

(** A short line is reported for the columns it does not reach, and
    the address built for a name is its slug, the index and the domain. *)
Lemma validator_scenario :
  Validator.check_nulls (dict_row Scenario.customers_cols ["3"; "Cy"; ""]) 4
    Scenario.customers_cols "customers.csv"
  = [ "customers.csv: row 4 null in 'email'";
      "customers.csv: row 4 null in 'registration_date'";
      "customers.csv: row 4 null in 'country'" ]
  ∧ Generator.random_email Generator.ascii_only 4 "Ana  Silva" 17
    = "ana.silva.17@proton.me"
  ∧ Validator.validate_email None 5 = ["customers.csv: row 5 invalid email 'None'"].
Proof. split_and!; vm_compute; reflexivity. Qed.
